(** * Tag-Finder: the tag store of [src/tagManager.ts]

    A shallow embedding of the [TagManager] class.  JavaScript objects are
    references: the same [TagItem] object sits in the global [tags] map and
    in the [tags] array of its group, and [editTag] mutates it in place.
    The embedding therefore keeps an explicit object heap; the two maps and
    the group arrays hold locations.  A [Map] iterates in insertion order,
    so both maps are association lists with the [Map] operations written
    out.

    What the class reads from its surroundings is passed in as arguments:
    the generated id ([Date.now()] and [Math.random()]), the clock, the
    user name ([getCurrentUser]), the answers to the warning dialogs and
    [fs.existsSync].  [saveData] writes a snapshot to storage and reads
    nothing back, so it does not appear in the in-memory transitions; the
    snapshot itself is [saveToWorkspace] below. *)

From Stdlib Require Import List String Ascii ZArith Bool Arith Lia.
Import ListNotations.

Set Implicit Arguments.

Local Open Scope string_scope.
Local Open Scope list_scope.

(** ** [Map<string, V>]: insertion-ordered, at most one entry per key *)

Module JsMap.
Section Ops.
Variable V : Type.

Definition t := list (string * V).

Definition empty : t := [].

(** [m.get(k)] *)
Fixpoint get (k : string) (m : t) : option V :=
  match m with
  | [] => None
  | (k', v) :: m' => if k' =? k then Some v else get k m'
  end.

(** [m.set(k, v)]: an existing key keeps its position, a new one is
    appended. *)
Fixpoint set (k : string) (v : V) (m : t) : t :=
  match m with
  | [] => [(k, v)]
  | (k', v') :: m' =>
      if k' =? k then (k, v) :: m' else (k', v') :: set k v m'
  end.

(** [m.delete(k)] *)
Definition delete (k : string) (m : t) : t :=
  filter (fun e => negb (fst e =? k)) m.

(** In-place mutation of the object that [m.get(k)] returns. *)
Fixpoint modify (k : string) (f : V -> V) (m : t) : t :=
  match m with
  | [] => []
  | (k', v) :: m' =>
      if k' =? k then (k', f v) :: m' else (k', v) :: modify k f m'
  end.

(** [m.values()], [m.keys()], [m.size] *)
Definition values (m : t) : list V := map snd m.
Definition keys (m : t) : list string := map fst m.
Definition size (m : t) : nat := List.length m.
End Ops.
End JsMap.

(** ** Data model *)

Module TagItem.
Record t := mk {
  id : string;
  name : string;
  filePath : string;
  group : string;
  description : option string;
  createdAt : Z;
  createdBy : option string;
  lastModified : option Z;
  lastModifiedBy : option string
}.
End TagItem.

(** A reference to a [TagItem] object. *)
Definition loc := nat.

Module TagGroup.
Record t := mk {
  id : string;
  name : string;
  tags : list loc
}.

Definition withTags (g : t) (ts : list loc) : t := mk (id g) (name g) ts.
End TagGroup.

(** The object heap: every location holds a [TagItem]; [next] is the first
    location that no reference of the store points to. *)
Definition Heap := loc -> TagItem.t.

Definition upd (h : Heap) (l : loc) (v : TagItem.t) : Heap :=
  fun l' => if Nat.eqb l' l then v else h l'.

Record TagManager := mkTM {
  heap : Heap;
  next : loc;
  tags : JsMap.t loc;
  groups : JsMap.t TagGroup.t
}.

Definition idOf (s : TagManager) (l : loc) : string := TagItem.id (heap s l).
Definition nameOf (s : TagManager) (l : loc) : string := TagItem.name (heap s l).
Definition pathOf (s : TagManager) (l : loc) : string := TagItem.filePath (heap s l).
Definition groupOf (s : TagManager) (l : loc) : string := TagItem.group (heap s l).

(** [excludeTagId] of [isTagNameExists]: [undefined] differs from every id. *)
Definition differsFrom (i : string) (exclude : option string) : bool :=
  match exclude with
  | None => true
  | Some e => negb (i =? e)
  end.

Definition isTagNameExists (s : TagManager) (tagName : string)
    (excludeTagId : option string) : bool :=
  existsb (fun l => (nameOf s l =? tagName) && differsFrom (idOf s l) excludeTagId)
          (JsMap.values (tags s)).

Definition getTagForFile (s : TagManager) (filePath : string) : option loc :=
  find (fun l => pathOf s l =? filePath) (JsMap.values (tags s)).

Definition getTagsForFile (s : TagManager) (filePath : string) : list loc :=
  filter (fun l => pathOf s l =? filePath) (JsMap.values (tags s)).

Definition getAllTags (s : TagManager) : list loc := JsMap.values (tags s).

Definition getTagsByGroup (s : TagManager) (groupId : string) : list loc :=
  match JsMap.get groupId (groups s) with
  | Some g => TagGroup.tags g
  | None => []
  end.

(** *** removeTag *)

Definition removeTag (tagId : string) (s : TagManager) : TagManager * bool :=
  match JsMap.get tagId (tags s) with
  | None => (s, false)
  | Some l =>
      let keep := fun t => negb (idOf s t =? tagId) in
      let groups' :=
        JsMap.modify (groupOf s l)
          (fun g => TagGroup.withTags g (filter keep (TagGroup.tags g)))
          (groups s) in
      (mkTM (heap s) (next s) (JsMap.delete tagId (tags s)) groups', true)
  end.

(** *** addTag *)

(** The answer to the dialog with the buttons "replace" and "cancel";
    [ReplaceDismissed] is the dialog closed without a button
    ([undefined]). *)
Inductive ReplaceChoice := ReplaceConfirmed | ReplaceCancelled | ReplaceDismissed.

(** What [addTag] reads from outside: the generated id, the two readings of
    the clock that end up in the object, and the user name. *)
Record AddEnv := mkAddEnv {
  env_id : string;
  env_createdAt : Z;
  env_lastModified : Z;
  env_user : string
}.

Definition newTag (filePath tagName groupId : string)
    (description : option string) (e : AddEnv) : TagItem.t :=
  TagItem.mk (env_id e) tagName filePath groupId description
             (env_createdAt e) (Some (env_user e))
             (Some (env_lastModified e)) (Some (env_user e)).

(** The part of [addTag] after the two checks: allocate the object, put it
    in the map, push it to the group when the group exists. *)
Definition insertTag (filePath tagName groupId : string)
    (description : option string) (e : AddEnv) (s : TagManager)
    : TagManager * option loc :=
  let l := next s in
  let h := upd (heap s) l (newTag filePath tagName groupId description e) in
  let groups' :=
    JsMap.modify groupId
      (fun g => TagGroup.withTags g (TagGroup.tags g ++ [l])) (groups s) in
  (mkTM h (S l) (JsMap.set (env_id e) l (tags s)) groups', Some l).

Definition addTag (filePath tagName groupId : string)
    (description : option string) (e : AddEnv) (choice : ReplaceChoice)
    (s : TagManager) : TagManager * option loc :=
  if isTagNameExists s tagName None then (s, None)
  else
    match getTagForFile s filePath with
    | Some existing =>
        match choice with
        | ReplaceConfirmed =>
            insertTag filePath tagName groupId description e
                      (fst (removeTag (idOf s existing) s))
        | _ => (s, None)
        end
    | None => insertTag filePath tagName groupId description e s
    end.

(** *** editTag *)

Fixpoint findIndex (A : Type) (p : A -> bool) (l : list A) : option nat :=
  match l with
  | [] => None
  | x :: l' => if p x then Some 0 else option_map S (findIndex p l')
  end.

(** [a[i] = x] for an index inside the array. *)
Fixpoint setNth (A : Type) (i : nat) (x : A) (l : list A) : list A :=
  match l, i with
  | [], _ => []
  | _ :: l', 0 => x :: l'
  | y :: l', S i' => y :: setNth i' x l'
  end.

Definition editedTag (tag : TagItem.t) (newName : string)
    (newDescription : option string) (now : Z) (user : string) : TagItem.t :=
  TagItem.mk (TagItem.id tag) newName (TagItem.filePath tag)
             (TagItem.group tag)
             (match newDescription with
              | Some d => Some d
              | None => TagItem.description tag
              end)
             (TagItem.createdAt tag) (TagItem.createdBy tag)
             (Some now) (Some user).

Definition editTag (tagId newName : string) (newDescription : option string)
    (now : Z) (user : string) (s : TagManager) : TagManager * bool :=
  match JsMap.get tagId (tags s) with
  | None => (s, false)
  | Some l =>
      if isTagNameExists s newName (Some tagId) then (s, false)
      else
        let h := upd (heap s) l
                     (editedTag (heap s l) newName newDescription now user) in
        let resync := fun g =>
          match findIndex (fun t => TagItem.id (h t) =? tagId)
                          (TagGroup.tags g) with
          | Some i => TagGroup.withTags g (setNth i l (TagGroup.tags g))
          | None => g
          end in
        (mkTM h (next s) (tags s)
              (JsMap.modify (TagItem.group (h l)) resync (groups s)), true)
  end.

(** *** createGroup, removeGroup *)

Definition createGroup (newId name : string) (s : TagManager)
    : TagManager * TagGroup.t :=
  let g := TagGroup.mk newId name [] in
  (mkTM (heap s) (next s) (tags s) (JsMap.set newId g (groups s)), g).

Definition removeGroup (groupId : string) (s : TagManager)
    : TagManager * bool :=
  match JsMap.get groupId (groups s) with
  | None => (s, false)
  | Some g =>
      let tags' :=
        fold_left (fun m t => JsMap.delete (idOf s t) m)
                  (TagGroup.tags g) (tags s) in
      (mkTM (heap s) (next s) tags' (JsMap.delete groupId (groups s)), true)
  end.

(** *** searchTags *)

(** [s.includes(q)]: [q] occurs in [s] as a contiguous substring. *)
Fixpoint includes (s q : string) : bool :=
  prefix q s ||
  match s with
  | EmptyString => false
  | String _ s' => includes s' q
  end.

Section Search.
(** [String.prototype.toLowerCase] and [path.basename] belong to the
    platform; the search is stated for any pair of them. *)
Variable toLowerCase : string -> string.
Variable basename : string -> string.

(** The predicate handed to [filter]; [tag.description?.…] of a tag
    without description is [undefined], which counts as false. *)
Definition matchesQuery (lowerQuery : string) (tag : TagItem.t) : bool :=
  includes (toLowerCase (TagItem.name tag)) lowerQuery
  || match TagItem.description tag with
     | Some d => includes (toLowerCase d) lowerQuery
     | None => false
     end
  || includes (toLowerCase (basename (TagItem.filePath tag))) lowerQuery.

Definition searchTags (query : string) (s : TagManager) : list loc :=
  let lowerQuery := toLowerCase query in
  filter (fun l => matchesQuery lowerQuery (heap s l))
         (JsMap.values (tags s)).
End Search.

(** *** cleanupInvalidTags *)

(** First dialog: "delete all", "confirm one by one", "cancel", or closed. *)
Inductive CleanupChoice :=
  DeleteAll | ConfirmEach | CleanupCancelled | CleanupDismissed.

(** Dialog per tag: "delete", "keep", "cancel", or closed. *)
Inductive Confirm :=
  ConfirmDelete | ConfirmKeep | ConfirmCancel | ConfirmDismissed.

(** Result of [cleanupInvalidTags]: the store, the returned count and the
    number of dialogs that were shown. *)
Record CleanupResult := mkCleanup {
  cr_store : TagManager;
  cr_count : nat;
  cr_prompts : nat
}.

(** The loop of the one-by-one branch; [answers i] is the answer to the
    [i]-th of its dialogs. *)
Fixpoint confirmLoop (answers : nat -> Confirm) (i : nat)
    (invalidTags : list loc) (deletedCount : nat) (s : TagManager)
    : CleanupResult :=
  match invalidTags with
  | [] => mkCleanup s deletedCount (S i)
  | tag :: rest =>
      match answers i with
      | ConfirmDelete =>
          confirmLoop answers (S i) rest (S deletedCount)
                      (fst (removeTag (idOf s tag) s))
      | ConfirmCancel => mkCleanup s deletedCount (S (S i))
      | _ => confirmLoop answers (S i) rest deletedCount s
      end
  end.

Definition invalidTagsOf (existsSync : string -> bool) (s : TagManager)
    : list loc :=
  filter (fun l => negb (existsSync (pathOf s l))) (JsMap.values (tags s)).

Definition removeAll (ts : list loc) (s : TagManager) : TagManager :=
  fold_left (fun s' tag => fst (removeTag (idOf s' tag) s')) ts s.

Definition cleanupInvalidTags (existsSync : string -> bool)
    (choice : CleanupChoice) (answers : nat -> Confirm) (s : TagManager)
    : CleanupResult :=
  let invalidTags := invalidTagsOf existsSync s in
  match invalidTags with
  | [] => mkCleanup s 0 0
  | _ :: _ =>
      match choice with
      | DeleteAll =>
          mkCleanup (removeAll invalidTags s) (List.length invalidTags) 1
      | ConfirmEach => confirmLoop answers 0 invalidTags 0 s
      | _ => mkCleanup s 0 1
      end
  end.

(** *** The persisted snapshot *)

(** A group as it stands in the file: its tag objects are written out in
    full. *)
Module GroupJson.
Record t := mk {
  id : string;
  name : string;
  tags : list TagItem.t
}.
End GroupJson.

Module TagDatabase.
Record t := mk {
  tags : list TagItem.t;
  groups : list GroupJson.t;
  version : Z;
  lastSync : Z
}.
End TagDatabase.

Definition groupJson (s : TagManager) (g : TagGroup.t) : GroupJson.t :=
  GroupJson.mk (TagGroup.id g) (TagGroup.name g)
               (map (heap s) (TagGroup.tags g)).

(** The [database] object of [saveToWorkspace].  [JSON.stringify] writes
    the objects behind the references; the text of the file is not
    modelled, [JSON.parse] of it is this tree again. *)
Definition saveToWorkspace (now : Z) (s : TagManager) : TagDatabase.t :=
  TagDatabase.mk (map (heap s) (JsMap.values (tags s)))
                 (map (groupJson s) (JsMap.values (groups s)))
                 1 now.

(** [JSON.parse] makes a new object for every tag it reads. *)
Fixpoint allocList (ts : list TagItem.t) (h : Heap) (n : loc)
    : Heap * loc * list loc :=
  match ts with
  | [] => (h, n, [])
  | t :: ts' =>
      let '(h', n', ls) := allocList ts' (upd h n t) (S n) in
      (h', n', n :: ls)
  end.

Fixpoint allocGroups (gs : list GroupJson.t) (h : Heap) (n : loc)
    : Heap * loc * list TagGroup.t :=
  match gs with
  | [] => (h, n, [])
  | g :: gs' =>
      let '(h1, n1, ls) := allocList (GroupJson.tags g) h n in
      let '(h2, n2, rest) := allocGroups gs' h1 n1 in
      (h2, n2, TagGroup.mk (GroupJson.id g) (GroupJson.name g) ls :: rest)
  end.

Definition defaultGroupName : string := "默认分组".

(** [loadFromWorkspace] on a file that exists and parses to [data];
    [defaultId] is the id [createGroup] would generate. *)
Definition loadFromWorkspace (data : TagDatabase.t) (defaultId : string)
    (s : TagManager) : TagManager :=
  let '(h1, n1, tls) := allocList (TagDatabase.tags data) (heap s) (next s) in
  let '(h2, n2, gls) := allocGroups (TagDatabase.groups data) h1 n1 in
  let tags' :=
    fold_left (fun m tl => JsMap.set (TagItem.id (fst tl)) (snd tl) m)
              (combine (TagDatabase.tags data) tls) (JsMap.empty loc) in
  let groups' :=
    fold_left (fun m g => JsMap.set (TagGroup.id g) g m) gls
              (JsMap.empty TagGroup.t) in
  let s' := mkTM h2 n2 tags' groups' in
  if Nat.eqb (JsMap.size groups') 0 then fst (createGroup defaultId defaultGroupName s')
  else s'.

(** ** Invariants of the store *)

(** What the representation guarantees in every state the class can be in:
    a [Map] has one entry per key, a tag is stored under its own [id]
    ([this.tags.set(tag.id, tag)] is the only insertion and [id] is never
    assigned), and every reference points to an allocated object. *)
Record wf (s : TagManager) : Prop := mkWf {
  wf_keys : NoDup (JsMap.keys (tags s));
  wf_ids : forall k l, In (k, l) (tags s) -> idOf s l = k;
  wf_alloc : forall k l, In (k, l) (tags s) -> l < next s;
  wf_gkeys : NoDup (JsMap.keys (groups s));
  wf_gids : forall k g, In (k, g) (groups s) -> TagGroup.id g = k;
  wf_galloc : forall k g l,
      In (k, g) (groups s) -> In l (TagGroup.tags g) -> l < next s
}.

(** Tag names are pairwise distinct. *)
Definition namesDistinct (s : TagManager) : Prop :=
  NoDup (map (nameOf s) (JsMap.values (tags s))).

(** At most one tag per file path. *)
Definition pathsDistinct (s : TagManager) : Prop :=
  NoDup (map (pathOf s) (JsMap.values (tags s))).

(** The group arrays agree with the map: a tag whose group exists is, by
    its id, in the array of that group. *)
Definition synced (s : TagManager) : Prop :=
  forall k l g,
    In (k, l) (tags s) ->
    JsMap.get (groupOf s l) (groups s) = Some g ->
    In k (map (idOf s) (TagGroup.tags g)).

(** No array of a group holds two objects with one id. *)
Definition groupIdsDistinct (s : TagManager) (g : TagGroup.t) : Prop :=
  NoDup (map (idOf s) (TagGroup.tags g)).

(** The id that [createGroup] generates is new: no group has it and no
    tag names it as its group. *)
Definition freshGroupId (s : TagManager) (newId : string) : Prop :=
  JsMap.get newId (groups s) = None
  /\ forall k l, In (k, l) (tags s) -> groupOf s l <> newId.

(** ** Sequences of add and edit calls *)

Inductive Op :=
| OpAddTag (filePath tagName groupId : string) (description : option string)
           (e : AddEnv) (choice : ReplaceChoice)
| OpEditTag (tagId newName : string) (newDescription : option string)
            (now : Z) (user : string).

Definition step (s : TagManager) (op : Op) : TagManager :=
  match op with
  | OpAddTag filePath tagName groupId description e choice =>
      fst (addTag filePath tagName groupId description e choice s)
  | OpEditTag tagId newName newDescription now user =>
      fst (editTag tagId newName newDescription now user s)
  end.

Definition run (ops : list Op) (s : TagManager) : TagManager :=
  fold_left step ops s.

(** ** What the specification says about search, in its own words *)

Section SearchSpec.
Variable toLowerCase : string -> string.
Variable basename : string -> string.

(** [x] contains [q] as a case-insensitive substring. *)
Definition containsCI (q x : string) : Prop :=
  exists pre post : string,
    toLowerCase x = (pre ++ toLowerCase q ++ post)%string.

(** Name, description or file basename contains the query. *)
Definition matchesSpec (q : string) (tag : TagItem.t) : Prop :=
  containsCI q (TagItem.name tag)
  \/ (exists d, TagItem.description tag = Some d /\ containsCI q d)
  \/ containsCI q (basename (TagItem.filePath tag)).
End SearchSpec.

(** [l1] is [l2] with some elements left out, the others in their order. *)
Inductive subseq (A : Type) : list A -> list A -> Prop :=
| subseq_nil : subseq [] []
| subseq_skip : forall x l1 l2, subseq l1 l2 -> subseq l1 (x :: l2)
| subseq_keep : forall x l1 l2, subseq l1 l2 -> subseq (x :: l1) (x :: l2).

(** ** What the one-by-one cleanup removes *)

(** The tags answered with "delete" before the first "cancel". *)
Fixpoint confirmed (answers : nat -> Confirm) (i : nat)
    (invalidTags : list loc) : list loc :=
  match invalidTags with
  | [] => []
  | tag :: rest =>
      match answers i with
      | ConfirmDelete => tag :: confirmed answers (S i) rest
      | ConfirmCancel => []
      | _ => confirmed answers (S i) rest
      end
  end.

(** ** The content of a store, references followed *)

Definition tagsView (s : TagManager) : list (string * TagItem.t) :=
  map (fun e => (fst e, heap s (snd e))) (tags s).

Definition groupsView (s : TagManager) : list (string * GroupJson.t) :=
  map (fun e => (fst e, groupJson s (snd e))) (groups s).

(** ** Concrete stores *)

Definition blankTag : TagItem.t :=
  TagItem.mk "" "" "" "" None 0 None None None.

(** A new [TagManager] before anything is loaded. *)
Definition emptyStore : TagManager :=
  mkTM (fun _ => blankTag) 0 (JsMap.empty loc) (JsMap.empty TagGroup.t).

Definition env1 : AddEnv := mkAddEnv "1_a" 100 100 "ann".
Definition env2 : AddEnv := mkAddEnv "2_b" 200 201 "bob".
Definition env3 : AddEnv := mkAddEnv "3_c" 300 300 "ann".

(** [createGroup("A")] *)
Definition storeA : TagManager := fst (createGroup "group_A" "A" emptyStore).

(** … then [addTag("/f1.js", "T1", A)] *)
Definition storeT1 : TagManager :=
  fst (addTag "/f1.js" "T1" "group_A" None env1 ReplaceDismissed storeA).

(** … then [addTag("/src/Login.ts", "Auth", A, "User login")] *)
Definition storeT2 : TagManager :=
  fst (addTag "/src/Login.ts" "Auth" "group_A" (Some "User login") env2
              ReplaceDismissed storeT1).

(** [storeT2] saved and loaded again: the group now holds copies of the
    tag objects, not the objects of the map. *)
Definition storeLoaded : TagManager :=
  loadFromWorkspace (saveToWorkspace 500 storeT2) "group_new" storeT2.

(** [storeT2] after its only group is removed. *)
Definition storeNoGroup : TagManager := fst (removeGroup "group_A" storeT2).

Definition demoOps : list Op :=
  [OpAddTag "/f3.js" "Auth" "group_A" None env3 ReplaceConfirmed;
   OpEditTag "1_a" "Auth" None 400 "cy";
   OpEditTag "1_a" "Entry" (Some "main") 401 "cy";
   OpAddTag "/f1.js" "T1" "group_A" None env3 ReplaceConfirmed].

(** An instance of the platform functions for running the search on
    examples: ASCII letters only, and the file name after the last [/]. *)
Definition asciiLower (c : ascii) : ascii :=
  let n := nat_of_ascii c in
  if (65 <=? n)%nat && (n <=? 90)%nat then ascii_of_nat (n + 32) else c.

Fixpoint asciiToLowerCase (s : string) : string :=
  match s with
  | EmptyString => EmptyString
  | String c s' => String (asciiLower c) (asciiToLowerCase s')
  end.

Fixpoint posixBasename (s : string) : string :=
  match s with
  | EmptyString => EmptyString
  | String c s' =>
      if includes s' "/" then posixBasename s' else
      if Ascii.eqb c "/"%char then s' else s
  end.

(** ** Calls of the public mutators and the stores they lead to *)

Inductive Call :=
| CallAddTag (filePath tagName groupId : string) (description : option string)
             (e : AddEnv) (choice : ReplaceChoice)
| CallEditTag (tagId newName : string) (newDescription : option string)
              (now : Z) (user : string)
| CallRemoveTag (tagId : string)
| CallCreateGroup (newId name : string)
| CallRemoveGroup (groupId : string).

Definition exec (s : TagManager) (c : Call) : TagManager :=
  match c with
  | CallAddTag filePath tagName groupId description e choice =>
      fst (addTag filePath tagName groupId description e choice s)
  | CallEditTag tagId newName newDescription now user =>
      fst (editTag tagId newName newDescription now user s)
  | CallRemoveTag tagId => fst (removeTag tagId s)
  | CallCreateGroup newId name => fst (createGroup newId name s)
  | CallRemoveGroup groupId => fst (removeGroup groupId s)
  end.

(** The invariants of the data model together. *)
Record storeInv (s : TagManager) : Prop := mkInv {
  inv_wf : wf s;
  inv_synced : synced s;
  inv_names : namesDistinct s;
  inv_paths : pathsDistinct s
}.

(** The stores a manager can be in: it starts empty, its mutators are
    called (an id generated for a group being new), and it loads the
    snapshot that a manager saved. *)
Inductive reachable : TagManager -> Prop :=
| reach_new : reachable emptyStore
| reach_call : forall s c,
    reachable s ->
    (forall newId name, c = CallCreateGroup newId name -> freshGroupId s newId) ->
    reachable (exec s c)
| reach_load : forall s s0 now defaultId,
    reachable s ->
    (forall k l, In (k, l) (tags s) -> groupOf s l <> defaultId) ->
    reachable (loadFromWorkspace (saveToWorkspace now s) defaultId s0).

(** ** The rest of the class *)

Definition getGroup (s : TagManager) (groupId : string) : option TagGroup.t :=
  JsMap.get groupId (groups s).

Definition getAllGroups (s : TagManager) : list TagGroup.t :=
  JsMap.values (groups s).

(** [a || b] on strings: [undefined] and the empty string are falsy. *)
Definition orElse (a : option string) (b : string) : string :=
  match a with
  | Some x => if x =? "" then b else x
  | None => b
  end.

(** [getCurrentUser], given the environment variables [USER] and
    [USERNAME]. *)
Definition getCurrentUser (USER USERNAME : option string) : string :=
  orElse USER (orElse USERNAME "Unknown").

(** [loadData] on the two arrays read from the global state.  They are
    parsed JSON, so every tag in them is an object of its own; unlike
    [loadFromWorkspace], [loadData] does not clear the maps first. *)
Definition loadData (savedTags : list TagItem.t)
    (savedGroups : list GroupJson.t) (defaultId : string) (s : TagManager)
    : TagManager :=
  let '(h1, n1, tls) := allocList savedTags (heap s) (next s) in
  let '(h2, n2, gls) := allocGroups savedGroups h1 n1 in
  let tags' :=
    fold_left (fun m tl => JsMap.set (TagItem.id (fst tl)) (snd tl) m)
              (combine savedTags tls) (tags s) in
  let groups' :=
    fold_left (fun m g => JsMap.set (TagGroup.id g) g m) gls (groups s) in
  let s' := mkTM h2 n2 tags' groups' in
  if Nat.eqb (JsMap.size groups') 0 then fst (createGroup defaultId defaultGroupName s')
  else s'.

(** [this.tags.clear(); this.groups.clear()] *)
Definition cleared (s : TagManager) : TagManager :=
  mkTM (heap s) (next s) (JsMap.empty loc) (JsMap.empty TagGroup.t).

(** *** handleFileDeleted *)

(** The answer to "delete the tags of the deleted file?". *)
Inductive DeleteChoice := DeleteTags | KeepTags | DeleteDismissed.

(** The store afterwards and the count shown in the closing message, when
    one is shown. *)
Definition handleFileDeleted (deletedFilePath : string)
    (choice : DeleteChoice) (s : TagManager) : TagManager * option nat :=
  let tagsToRemove := getTagsForFile s deletedFilePath in
  match tagsToRemove with
  | [] => (s, None)
  | _ :: _ =>
      match choice with
      | DeleteTags =>
          (removeAll tagsToRemove s, Some (List.length tagsToRemove))
      | _ => (s, None)
      end
  end.

(** *** getCollaborationInfo *)

(** [users.add(x)] on a [Set<string>] kept in insertion order. *)
Definition setAdd (x : string) (users : list string) : list string :=
  if existsb (String.eqb x) users then users else users ++ [x].

(** [if (name) users.add(name)] *)
Definition addIfSet (name : option string) (users : list string)
    : list string :=
  match name with
  | Some x => if x =? "" then users else setAdd x users
  | None => users
  end.

(** The set [users] after the loop over the tags. *)
Definition collaborators (s : TagManager) : list string :=
  fold_left (fun users l =>
               addIfSet (TagItem.lastModifiedBy (heap s l))
                        (addIfSet (TagItem.createdBy (heap s l)) users))
            (JsMap.values (tags s)) [].

Record CollaborationInfo := mkInfo {
  mode : string;
  dbPath : option string;
  userCount : option nat
}.

(** [workspaceDb] is the path of the shared file when the manager is in
    workspace mode and a workspace folder is open, and [None] otherwise. *)
Definition getCollaborationInfo (workspaceDb : option string)
    (s : TagManager) : CollaborationInfo :=
  match workspaceDb with
  | Some p => mkInfo "团队协作模式" (Some p) (Some (List.length (collaborators s)))
  | None => mkInfo "个人模式" None None
  end.

(** ** The tree view ([TagTreeDataProvider]) *)

Definition mapHas (V : Type) (k : string) (m : JsMap.t V) : bool :=
  match JsMap.get k m with
  | Some _ => true
  | None => false
  end.

(** The [fileMap] that [getFileView] builds: tags grouped by file path. *)
Definition fileMapOf (s : TagManager) : JsMap.t (list loc) :=
  fold_left (fun fileMap l =>
               let p := pathOf s l in
               let fileMap1 :=
                 if mapHas p fileMap then fileMap else JsMap.set p [] fileMap in
               JsMap.modify p (fun ts => ts ++ [l]) fileMap1)
            (getAllTags s) (JsMap.empty (list loc)).

(** What the map of [getFileView] holds after the tags [done]. *)
Definition groupedByPath (s : TagManager) (done : list loc)
    (fileMap : JsMap.t (list loc)) : Prop :=
  NoDup (JsMap.keys fileMap)
  /\ forall p,
      JsMap.get p fileMap
      = if existsb (fun l => pathOf s l =? p) done
        then Some (filter (fun l => pathOf s l =? p) done)
        else None.

(** An item of the file view: the path it carries as [data] and the count
    that its label shows after the file name. *)
Definition getFileView (s : TagManager) : list (string * nat) :=
  map (fun e => (fst e, List.length (snd e))) (fileMapOf s).

(** An item of the group view: the group it carries as [data], with the
    name and the count of its label. *)
Definition getGroupView (s : TagManager) : list (string * nat * TagGroup.t) :=
  map (fun g => (TagGroup.name g, List.length (TagGroup.tags g), g))
      (getAllGroups s).

(** [getChildren] of a file item and of a group item: the tags shown
    under it.  The branches are guarded by [element.data]: the path of a
    file item is a string, and the empty string is falsy, so a file item
    with the empty path has no children; the data of a group item is an
    object and passes. *)
Definition fileChildren (s : TagManager) (filePath : string) : list loc :=
  if filePath =? "" then [] else getTagsForFile s filePath.

Definition groupChildren (g : TagGroup.t) : list loc := TagGroup.tags g.

(** ** The "add tag" command ([activate]) *)

Section Commands.
(** [String.prototype.trim] belongs to the platform. *)
Variable trim : string -> string.

(** [uri] is the file the command was invoked on, [tagNameInput] and
    [descriptionInput] what the input boxes returned, [picked] the index
    of the group chosen in the quick pick; [None] stands for a dialog
    that was dismissed.  The command reads the groups first and calls
    [addTag] only after the three dialogs, and other events (a reload of
    the shared file, another command) may run while it waits: [shown] is
    the store at the time the groups are read, [s] the store at the time
    of the [addTag] call.  The result is what the command does to [s]. *)
Definition addTagCommand (uri tagNameInput : option string)
    (picked : option nat) (descriptionInput : option string) (e : AddEnv)
    (choice : ReplaceChoice) (shown s : TagManager)
    : TagManager * option loc :=
  match uri with
  | None => (s, None)
  | Some filePath =>
      match getAllGroups shown with
      | [] => (s, None)
      | _ :: _ =>
          match tagNameInput with
          | None => (s, None)
          | Some tagName =>
              if tagName =? "" then (s, None)
              else
                match picked with
                | None => (s, None)
                | Some i =>
                    match nth_error (getAllGroups shown) i with
                    | None => (s, None)
                    | Some g =>
                        addTag filePath (trim tagName) (TagGroup.id g)
                               (option_map trim descriptionInput) e choice s
                    end
                end
          end
      end
  end.
End Commands.

(** ** The group arrays mirror the map *)

(** The tag contents of the map, in its order. *)
Definition contents (s : TagManager) : list TagItem.t :=
  map (heap s) (getAllTags s).

(** Every group array holds, in the order of the map and with the same
    content, the tags of the map whose [group] is the id of that group. *)
Definition mirrors (s : TagManager) : Prop :=
  forall k g,
    In (k, g) (groups s) ->
    map (heap s) (TagGroup.tags g)
    = filter (fun t => TagItem.group t =? k) (contents s).

(** The id generated for a new tag is not in use. *)
Definition freshTagId (s : TagManager) (c : Call) : Prop :=
  match c with
  | CallAddTag _ _ _ _ e _ => JsMap.get (env_id e) (tags s) = None
  | _ => True
  end.

(** The stores a manager reaches when every generated id is new. *)
Inductive reachableFresh : TagManager -> Prop :=
| fresh_new : reachableFresh emptyStore
| fresh_call : forall s c,
    reachableFresh s ->
    freshTagId s c ->
    (forall newId name, c = CallCreateGroup newId name -> freshGroupId s newId) ->
    reachableFresh (exec s c)
| fresh_load : forall s s0 now defaultId,
    reachableFresh s ->
    (forall k l, In (k, l) (tags s) -> groupOf s l <> defaultId) ->
    reachableFresh (loadFromWorkspace (saveToWorkspace now s) defaultId s0).

(** Running a list of calls. *)
Definition runCalls (cs : list Call) (s : TagManager) : TagManager :=
  fold_left exec cs s.

(* ================================================================= *)
(** * Proofs *)

Unset Implicit Arguments.

(** ** Facts about [JsMap] *)

Ltac str_eq :=
  repeat match goal with
  | H : (_ =? _) = true |- _ => apply String.eqb_eq in H
  | H : (_ =? _) = false |- _ => apply String.eqb_neq in H
  | H : negb _ = true |- _ => apply negb_true_iff in H
  | H : negb _ = false |- _ => apply negb_false_iff in H
  end.

Section JsMapFacts.
Variable V : Type.
Implicit Types (m : JsMap.t V) (k : string) (v : V).

Lemma get_In k m v : JsMap.get k m = Some v -> In (k, v) m.
Proof.
  induction m as [|[k' v'] m IH]; simpl; [discriminate|].
  destruct (k' =? k) eqn:E; str_eq.
  - intros [= <-]. subst. now left.
  - intros H. right. now apply IH.
Qed.

Lemma get_None k m : JsMap.get k m = None <-> ~ In k (JsMap.keys m).
Proof.
  induction m as [|[k' v'] m IH]; simpl; [tauto|].
  destruct (k' =? k) eqn:E; str_eq.
  - split; [discriminate | intros H; exfalso; apply H; now left].
  - rewrite IH. split; [intros H [H1|H1]; auto | intros H H1; apply H; auto].
Qed.

Lemma In_keys k v m : In (k, v) m -> In k (JsMap.keys m).
Proof. intros H. apply (in_map fst) in H. exact H. Qed.

Lemma keys_In k m : In k (JsMap.keys m) -> exists v, In (k, v) m.
Proof.
  intros H. apply in_map_iff in H. destruct H as [[k' v] [E H]].
  simpl in E. subst. now exists v.
Qed.

Lemma In_get k m v :
  NoDup (JsMap.keys m) -> In (k, v) m -> JsMap.get k m = Some v.
Proof.
  induction m as [|[k' v'] m IH]; simpl; [tauto|].
  intros ND [H|H].
  - injection H as -> ->. now rewrite String.eqb_refl.
  - inversion ND as [|? ? Hn ND']; subst.
    destruct (k' =? k) eqn:E; str_eq.
    + subst. exfalso. apply Hn. eapply In_keys; eauto.
    + now apply IH.
Qed.

Lemma NoDup_keys_inj k m v v' :
  NoDup (JsMap.keys m) -> In (k, v) m -> In (k, v') m -> v = v'.
Proof.
  intros ND H1 H2. apply (In_get _ _ _ ND) in H1.
  apply (In_get _ _ _ ND) in H2. congruence.
Qed.

Lemma In_delete k k' v m :
  In (k', v) (JsMap.delete k m) <-> In (k', v) m /\ k' <> k.
Proof.
  unfold JsMap.delete. rewrite filter_In. simpl.
  rewrite negb_true_iff, String.eqb_neq. tauto.
Qed.

Lemma keys_delete k m :
  JsMap.keys (JsMap.delete k m) = filter (fun k' => negb (k' =? k)) (JsMap.keys m).
Proof.
  induction m as [|[k' v'] m IH]; simpl; [reflexivity|].
  destruct (negb (k' =? k)); simpl; now rewrite IH.
Qed.

Lemma NoDup_filter (A : Type) (p : A -> bool) (l : list A) :
  NoDup l -> NoDup (filter p l).
Proof.
  induction 1 as [|x l Hn ND IH]; simpl; [constructor|].
  destruct (p x); [constructor|]; auto.
  rewrite filter_In. tauto.
Qed.

Lemma NoDup_keys_delete k m :
  NoDup (JsMap.keys m) -> NoDup (JsMap.keys (JsMap.delete k m)).
Proof. rewrite keys_delete. apply NoDup_filter. Qed.

Lemma get_delete k m : JsMap.get k (JsMap.delete k m) = None.
Proof.
  apply get_None. intros H. apply keys_In in H. destruct H as [v H].
  apply In_delete in H. tauto.
Qed.

Lemma delete_absent k m : ~ In k (JsMap.keys m) -> JsMap.delete k m = m.
Proof.
  induction m as [|[k' v'] m IH]; simpl; [reflexivity|].
  intros H. destruct (k' =? k) eqn:E; str_eq; simpl.
  - exfalso. apply H. now left.
  - f_equal. apply IH. intros H1. apply H. now right.
Qed.

(** [set] either replaces the value at the place of the key or appends. *)
Lemma set_cases k v m :
  (exists m1 v0 m2,
      m = m1 ++ (k, v0) :: m2 /\ ~ In k (JsMap.keys m1)
      /\ JsMap.set k v m = m1 ++ (k, v) :: m2)
  \/ (~ In k (JsMap.keys m) /\ JsMap.set k v m = m ++ [(k, v)]).
Proof.
  induction m as [|[k' v'] m IH]; simpl.
  - right. split; [tauto | reflexivity].
  - destruct (k' =? k) eqn:E; str_eq.
    + subst. left. exists [], v', m. simpl. tauto.
    + destruct IH as [(m1 & v0 & m2 & -> & Hn & ->)|[Hn ->]].
      * left. exists ((k', v') :: m1), v0, m2. simpl.
        repeat split; auto. intros [H|H]; auto.
      * right. split; [intros [H|H]; auto | reflexivity].
Qed.

(** [modify] changes the object at the place where [get] finds it. *)
Lemma modify_cases k (f : V -> V) m :
  (exists m1 v0 m2,
      m = m1 ++ (k, v0) :: m2 /\ ~ In k (JsMap.keys m1)
      /\ JsMap.get k m = Some v0
      /\ JsMap.modify k f m = m1 ++ (k, f v0) :: m2)
  \/ (JsMap.get k m = None /\ JsMap.modify k f m = m).
Proof.
  induction m as [|[k' v'] m IH]; simpl.
  - right. split; reflexivity.
  - destruct (k' =? k) eqn:E; str_eq.
    + subst. left. exists [], v', m. simpl. tauto.
    + destruct IH as [(m1 & v0 & m2 & -> & Hn & Hg & ->)|[Hg ->]].
      * left. exists ((k', v') :: m1), v0, m2. simpl.
        repeat split; auto. intros [H|H]; auto.
      * right. split; [assumption | reflexivity].
Qed.

Lemma keys_modify k (f : V -> V) m :
  JsMap.keys (JsMap.modify k f m) = JsMap.keys m.
Proof.
  induction m as [|[k' v'] m IH]; simpl; [reflexivity|].
  destruct (k' =? k); simpl; [reflexivity | now rewrite IH].
Qed.

Lemma get_modify k k' (f : V -> V) m :
  JsMap.get k' (JsMap.modify k f m) =
  if k' =? k then option_map f (JsMap.get k m) else JsMap.get k' m.
Proof.
  induction m as [|[k0 v0] m IH]; simpl.
  - now destruct (k' =? k).
  - destruct (k0 =? k) eqn:E; simpl; str_eq.
    + subst. destruct (k =? k') eqn:E'; str_eq.
      * subst. now rewrite String.eqb_refl.
      * apply not_eq_sym in E'. apply String.eqb_neq in E'. now rewrite E'.
    + rewrite IH. destruct (k0 =? k') eqn:E'; str_eq; [|reflexivity].
      subst. apply String.eqb_neq in E. now rewrite E.
Qed.

Lemma In_modify k k' (f : V -> V) m v' :
  In (k', v') (JsMap.modify k f m) ->
  In (k', v') m \/ (k' = k /\ exists v, In (k, v) m /\ v' = f v).
Proof.
  destruct (modify_cases k f m) as [(m1 & v0 & m2 & -> & Hn & Hg & ->)|[Hg ->]];
    [|tauto].
  rewrite !in_app_iff. simpl. intros [H|[H|H]]; auto.
  injection H as <- <-. right. split; [reflexivity|].
  exists v0. split; [|reflexivity]. apply in_app_iff. right. now left.
Qed.
End JsMapFacts.

(** ** Unknown ids *)

(** C8: for an id that is not a key of the map concerned, [removeTag],
    [editTag] and [removeGroup] return [false] and hand back the store as
    it was: tag map, group map and objects are untouched, and the call
    returns normally. *)
Theorem unknown_id_noop :
  forall s tagId groupId newName newDescription now user,
    JsMap.get tagId (tags s) = None ->
    JsMap.get groupId (groups s) = None ->
    removeTag tagId s = (s, false)
    /\ editTag tagId newName newDescription now user s = (s, false)
    /\ removeGroup groupId s = (s, false).
Proof.
  intros s tagId groupId newName newDescription now user Ht Hg.
  unfold removeTag, editTag, removeGroup. rewrite Ht, Hg. auto.
Qed.

Lemma unknown_id_noop_witness :
  removeTag "9_z" storeT2 = (storeT2, false)
  /\ editTag "9_z" "Other" (Some "d") 7 "ann" storeT2 = (storeT2, false)
  /\ removeGroup "group_B" storeT2 = (storeT2, false).
Proof.
  apply (unknown_id_noop storeT2 "9_z" "group_B" "Other" (Some "d") 7 "ann");
    reflexivity.
Defined.

(** ** editTag *)

Lemma editTag_success s tagId newName newDescription now user l :
  JsMap.get tagId (tags s) = Some l ->
  snd (editTag tagId newName newDescription now user s) = true ->
  isTagNameExists s newName (Some tagId) = false.
Proof.
  unfold editTag. intros ->.
  destruct (isTagNameExists s newName (Some tagId)); simpl; congruence.
Qed.

Lemma editTag_heap s tagId newName newDescription now user l :
  JsMap.get tagId (tags s) = Some l ->
  isTagNameExists s newName (Some tagId) = false ->
  heap (fst (editTag tagId newName newDescription now user s)) =
  upd (heap s) l (editedTag (heap s l) newName newDescription now user)
  /\ tags (fst (editTag tagId newName newDescription now user s)) = tags s
  /\ next (fst (editTag tagId newName newDescription now user s)) = next s.
Proof.
  unfold editTag. intros -> ->. simpl. auto.
Qed.

Lemma upd_same h l v : upd h l v l = v.
Proof. unfold upd. now rewrite Nat.eqb_refl. Qed.

Lemma upd_other h l v l' : l' <> l -> upd h l v l' = h l'.
Proof. unfold upd. intros H. apply Nat.eqb_neq in H. now rewrite H. Qed.

(** C10: a successful [editTag] called without a description leaves the
    description of the tag as it was; called with one, the empty string
    included, it stores that one. *)
Theorem editTag_description :
  forall s tagId newName now user l,
    JsMap.get tagId (tags s) = Some l ->
    snd (editTag tagId newName None now user s) = true ->
    TagItem.description (heap (fst (editTag tagId newName None now user s)) l)
    = TagItem.description (heap s l)
    /\ forall d,
        snd (editTag tagId newName (Some d) now user s) = true
        /\ TagItem.description
             (heap (fst (editTag tagId newName (Some d) now user s)) l)
           = Some d.
Proof.
  intros s tagId newName now user l Hget Hok.
  pose proof (editTag_success _ _ _ _ _ _ _ Hget Hok) as Hfree.
  split.
  - destruct (editTag_heap s tagId newName None now user l Hget Hfree)
      as (-> & _). now rewrite upd_same.
  - intros d.
    destruct (editTag_heap s tagId newName (Some d) now user l Hget Hfree)
      as (-> & _). rewrite upd_same. split; [|reflexivity].
    unfold editTag. now rewrite Hget, Hfree.
Qed.

Lemma editTag_description_witness :
  TagItem.description
    (heap (fst (editTag "2_b" "Login" None 400 "cy" storeT2)) 1)
  = Some "User login"
  /\ forall d,
      snd (editTag "2_b" "Login" (Some d) 400 "cy" storeT2) = true
      /\ TagItem.description
           (heap (fst (editTag "2_b" "Login" (Some d) 400 "cy" storeT2)) 1)
         = Some d.
Proof.
  apply (editTag_description storeT2 "2_b" "Login" 400 "cy" 1); reflexivity.
Defined.

Lemma findIndex_None (A : Type) (p : A -> bool) (xs : list A) :
  findIndex p xs = None -> find p xs = None.
Proof.
  induction xs as [|x xs IH]; simpl; [reflexivity|].
  destruct (p x); [discriminate|].
  destruct (findIndex p xs); [discriminate|]. auto.
Qed.

Lemma find_setNth (A : Type) (p : A -> bool) (xs : list A) i x :
  findIndex p xs = Some i -> p x = true -> find p (setNth i x xs) = Some x.
Proof.
  revert i. induction xs as [|y xs IH]; simpl; [discriminate|].
  intros i Hi Hx. destruct (p y) eqn:E.
  - injection Hi as <-. simpl. now rewrite Hx.
  - destruct (findIndex p xs) as [j|]; [|discriminate].
    injection Hi as <-. simpl. rewrite E. now apply IH.
Qed.

Lemma NoDup_map_eq (A B : Type) (f : A -> B) (xs : list A) a b :
  NoDup (map f xs) -> In a xs -> In b xs -> f a = f b -> a = b.
Proof.
  induction xs as [|x xs IH]; simpl; [tauto|].
  intros ND Ha Hb E. inversion ND as [|? ? Hn ND']; subst.
  destruct Ha as [->|Ha], Hb as [->|Hb]; auto.
  - exfalso. apply Hn. rewrite E. now apply in_map.
  - exfalso. apply Hn. rewrite <- E. now apply in_map.
Qed.

(** C5: a successful [editTag] keeps [id], [filePath], [group] and the
    creation data of the tag, sets [name], the modification time and
    actor, sets [description] only when one is given, touches no other
    object and leaves the tag map as it is; afterwards the entry for this
    id in the array of the owning group has the content of the map's
    entry. *)
Theorem editTag_frame :
  forall s tagId newName newDescription now user l,
    wf s ->
    JsMap.get tagId (tags s) = Some l ->
    snd (editTag tagId newName newDescription now user s) = true ->
    let s' := fst (editTag tagId newName newDescription now user s) in
    tags s' = tags s
    /\ TagItem.id (heap s' l) = TagItem.id (heap s l)
    /\ TagItem.filePath (heap s' l) = TagItem.filePath (heap s l)
    /\ TagItem.group (heap s' l) = TagItem.group (heap s l)
    /\ TagItem.createdAt (heap s' l) = TagItem.createdAt (heap s l)
    /\ TagItem.createdBy (heap s' l) = TagItem.createdBy (heap s l)
    /\ TagItem.name (heap s' l) = newName
    /\ TagItem.description (heap s' l) =
       match newDescription with
       | Some d => Some d
       | None => TagItem.description (heap s l)
       end
    /\ TagItem.lastModified (heap s' l) = Some now
    /\ TagItem.lastModifiedBy (heap s' l) = Some user
    /\ (forall l', l' <> l -> heap s' l' = heap s l')
    /\ (forall g,
          JsMap.get (groupOf s' l) (groups s') = Some g ->
          (forall l',
              find (fun t => idOf s' t =? tagId) (TagGroup.tags g) = Some l' ->
              heap s' l' = heap s' l)
          /\ (groupIdsDistinct s' g ->
              forall l', In l' (TagGroup.tags g) -> idOf s' l' = tagId ->
                         heap s' l' = heap s' l)).
Proof.
  intros s tagId newName newDescription now user l Hwf Hget Hok s'.
  pose proof (editTag_success _ _ _ _ _ _ _ Hget Hok) as Hfree.
  assert (Hid : idOf s l = tagId).
  { apply (wf_ids Hwf). now apply get_In. }
  subst s'. unfold editTag. rewrite Hget, Hfree. cbn [fst heap tags groups].
  rewrite upd_same. cbn [editedTag TagItem.id TagItem.filePath TagItem.group
    TagItem.createdAt TagItem.createdBy TagItem.name TagItem.description
    TagItem.lastModified TagItem.lastModifiedBy].
  repeat (split; [reflexivity|]).
  split; [intros l' Hne; exact (upd_other _ _ _ _ Hne)|].
  intros g. unfold groupOf, idOf. cbn [heap groups]. rewrite upd_same.
  cbn [TagItem.group]. rewrite get_modify, String.eqb_refl.
  set (h := upd (heap s) l _).
  set (p := fun t => TagItem.id (h t) =? tagId).
  assert (Hp : p l = true).
  { unfold p, h. rewrite upd_same. cbn. now apply String.eqb_eq. }
  destruct (JsMap.get (TagItem.group (heap s l)) (groups s)) as [g0|];
    [|discriminate].
  cbn [option_map]. intros [= <-].
  assert (Hfind : forall l', find p (TagGroup.tags
            match findIndex p (TagGroup.tags g0) with
            | Some i => TagGroup.withTags g0 (setNth i l (TagGroup.tags g0))
            | None => g0
            end) = Some l' -> l' = l).
  { intros l'. destruct (findIndex p (TagGroup.tags g0)) as [i|] eqn:Ei.
    - cbn. rewrite (find_setNth _ p _ i l Ei Hp). congruence.
    - rewrite (findIndex_None _ p _ Ei). discriminate. }
  assert (Hhl : h l = editedTag (heap s l) newName newDescription now user)
    by (unfold h; apply upd_same).
  split.
  - intros l' Hl'. now rewrite (Hfind l' Hl').
  - intros ND l' Hin Hl'.
    destruct (find p (TagGroup.tags
            match findIndex p (TagGroup.tags g0) with
            | Some i => TagGroup.withTags g0 (setNth i l (TagGroup.tags g0))
            | None => g0
            end)) as [l0|] eqn:Ef.
    + pose proof (Hfind l0 eq_refl) as ->.
      apply find_some in Ef. destruct Ef as [Hinl _].
      assert (l' = l) as ->; [|exact Hhl].
      eapply NoDup_map_eq; [exact ND | exact Hin | exact Hinl |].
      unfold idOf. cbn [heap]. fold h. rewrite Hl'.
      unfold p in Hp. now apply String.eqb_eq in Hp.
    + exfalso. apply (find_none _ _ Ef) in Hin. unfold p in Hin.
      apply String.eqb_neq in Hin. apply Hin. exact Hl'.
Qed.

(** ** The representation invariant is kept by every operation *)

Section SetFacts.
Variable V : Type.
Implicit Types (m : JsMap.t V) (k : string) (v : V).

Lemma keys_set k v m :
  JsMap.keys (JsMap.set k v m) =
  if in_dec string_dec k (JsMap.keys m) then JsMap.keys m
  else JsMap.keys m ++ [k].
Proof.
  destruct (set_cases V k v m) as [(m1 & v0 & m2 & -> & Hn & ->)|[Hn ->]];
    unfold JsMap.keys in *.
  - rewrite !map_app. simpl.
    destruct (in_dec string_dec k (map fst m1 ++ k :: map fst m2)) as [|n];
      [reflexivity|].
    exfalso. apply n. apply in_app_iff. right. now left.
  - rewrite map_app. simpl.
    destruct (in_dec string_dec k (map fst m)); [contradiction|reflexivity].
Qed.

Lemma NoDup_keys_set k v m :
  NoDup (JsMap.keys m) -> NoDup (JsMap.keys (JsMap.set k v m)).
Proof.
  intros ND. rewrite keys_set.
  destruct (in_dec string_dec k (JsMap.keys m)) as [|n]; [assumption|].
  apply NoDup_app; [assumption | repeat constructor; simpl; tauto |].
  intros x Hx [<-|[]]. contradiction.
Qed.

Lemma In_set k v m k' v' :
  NoDup (JsMap.keys m) ->
  In (k', v') (JsMap.set k v m) <->
  (k' = k /\ v' = v) \/ (k' <> k /\ In (k', v') m).
Proof.
  intros ND.
  destruct (set_cases V k v m) as [(m1 & v0 & m2 & -> & Hn & ->)|[Hn ->]].
  - unfold JsMap.keys in ND. rewrite map_app in ND. simpl in ND.
    apply NoDup_remove_2 in ND. rewrite in_app_iff in ND.
    rewrite !in_app_iff. simpl.
    assert (Hk : forall w, In (k, w) m1 \/ In (k, w) m2 -> False).
    { intros w [H|H]; apply ND; [left|right];
        apply (in_map fst) in H; exact H. }
    split.
    + intros [H|[H|H]].
      * right. split; [intros ->; eapply Hk; eauto | auto].
      * injection H as <- <-. now left.
      * right. split; [intros ->; eapply Hk; eauto | auto].
    + intros [[-> ->]|[Hne [H|[H|H]]]]; auto.
      injection H as <- _. contradiction.
  - rewrite in_app_iff. simpl. split.
    + intros [H|[H|[]]].
      * right. split; [|assumption]. intros ->. apply Hn.
        apply (in_map fst) in H. exact H.
      * injection H as <- <-. now left.
    + intros [[-> ->]|[_ H]]; auto.
Qed.
End SetFacts.

Lemma In_setNth (A : Type) i (x y : A) xs :
  In y (setNth i x xs) -> y = x \/ In y xs.
Proof.
  revert i. induction xs as [|z xs IH]; intros [|i]; simpl; try tauto.
  - intros [<-|H]; auto.
  - intros [<-|H]; auto. destruct (IH i H); auto.
Qed.

Lemma removeTag_found s tagId l :
  JsMap.get tagId (tags s) = Some l ->
  removeTag tagId s =
  (mkTM (heap s) (next s) (JsMap.delete tagId (tags s))
        (JsMap.modify (groupOf s l)
           (fun g => TagGroup.withTags g
              (filter (fun t => negb (idOf s t =? tagId)) (TagGroup.tags g)))
           (groups s)), true).
Proof. unfold removeTag. now intros ->. Qed.

Lemma removeTag_heap s tagId :
  heap (fst (removeTag tagId s)) = heap s
  /\ next (fst (removeTag tagId s)) = next s
  /\ tags (fst (removeTag tagId s)) = JsMap.delete tagId (tags s)
  /\ JsMap.keys (groups (fst (removeTag tagId s))) = JsMap.keys (groups s).
Proof.
  unfold removeTag. destruct (JsMap.get tagId (tags s)) as [l|] eqn:E; simpl.
  - repeat split; auto. apply keys_modify.
  - repeat split; auto. symmetry. apply delete_absent. now apply get_None.
Qed.

Lemma wf_removeTag s tagId : wf s -> wf (fst (removeTag tagId s)).
Proof.
  intros [K I A GK GI GA].
  unfold removeTag. destruct (JsMap.get tagId (tags s)) as [l|] eqn:E; simpl;
    [|now constructor].
  constructor; unfold idOf in *; simpl.
  - now apply NoDup_keys_delete.
  - intros k l' H. apply In_delete in H. apply I. tauto.
  - intros k l' H. apply In_delete in H. eapply A. apply H.
  - now rewrite keys_modify.
  - intros k g H. apply In_modify in H.
    destruct H as [H|(-> & g0 & H & ->)]; [now apply GI|].
    simpl. now apply GI.
  - intros k g l' H Hl. apply In_modify in H.
    destruct H as [H|(-> & g0 & H & ->)]; [eapply GA; eauto|].
    simpl in Hl. apply filter_In in Hl. eapply GA; [exact H | tauto].
Qed.

Lemma wf_insertTag filePath tagName groupId description e s :
  wf s -> wf (fst (insertTag filePath tagName groupId description e s)).
Proof.
  intros [K I A GK GI GA]. unfold insertTag. simpl.
  constructor; unfold idOf in *; simpl.
  - now apply NoDup_keys_set.
  - intros k l H. apply In_set in H; [|assumption].
    destruct H as [[-> ->]|[_ H]].
    + now rewrite upd_same.
    + rewrite upd_other; [now apply I|]. apply A in H. lia.
  - intros k l H. apply In_set in H; [|assumption].
    destruct H as [[-> ->]|[_ H]]; [lia|]. apply A in H. lia.
  - now rewrite keys_modify.
  - intros k g H. apply In_modify in H.
    destruct H as [H|(-> & g0 & H & ->)]; [now apply GI|].
    simpl. now apply GI.
  - intros k g l H Hl. apply In_modify in H.
    destruct H as [H|(-> & g0 & H & ->)].
    + pose proof (GA _ _ _ H Hl). lia.
    + simpl in Hl. apply in_app_iff in Hl. destruct Hl as [Hl|[<-|[]]]; [|lia].
      pose proof (GA _ _ _ H Hl). lia.
Qed.

Lemma wf_addTag filePath tagName groupId description e choice s :
  wf s -> wf (fst (addTag filePath tagName groupId description e choice s)).
Proof.
  intros Hwf. unfold addTag.
  destruct (isTagNameExists s tagName None); [assumption|].
  destruct (getTagForFile s filePath) as [existing|].
  - destruct choice; try assumption.
    apply wf_insertTag. now apply wf_removeTag.
  - now apply wf_insertTag.
Qed.

Lemma wf_editTag tagId newName newDescription now user s :
  wf s -> wf (fst (editTag tagId newName newDescription now user s)).
Proof.
  intros Hwf. pose proof Hwf as [K I A GK GI GA]. unfold editTag.
  destruct (JsMap.get tagId (tags s)) as [l|] eqn:E; [|assumption].
  destruct (isTagNameExists s newName (Some tagId)); [assumption|].
  simpl. rewrite upd_same. simpl.
  assert (Hid : forall x,
    TagItem.id (upd (heap s) l
       (editedTag (heap s l) newName newDescription now user) x)
    = TagItem.id (heap s x)).
  { intros x. destruct (Nat.eq_dec x l) as [->|Hne].
    - now rewrite upd_same.
    - now rewrite upd_other. }
  constructor; unfold idOf in *; simpl; auto.
  - intros k l' H. rewrite Hid. now apply I.
  - now rewrite keys_modify.
  - intros k g H. apply In_modify in H.
    destruct H as [H|(-> & g0 & H & ->)]; [now apply GI|].
    destruct (findIndex _ (TagGroup.tags g0)); simpl; now apply GI.
  - intros k g l' H Hl. apply In_modify in H.
    destruct H as [H|(-> & g0 & H & ->)]; [eapply GA; eauto|].
    destruct (findIndex _ (TagGroup.tags g0)); simpl in Hl;
      [|eapply GA; eauto].
    apply In_setNth in Hl. destruct Hl as [->|Hl]; [|eapply GA; eauto].
    eapply A. eapply get_In. exact E.
Qed.

Lemma wf_createGroup newId name s :
  wf s -> wf (fst (createGroup newId name s)).
Proof.
  intros [K I A GK GI GA]. unfold createGroup. simpl.
  constructor; unfold idOf in *; simpl; auto.
  - now apply NoDup_keys_set.
  - intros k g H. apply In_set in H; [|assumption].
    destruct H as [[-> ->]|[_ H]]; [reflexivity | now apply GI].
  - intros k g l H Hl. apply In_set in H; [|assumption].
    destruct H as [[-> ->]|[_ H]]; [contradiction | eapply GA; eauto].
Qed.

Lemma In_fold_delete (V : Type) (ks : list string) (m : JsMap.t V) k v :
  In (k, v) (fold_left (fun m' k' => JsMap.delete k' m') ks m)
  <-> In (k, v) m /\ ~ In k ks.
Proof.
  revert m. induction ks as [|k0 ks IH]; intros m; simpl; [tauto|].
  rewrite IH, In_delete. split.
  - intros [[H Hne] Hn]. split; [assumption|]. intros [->|H']; auto.
  - intros [H Hn]. repeat split; auto.
Qed.

Lemma NoDup_keys_fold_delete (V : Type) (ks : list string) (m : JsMap.t V) :
  NoDup (JsMap.keys m) ->
  NoDup (JsMap.keys (fold_left (fun m' k' => JsMap.delete k' m') ks m)).
Proof.
  revert m. induction ks as [|k0 ks IH]; intros m ND; simpl; [assumption|].
  apply IH. now apply NoDup_keys_delete.
Qed.

Lemma removeGroup_tags s g :
  fold_left (fun m t => JsMap.delete (idOf s t) m) (TagGroup.tags g) (tags s)
  = fold_left (fun m' k' => JsMap.delete k' m')
              (map (idOf s) (TagGroup.tags g)) (tags s).
Proof.
  generalize (tags s). induction (TagGroup.tags g) as [|t ts IH];
    intros m; simpl; [reflexivity|]. apply IH.
Qed.

Lemma wf_removeGroup groupId s : wf s -> wf (fst (removeGroup groupId s)).
Proof.
  intros Hwf. pose proof Hwf as [K I A GK GI GA]. unfold removeGroup.
  destruct (JsMap.get groupId (groups s)) as [g|] eqn:E; [|assumption].
  simpl. rewrite removeGroup_tags.
  constructor; unfold idOf in *; simpl.
  - now apply NoDup_keys_fold_delete.
  - intros k l H. apply In_fold_delete in H. apply I. tauto.
  - intros k l H. apply In_fold_delete in H. eapply A. apply H.
  - now apply NoDup_keys_delete.
  - intros k g' H. apply In_delete in H. apply GI. tauto.
  - intros k g' l H Hl. apply In_delete in H. eapply GA; [apply H | exact Hl].
Qed.

Lemma wf_emptyStore : wf emptyStore.
Proof. constructor; simpl; try constructor; intros; contradiction. Qed.

Lemma wf_storeT2 : wf storeT2.
Proof.
  unfold storeT2, storeT1, storeA.
  repeat first [apply wf_addTag | apply wf_createGroup].
  apply wf_emptyStore.
Qed.

(** ** addTag *)

Lemma addTag_inv filePath tagName groupId description e choice s l :
  snd (addTag filePath tagName groupId description e choice s) = Some l ->
  isTagNameExists s tagName None = false
  /\ exists s1,
      ((s1 = s /\ getTagForFile s filePath = None)
       \/ exists existing,
           getTagForFile s filePath = Some existing
           /\ choice = ReplaceConfirmed
           /\ s1 = fst (removeTag (idOf s existing) s))
      /\ addTag filePath tagName groupId description e choice s
         = insertTag filePath tagName groupId description e s1
      /\ l = next s1.
Proof.
  unfold addTag.
  destruct (isTagNameExists s tagName None); [discriminate|].
  destruct (getTagForFile s filePath) as [existing|].
  - destruct choice; try discriminate. simpl. intros [= <-].
    split; [reflexivity|]. eexists. split; [right; eauto|]. auto.
  - simpl. intros [= <-]. split; [reflexivity|].
    exists s. split; [left; auto|]. auto.
Qed.


(** C3, as the code has it.  Let [s1] be the store in which the tag is
    created: the store of the call, or, when the tag of the file is
    replaced, that store after the [removeTag].  A successful [addTag]
    makes a tag whose [group] is the given id and files it under its own
    id; it creates and removes no group (the group map keeps its keys)
    and leaves every group other than the given one as it is in [s1].
    When the given id is a key of the group map, that group keeps its id
    and name and its array is the array of [s1] with the new tag appended
    at the end.  When it is not, the tag is made all the same, the group
    map is that of [s1], and the tag is in no array. *)
Theorem addTag_group :
  forall filePath tagName groupId description e choice s l,
    wf s ->
    snd (addTag filePath tagName groupId description e choice s) = Some l ->
    let s' := fst (addTag filePath tagName groupId description e choice s) in
    let s1 := match getTagForFile s filePath with
              | Some existing => fst (removeTag (idOf s existing) s)
              | None => s
              end in
    groupOf s' l = groupId
    /\ JsMap.get (env_id e) (tags s') = Some l
    /\ JsMap.keys (groups s') = JsMap.keys (groups s)
    /\ (forall k, k <> groupId ->
                  JsMap.get k (groups s') = JsMap.get k (groups s1))
    /\ (JsMap.get groupId (groups s) <> None ->
        exists g1,
          JsMap.get groupId (groups s1) = Some g1
          /\ JsMap.get groupId (groups s')
             = Some (TagGroup.mk (TagGroup.id g1) (TagGroup.name g1)
                                 (TagGroup.tags g1 ++ [l])))
    /\ (JsMap.get groupId (groups s) = None ->
        groups s' = groups s1
        /\ JsMap.get groupId (groups s') = None
        /\ forall k g, In (k, g) (groups s') -> ~ In l (TagGroup.tags g)).
Proof.
  intros filePath tagName groupId description e choice s l Hwf Hok s' s1.
  destruct (addTag_inv _ _ _ _ _ _ _ _ Hok) as (_ & s0 & Hs0 & Heq & ->).
  assert (Es : s0 = s1).
  { subst s1. destruct Hs0 as [[-> ->]|(x & -> & _ & ->)]; reflexivity. }
  subst s0. subst s'. rewrite Heq.
  assert (Hwf1 : wf s1).
  { destruct Hs0 as [[-> _]|(x & _ & _ & ->)];
      [assumption | now apply wf_removeTag]. }
  assert (Hkeys : JsMap.keys (groups s1) = JsMap.keys (groups s)).
  { destruct Hs0 as [[-> _]|(x & _ & _ & ->)]; [reflexivity|].
    now destruct (removeTag_heap s (idOf s x)) as (_ & _ & _ & ->). }
  assert (Hg : JsMap.get groupId (groups s1) = None
               <-> JsMap.get groupId (groups s) = None).
  { rewrite !get_None, Hkeys. tauto. }
  clearbody s1. clear Hs0 Heq Hok.
  unfold insertTag, groupOf. cbn [fst heap tags groups].
  rewrite upd_same. cbn [newTag TagItem.group].
  split; [reflexivity|]. split.
  { apply In_get; [apply NoDup_keys_set, (wf_keys Hwf1)|].
    apply In_set; [apply (wf_keys Hwf1) | now left]. }
  split; [now rewrite keys_modify|]. split.
  { intros k Hk. rewrite get_modify. apply String.eqb_neq in Hk.
    now rewrite Hk. }
  rewrite get_modify, String.eqb_refl. split.
  - intros Hex.
    destruct (JsMap.get groupId (groups s1)) as [g1|] eqn:E;
      [|exfalso; apply Hex; now apply Hg].
    exists g1. split; reflexivity.
  - intros Hno. apply Hg in Hno. rewrite Hno.
    destruct (modify_cases _ groupId
      (fun g0 => TagGroup.withTags g0 (TagGroup.tags g0 ++ [next s1]))
      (groups s1)) as [(m1 & v0 & m2 & _ & _ & Hget & _)|[_ Hm]];
      [congruence|].
    rewrite Hm. split; [reflexivity|]. split; [reflexivity|].
    intros k g Hin Hl. pose proof (wf_galloc Hwf1 _ _ _ Hin Hl). lia.
Qed.

Lemma addTag_group_witness :
  JsMap.get "group_A"
    (groups (fst (addTag "/f3.js" "T3" "group_A" None env3
                         ReplaceDismissed storeT2)))
  = Some (TagGroup.mk "group_A" "A" [0; 1; 2])
  /\ groups (fst (addTag "/f3.js" "T3" "group_B" None env3
                         ReplaceDismissed storeT2))
     = groups storeT2.
Proof.
  split.
  - destruct (addTag_group "/f3.js" "T3" "group_A" None env3 ReplaceDismissed
                storeT2 2 wf_storeT2 eq_refl)
      as (_ & _ & _ & _ & Hex & _).
    destruct Hex as (g1 & Hg1 & Hg'); [discriminate|].
    injection Hg1 as <-. exact Hg'.
  - apply (addTag_group "/f3.js" "T3" "group_B" None env3 ReplaceDismissed
             storeT2 2 wf_storeT2 eq_refl).
    reflexivity.
Defined.

(** C3 as stated fails: [addTag] with an id that is no key of the group
    map succeeds. *)
Lemma addTag_group_counterexample :
  ~ (forall filePath tagName groupId description e choice s l,
        wf s ->
        snd (addTag filePath tagName groupId description e choice s) = Some l ->
        exists g,
          JsMap.get groupId
            (groups (fst (addTag filePath tagName groupId description e
                                 choice s))) = Some g
          /\ In l (TagGroup.tags g)).
Proof.
  intros H.
  destruct (H "/f3.js" "T3" "group_B" None env3 ReplaceDismissed storeT2 2
              wf_storeT2 eq_refl) as (g & Hg & _).
  vm_compute in Hg. discriminate.
Qed.

(** ** Names stay distinct *)

Lemma isTagNameExists_None s tagName :
  isTagNameExists s tagName None = false
  <-> ~ In tagName (map (nameOf s) (JsMap.values (tags s))).
Proof.
  unfold isTagNameExists. rewrite <- not_true_iff_false, existsb_exists.
  rewrite in_map_iff. split; intros H [l Hl]; apply H; exists l.
  - destruct Hl as [<- Hin]. split; [assumption|]. simpl.
    now rewrite String.eqb_refl.
  - destruct Hl as [Hin Hl]. simpl in Hl. rewrite andb_true_r in Hl.
    str_eq. auto.
Qed.

Lemma NoDup_insert (A : Type) (a : A) (l1 l2 : list A) :
  NoDup (l1 ++ l2) -> ~ In a (l1 ++ l2) -> NoDup (l1 ++ a :: l2).
Proof.
  induction l1 as [|x l1 IH]; simpl; intros ND Hn.
  - now constructor.
  - inversion ND as [|? ? Hx ND']; subst. constructor.
    + rewrite in_app_iff in *. simpl. intros [H|[<-|H]]; tauto.
    + apply IH; tauto.
Qed.

Lemma NoDup_map_filter (A B : Type) (f : A -> B) (keep : A -> bool) xs :
  NoDup (map f xs) -> NoDup (map f (filter keep xs)).
Proof.
  intros ND. induction xs as [|x xs IH]; simpl in *; [constructor|].
  inversion ND as [|? ? Hx ND']; subst.
  destruct (keep x); simpl; [constructor|]; auto.
  rewrite in_map_iff in *. intros (y & E & Hy). apply Hx. exists y.
  apply filter_In in Hy. tauto.
Qed.

(** Changing [f] at one element [a] to a value that no other element has
    keeps the images distinct. *)
Lemma NoDup_map_replace (A B : Type) (f g : A -> B) (a : A) (l : list A) :
  NoDup (map f l) ->
  (forall x, In x l -> x <> a -> g x = f x) ->
  (forall x, In x l -> x <> a -> f x <> g a) ->
  (forall x, In x l -> x = a \/ x <> a) ->
  NoDup (map g l).
Proof.
  induction l as [|x l IH]; simpl; intros ND Hsame Hnew Hdec; [constructor|].
  inversion ND as [|? ? Hx ND']; subst. constructor.
  - rewrite in_map_iff. intros (y & E & Hy).
    assert (Hxy : y <> x).
    { intros ->. apply Hx. now apply in_map. }
    destruct (Hdec x (or_introl eq_refl)) as [->|Hxa].
    + rewrite (Hsame y) in E by auto. apply (Hnew y); auto.
    + rewrite (Hsame x) in E by auto.
      destruct (Hdec y (or_intror Hy)) as [->|Hya].
      * apply (Hnew x); auto.
      * rewrite (Hsame y) in E by auto. apply Hx. rewrite <- E.
        now apply in_map.
  - apply IH; auto.
Qed.

(** Distinctness of a field ([name], [filePath]) over the tags of the
    map, through [removeTag] and [insertTag]. *)
Section FieldDistinct.
Variable f : TagItem.t -> string.

Lemma distinct_removeTag s tagId :
  NoDup (map (fun l => f (heap s l)) (JsMap.values (tags s))) ->
  NoDup (map (fun l => f (heap (fst (removeTag tagId s)) l))
             (JsMap.values (tags (fst (removeTag tagId s))))).
Proof.
  destruct (removeTag_heap s tagId) as (-> & _ & -> & _).
  unfold JsMap.values, JsMap.delete. rewrite !map_map.
  apply NoDup_map_filter.
Qed.

Lemma free_removeTag s tagId n :
  ~ In n (map (fun l => f (heap s l)) (JsMap.values (tags s))) ->
  ~ In n (map (fun l => f (heap (fst (removeTag tagId s)) l))
              (JsMap.values (tags (fst (removeTag tagId s))))).
Proof.
  intros H H'. apply H.
  destruct (removeTag_heap s tagId) as (Hh & _ & Ht & _).
  rewrite Hh, Ht in H'. revert H'.
  unfold JsMap.values, JsMap.delete. rewrite !map_map, !in_map_iff.
  intros (x & E & Hx). exists x. apply filter_In in Hx. tauto.
Qed.

Lemma distinct_insertTag filePath tagName groupId description e s :
  wf s ->
  ~ In (f (newTag filePath tagName groupId description e))
       (map (fun l => f (heap s l)) (JsMap.values (tags s))) ->
  NoDup (map (fun l => f (heap s l)) (JsMap.values (tags s))) ->
  let s' := fst (insertTag filePath tagName groupId description e s) in
  NoDup (map (fun l => f (heap s' l)) (JsMap.values (tags s'))).
Proof.
  intros Hwf Hfree ND s'. subst s'. unfold insertTag. cbn [fst heap tags].
  set (h := upd (heap s) (next s) _).
  assert (Hold : forall vs,
    (forall x, In x vs -> In x (JsMap.values (tags s))) ->
    map (fun l => f (h l)) vs = map (fun l => f (heap s l)) vs).
  { intros vs Hvs. apply map_ext_in. intros x Hx. unfold h.
    rewrite upd_other; [reflexivity|]. apply Hvs in Hx.
    unfold JsMap.values in Hx. apply in_map_iff in Hx.
    destruct Hx as ([k x'] & E & Hx). simpl in E. subst.
    apply (wf_alloc Hwf) in Hx. lia. }
  assert (Hnew : h (next s) = newTag filePath tagName groupId description e).
  { unfold h. now rewrite upd_same. }
  destruct (set_cases _ (env_id e) (next s) (tags s))
    as [(m1 & v0 & m2 & Em & _ & ->)|[_ ->]]; unfold JsMap.values in *.
  - rewrite Em in *. rewrite !map_app in *. cbn [map snd] in *.
    rewrite Hnew.
    rewrite !Hold by (intros x Hx; rewrite in_app_iff; simpl; tauto).
    apply NoDup_insert.
    + now apply NoDup_remove_1 in ND.
    + intros H. apply Hfree. rewrite in_app_iff in *. simpl. tauto.
  - rewrite !map_app. cbn [map snd]. rewrite Hnew.
    rewrite Hold by auto. apply NoDup_insert; rewrite app_nil_r; assumption.
Qed.

Lemma distinct_removeGroup s groupId :
  NoDup (map (fun l => f (heap s l)) (JsMap.values (tags s))) ->
  NoDup (map (fun l => f (heap (fst (removeGroup groupId s)) l))
             (JsMap.values (tags (fst (removeGroup groupId s))))).
Proof.
  unfold removeGroup. destruct (JsMap.get groupId (groups s)) as [g|];
    [|auto].
  cbn [fst heap tags]. generalize (tags s).
  induction (TagGroup.tags g) as [|t ts IH]; intros m ND; simpl; [assumption|].
  apply IH. unfold JsMap.values, JsMap.delete in *. rewrite map_map in *.
  now apply NoDup_map_filter.
Qed.
End FieldDistinct.

Lemma namesDistinct_removeTag s tagId :
  namesDistinct s -> namesDistinct (fst (removeTag tagId s)).
Proof. apply (distinct_removeTag TagItem.name). Qed.

Lemma names_removeTag s tagId n :
  ~ In n (map (nameOf s) (JsMap.values (tags s))) ->
  ~ In n (map (nameOf (fst (removeTag tagId s)))
              (JsMap.values (tags (fst (removeTag tagId s))))).
Proof. apply (free_removeTag TagItem.name). Qed.

Lemma namesDistinct_insertTag filePath tagName groupId description e s :
  wf s ->
  ~ In tagName (map (nameOf s) (JsMap.values (tags s))) ->
  namesDistinct s ->
  namesDistinct (fst (insertTag filePath tagName groupId description e s)).
Proof. apply (distinct_insertTag TagItem.name). Qed.

Lemma namesDistinct_addTag filePath tagName groupId description e choice s :
  wf s -> namesDistinct s ->
  namesDistinct (fst (addTag filePath tagName groupId description e choice s)).
Proof.
  intros Hwf ND. unfold addTag.
  destruct (isTagNameExists s tagName None) eqn:En; [assumption|].
  apply isTagNameExists_None in En.
  destruct (getTagForFile s filePath) as [existing|].
  - destruct choice; try assumption.
    apply namesDistinct_insertTag.
    + now apply wf_removeTag.
    + now apply names_removeTag.
    + now apply namesDistinct_removeTag.
  - now apply namesDistinct_insertTag.
Qed.

Lemma namesDistinct_editTag tagId newName newDescription now user s :
  wf s -> namesDistinct s ->
  namesDistinct (fst (editTag tagId newName newDescription now user s)).
Proof.
  intros Hwf ND. unfold editTag.
  destruct (JsMap.get tagId (tags s)) as [l|] eqn:E; [|assumption].
  destruct (isTagNameExists s newName (Some tagId)) eqn:En; [assumption|].
  unfold namesDistinct, nameOf in *. cbn [fst heap tags].
  apply (NoDup_map_replace _ _ (fun x => TagItem.name (heap s x)) _ l);
    [assumption | | |].
  - intros x _ Hne. now rewrite upd_other.
  - intros x Hx Hne. rewrite upd_same. cbn. intros Hname.
    unfold isTagNameExists in En.
    rewrite <- not_true_iff_false, existsb_exists in En. apply En.
    exists x. split; [assumption|]. unfold nameOf. rewrite Hname.
    rewrite String.eqb_refl. simpl. apply negb_true_iff, String.eqb_neq.
    intros Hid. apply Hne.
    unfold JsMap.values in Hx. apply in_map_iff in Hx.
    destruct Hx as ([k x'] & Ex & Hx). simpl in Ex. subst x'.
    pose proof (wf_ids Hwf _ _ Hx) as Hk. rewrite Hid in Hk. subst k.
    apply get_In in E.
    exact (NoDup_keys_inj _ _ _ _ _ (wf_keys Hwf) Hx E).
  - intros x _. destruct (Nat.eq_dec x l); auto.
Qed.

(** C1: from a store with pairwise distinct tag names, every sequence of
    [addTag] and [editTag] calls, whatever each call's outcome, leads to a
    store with pairwise distinct tag names; and there an [addTag] with the
    name of an existing tag returns [null] and leaves the store, hence the
    number of tags, as it is. *)
Theorem names_stay_distinct :
  forall s ops,
    wf s -> namesDistinct s ->
    namesDistinct (run ops s)
    /\ forall filePath tagName groupId description e choice,
        In tagName (map (nameOf (run ops s)) (JsMap.values (tags (run ops s)))) ->
        addTag filePath tagName groupId description e choice (run ops s)
        = (run ops s, None)
        /\ JsMap.size
             (tags (fst (addTag filePath tagName groupId description e choice
                                (run ops s))))
           = JsMap.size (tags (run ops s)).
Proof.
  intros s ops Hwf ND. split.
  - revert s Hwf ND. induction ops as [|op ops IH]; intros s Hwf ND;
      [assumption|].
    simpl. apply IH.
    + destruct op; [apply wf_addTag | apply wf_editTag]; assumption.
    + destruct op;
        [apply namesDistinct_addTag | apply namesDistinct_editTag];
        assumption.
  - intros filePath tagName groupId description e choice Hin.
    assert (E : addTag filePath tagName groupId description e choice (run ops s)
                = (run ops s, None)).
    { unfold addTag.
      destruct (isTagNameExists (run ops s) tagName None) eqn:En;
        [reflexivity|].
      apply isTagNameExists_None in En. contradiction. }
    now rewrite E.
Qed.

Lemma namesDistinct_storeT2 : namesDistinct storeT2.
Proof.
  unfold storeT2, storeT1.
  repeat (apply namesDistinct_addTag;
          [repeat first [apply wf_addTag | apply wf_createGroup];
           apply wf_emptyStore|]).
  constructor.
Qed.

Lemma names_stay_distinct_witness :
  namesDistinct (run demoOps storeT2)
  /\ addTag "/f9.js" "Auth" "group_A" None env3 ReplaceConfirmed
            (run demoOps storeT2)
     = (run demoOps storeT2, None).
Proof.
  destruct (names_stay_distinct storeT2 demoOps wf_storeT2
              namesDistinct_storeT2) as [H1 H2].
  split; [exact H1|].
  apply (H2 "/f9.js" "Auth" "group_A" None env3 ReplaceConfirmed).
  vm_compute. auto.
Defined.

(** ** Replacing the tag of a file *)

Lemma filter_none (A : Type) (p : A -> bool) (l : list A) :
  (forall x, In x l -> p x = false) -> filter p l = [].
Proof.
  induction l as [|x l IH]; simpl; intros H; [reflexivity|].
  rewrite (H x) by auto. apply IH. auto.
Qed.

Lemma values_In (V : Type) (m : JsMap.t V) v :
  In v (JsMap.values m) <-> exists k, In (k, v) m.
Proof.
  unfold JsMap.values. rewrite in_map_iff. split.
  - intros ([k v'] & E & H). simpl in E. subst. now exists k.
  - intros [k H]. now exists (k, v).
Qed.

Lemma get_of_value s l :
  wf s -> In l (JsMap.values (tags s)) ->
  JsMap.get (idOf s l) (tags s) = Some l.
Proof.
  intros Hwf H. apply values_In in H. destruct H as [k H].
  rewrite (wf_ids Hwf _ _ H). apply In_get; [apply (wf_keys Hwf) | assumption].
Qed.

(** C2: when the file already has a tag and the name is free, so that the
    dialog is shown: on "replace" the old tag leaves the map and the array
    of its group, then the new tag is inserted, and [getTagsForFile] gives
    the new tag alone; on any other answer [addTag] returns [null] and the
    store is as before. *)
Theorem addTag_replace :
  forall filePath tagName groupId description e s existing,
    wf s -> pathsDistinct s ->
    isTagNameExists s tagName None = false ->
    getTagForFile s filePath = Some existing ->
    (let removed := fst (removeTag (idOf s existing) s) in
     let r := addTag filePath tagName groupId description e ReplaceConfirmed s in
     JsMap.get (idOf s existing) (tags removed) = None
     /\ (forall g,
           JsMap.get (groupOf s existing) (groups removed) = Some g ->
           ~ In (idOf s existing) (map (idOf removed) (TagGroup.tags g)))
     /\ r = insertTag filePath tagName groupId description e removed
     /\ snd r = Some (next s)
     /\ heap (fst r) (next s)
        = newTag filePath tagName groupId description e
     /\ getTagsForFile (fst r) filePath = [next s])
    /\ (forall choice,
          choice <> ReplaceConfirmed ->
          addTag filePath tagName groupId description e choice s = (s, None)).
Proof.
  intros filePath tagName groupId description e s existing Hwf PD Hfree Hex.
  pose proof Hex as Hfind. unfold getTagForFile in Hfind.
  apply find_some in Hfind. destruct Hfind as [Hin Hpath].
  cbv beta in Hpath. str_eq.
  pose proof (get_of_value s existing Hwf Hin) as Hget.
  split; [|intros choice Hc; unfold addTag; rewrite Hfree, Hex;
           destruct choice; [now elim Hc | reflexivity | reflexivity]].
  intros removed r. subst r. unfold addTag. rewrite Hfree, Hex.
  subst removed. rewrite (removeTag_found _ _ _ Hget). cbn [fst].
  set (oid := idOf s existing) in *.
  split; [apply get_delete|]. split.
  { intros g. cbn [groups]. rewrite get_modify, String.eqb_refl.
    destruct (JsMap.get (groupOf s existing) (groups s)) as [g0|];
      [|discriminate].
    cbn. intros [= <-]. cbn. rewrite in_map_iff. intros (x & Hx & Hf).
    apply filter_In in Hf. destruct Hf as [_ Hf]. unfold idOf in *.
    cbn in Hx. str_eq. contradiction. }
  split; [reflexivity|]. unfold insertTag. cbn [fst snd heap next tags].
  split; [reflexivity|]. split; [apply upd_same|].
  unfold getTagsForFile, pathOf. cbn [heap tags].
  set (h := upd (heap s) (next s) _).
  assert (Hnew : (TagItem.filePath (h (next s)) =? filePath) = true).
  { unfold h. rewrite upd_same. cbn. apply String.eqb_refl. }
  assert (Hold : forall k l,
    In (k, l) (JsMap.delete oid (tags s)) ->
    (TagItem.filePath (h l) =? filePath) = false).
  { intros k l H. apply In_delete in H. destruct H as [H Hne].
    unfold h. rewrite upd_other by (apply (wf_alloc Hwf) in H; lia).
    apply String.eqb_neq. intros Hp. apply Hne.
    assert (l = existing) as ->.
    { apply (NoDup_map_eq _ _ (pathOf s) (JsMap.values (tags s)));
        [exact PD | apply values_In; eauto | exact Hin |].
      unfold pathOf in *. congruence. }
    symmetry. apply (wf_ids Hwf _ _ H). }
  destruct (set_cases _ (env_id e) (next s) (JsMap.delete oid (tags s)))
    as [(m1 & v0 & m2 & Em & _ & ->)|[_ ->]]; unfold JsMap.values.
  - rewrite map_app, filter_app. cbn [map snd filter]. rewrite Hnew.
    rewrite !filter_none; [reflexivity | |].
    + intros x Hx. apply in_map_iff in Hx. destruct Hx as ([k x'] & <- & Hx).
      apply (Hold k). rewrite Em. apply in_app_iff. right. now right.
    + intros x Hx. apply in_map_iff in Hx. destruct Hx as ([k x'] & <- & Hx).
      apply (Hold k). rewrite Em. apply in_app_iff. now left.
  - rewrite map_app, filter_app. cbn [map snd filter]. rewrite Hnew.
    rewrite filter_none; [reflexivity|].
    intros x Hx. apply in_map_iff in Hx. destruct Hx as ([k x'] & <- & Hx).
    now apply (Hold k).
Qed.

Lemma pathsDistinct_storeT2 : pathsDistinct storeT2.
Proof.
  unfold pathsDistinct. vm_compute.
  repeat constructor; simpl; intuition discriminate.
Qed.

Lemma addTag_replace_witness :
  getTagsForFile
    (fst (addTag "/f1.js" "T2" "group_A" None env3 ReplaceConfirmed storeT2))
    "/f1.js" = [2]
  /\ addTag "/f1.js" "T2" "group_A" None env3 ReplaceCancelled storeT2
     = (storeT2, None).
Proof.
  destruct (addTag_replace "/f1.js" "T2" "group_A" None env3 storeT2 0
              wf_storeT2 pathsDistinct_storeT2 eq_refl eq_refl) as [H1 H2].
  split.
  - apply H1.
  - apply H2. discriminate.
Defined.

(** ** The group arrays stay in step with the map *)

Section GetFacts.
Variable V : Type.
Implicit Types (m : JsMap.t V) (k : string) (v : V).

Lemma get_delete_other k k' m :
  k' <> k -> JsMap.get k' (JsMap.delete k m) = JsMap.get k' m.
Proof.
  intros Hne. induction m as [|[k0 v0] m IH]; simpl; [reflexivity|].
  destruct (k0 =? k) eqn:E; simpl; str_eq.
  - subst. destruct (k =? k') eqn:E'; str_eq; [congruence | assumption].
  - now rewrite IH.
Qed.

Lemma get_set_other k k' v m :
  k' <> k -> JsMap.get k' (JsMap.set k v m) = JsMap.get k' m.
Proof.
  intros Hne. induction m as [|[k0 v0] m IH]; simpl.
  - destruct (k =? k') eqn:E; str_eq; [congruence | reflexivity].
  - destruct (k0 =? k) eqn:E; simpl; str_eq.
    + subst. destruct (k =? k') eqn:E'; str_eq; [congruence | reflexivity].
    + now rewrite IH.
Qed.

Lemma get_modify_Some k k' (f : V -> V) m v' :
  JsMap.get k' (JsMap.modify k f m) = Some v' ->
  (k' = k /\ exists v, JsMap.get k m = Some v /\ v' = f v)
  \/ (k' <> k /\ JsMap.get k' m = Some v').
Proof.
  rewrite get_modify. destruct (k' =? k) eqn:E; str_eq.
  - subst. destruct (JsMap.get k m) as [v|]; [|discriminate].
    simpl. intros [= <-]. left. eauto.
  - intros H. right. auto.
Qed.
End GetFacts.

Lemma synced_removeTag tagId s : synced s -> synced (fst (removeTag tagId s)).
Proof.
  intros Hs. unfold removeTag.
  destruct (JsMap.get tagId (tags s)) as [l0|] eqn:E; [|assumption].
  intros k l g. unfold groupOf, idOf. cbn [fst heap tags groups].
  intros Hin Hg. apply In_delete in Hin. destruct Hin as [Hin Hne].
  apply get_modify_Some in Hg.
  destruct Hg as [(Hk & g0 & Hg0 & ->)|[_ Hg]].
  - cbn. fold (groupOf s l) in Hk. rewrite <- Hk in Hg0.
    pose proof (Hs _ _ _ Hin Hg0) as Hmem.
    rewrite in_map_iff in *. destruct Hmem as (x & Hx & Hxin).
    exists x. split; [assumption|]. apply filter_In. split; [assumption|].
    apply negb_true_iff, String.eqb_neq. unfold idOf in *. congruence.
  - exact (Hs _ _ _ Hin Hg).
Qed.

Lemma synced_insertTag filePath tagName groupId description e s :
  wf s -> synced s ->
  synced (fst (insertTag filePath tagName groupId description e s)).
Proof.
  intros Hwf Hs k l g. unfold insertTag, groupOf, idOf.
  cbn [fst heap tags groups]. set (h := upd (heap s) (next s) _).
  assert (Hold : forall x, x < next s -> h x = heap s x).
  { intros x Hx. unfold h. apply upd_other. lia. }
  assert (Hids : forall k0 g0, In (k0, g0) (groups s) ->
    map (fun t => TagItem.id (h t)) (TagGroup.tags g0)
    = map (idOf s) (TagGroup.tags g0)).
  { intros k0 g0 Hg0. apply map_ext_in. intros x Hx. unfold idOf.
    rewrite Hold; [reflexivity|]. eapply (wf_galloc Hwf); eauto. }
  intros Hin Hg. apply In_set in Hin; [|apply (wf_keys Hwf)].
  destruct Hin as [[-> ->]|[Hne Hin]].
  - unfold h in Hg at 1. rewrite upd_same in Hg. cbn in Hg.
    apply get_modify_Some in Hg.
    destruct Hg as [(_ & g0 & Hg0 & ->)|[Hc _]]; [|congruence].
    cbn. rewrite map_app, in_app_iff. right. simpl. left.
    unfold h. now rewrite upd_same.
  - rewrite Hold in Hg by (eapply (wf_alloc Hwf); eauto).
    apply get_modify_Some in Hg.
    destruct Hg as [(Hk & g0 & Hg0 & ->)|[_ Hg]].
    + cbn. rewrite map_app, in_app_iff. left.
      rewrite (Hids groupId g0) by (now apply get_In).
      apply (Hs _ _ _ Hin). unfold groupOf. now rewrite Hk.
    + rewrite (Hids (TagItem.group (heap s l)) g) by (now apply get_In).
      exact (Hs _ _ _ Hin Hg).
Qed.

Lemma synced_addTag filePath tagName groupId description e choice s :
  wf s -> synced s ->
  synced (fst (addTag filePath tagName groupId description e choice s)).
Proof.
  intros Hwf Hs. unfold addTag.
  destruct (isTagNameExists s tagName None); [assumption|].
  destruct (getTagForFile s filePath) as [existing|].
  - destruct choice; try assumption.
    apply synced_insertTag; [now apply wf_removeTag | now apply synced_removeTag].
  - now apply synced_insertTag.
Qed.

Lemma map_setNth (A B : Type) (f : A -> B) (p : A -> bool) xs i x :
  findIndex p xs = Some i ->
  (forall y, p y = true -> f y = f x) ->
  map f (setNth i x xs) = map f xs.
Proof.
  revert i. induction xs as [|y xs IH]; intros i; simpl; [discriminate|].
  intros Hi Hp. destruct (p y) eqn:E.
  - injection Hi as <-. simpl. f_equal. symmetry. now apply Hp.
  - destruct (findIndex p xs) as [j|]; [|discriminate].
    injection Hi as <-. simpl. f_equal. now apply IH.
Qed.

Lemma synced_editTag tagId newName newDescription now user s :
  wf s -> synced s ->
  synced (fst (editTag tagId newName newDescription now user s)).
Proof.
  intros Hwf Hs. unfold editTag.
  destruct (JsMap.get tagId (tags s)) as [l0|] eqn:E; [|assumption].
  destruct (isTagNameExists s newName (Some tagId)); [assumption|].
  intros k l g. unfold groupOf, idOf. cbn [fst heap tags groups].
  rewrite upd_same. cbn [editedTag TagItem.group].
  set (h := upd (heap s) l0 _).
  assert (Hid : forall x, TagItem.id (h x) = TagItem.id (heap s x)).
  { intros x. unfold h. destruct (Nat.eq_dec x l0) as [->|Hne].
    - now rewrite upd_same.
    - now rewrite upd_other. }
  assert (Hgr : forall x, TagItem.group (h x) = TagItem.group (heap s x)).
  { intros x. unfold h. destruct (Nat.eq_dec x l0) as [->|Hne].
    - now rewrite upd_same.
    - now rewrite upd_other. }
  assert (Hl0 : TagItem.id (h l0) = tagId).
  { rewrite Hid. apply (wf_ids Hwf). now apply get_In. }
  intros Hin Hg. rewrite Hgr in Hg. apply get_modify_Some in Hg.
  destruct Hg as [(Hk & g0 & Hg0 & ->)|[_ Hg]].
  - assert (Hmem : In k (map (fun t => TagItem.id (h t)) (TagGroup.tags g0))).
    { rewrite (map_ext _ _ Hid). apply (Hs _ _ _ Hin).
      unfold groupOf. now rewrite Hk. }
    destruct (findIndex _ (TagGroup.tags g0)) as [i|] eqn:Ei; [|exact Hmem].
    cbn. erewrite map_setNth; [exact Hmem | exact Ei |].
    intros y Hy. cbv beta in Hy. str_eq. congruence.
  - rewrite (map_ext _ _ Hid). exact (Hs _ _ _ Hin Hg).
Qed.

Lemma synced_removeGroup groupId s :
  synced s -> synced (fst (removeGroup groupId s)).
Proof.
  intros Hs. unfold removeGroup.
  destruct (JsMap.get groupId (groups s)) as [g0|] eqn:E; [|assumption].
  intros k l g. cbn [fst tags groups]. rewrite removeGroup_tags.
  unfold groupOf. change (idOf _) with (idOf s) at 2. cbn [heap].
  intros Hin Hg. apply In_fold_delete in Hin. destruct Hin as [Hin Hn].
  destruct (string_dec (TagItem.group (heap s l)) groupId) as [Heq|Hne].
  - rewrite Heq, get_delete in Hg. discriminate.
  - rewrite get_delete_other in Hg by assumption. exact (Hs _ _ _ Hin Hg).
Qed.

Lemma synced_createGroup newId name s :
  freshGroupId s newId -> synced s -> synced (fst (createGroup newId name s)).
Proof.
  intros [_ Hfresh] Hs k l g. unfold createGroup, groupOf, idOf.
  cbn [fst heap tags groups]. intros Hin Hg.
  rewrite get_set_other in Hg by (apply (Hfresh _ _ Hin)).
  exact (Hs _ _ _ Hin Hg).
Qed.

Lemma synced_storeT2 : synced storeT2.
Proof.
  unfold storeT2, storeT1.
  repeat (apply synced_addTag;
          [repeat first [apply wf_addTag | apply wf_createGroup];
           apply wf_emptyStore|]).
  intros k l g [].
Qed.

(** ** removeGroup *)

(** C4: for a group id in the group map, [removeGroup] returns [true];
    it deletes from the tag map every tag of the group's array and nothing
    else, then the group; in a store whose arrays agree with the map this
    takes away every tag whose [group] is that id, so that no tag left in
    the map names the deleted group. *)
Theorem removeGroup_cascade :
  forall s groupId g,
    synced s ->
    JsMap.get groupId (groups s) = Some g ->
    let s' := fst (removeGroup groupId s) in
    snd (removeGroup groupId s) = true
    /\ (forall t, In t (TagGroup.tags g) ->
                  JsMap.get (idOf s t) (tags s') = None)
    /\ (forall k l, In (k, l) (tags s') <->
                    In (k, l) (tags s)
                    /\ ~ In k (map (idOf s) (TagGroup.tags g)))
    /\ (forall k l, In (k, l) (tags s) -> groupOf s l = groupId ->
                    JsMap.get k (tags s') = None)
    /\ JsMap.get groupId (groups s') = None
    /\ (forall k l, In (k, l) (tags s') -> groupOf s' l <> groupId).
Proof.
  intros s groupId g Hs Hg s'. subst s'. unfold removeGroup. rewrite Hg.
  cbn [fst snd tags groups]. rewrite removeGroup_tags.
  assert (Hgone : forall k, In k (map (idOf s) (TagGroup.tags g)) ->
    JsMap.get k (fold_left (fun m' k' => JsMap.delete k' m')
                   (map (idOf s) (TagGroup.tags g)) (tags s)) = None).
  { intros k Hk. apply get_None. intros Hin. apply keys_In in Hin.
    destruct Hin as [v Hin]. apply In_fold_delete in Hin. tauto. }
  split; [reflexivity|]. split.
  { intros t Ht. apply Hgone. now apply in_map. }
  split; [intros k l; apply In_fold_delete|]. split.
  { intros k l Hin Hgr. apply Hgone. apply (Hs _ _ _ Hin). now rewrite Hgr. }
  split; [apply get_delete|].
  intros k l Hin Hgr. apply In_fold_delete in Hin. destruct Hin as [Hin Hn].
  apply Hn. apply (Hs _ _ _ Hin). unfold groupOf in *. cbn [heap] in Hgr.
  now rewrite Hgr.
Qed.

Lemma removeGroup_cascade_witness :
  JsMap.get "group_A" (groups (fst (removeGroup "group_A" storeT2))) = None
  /\ forall k l, In (k, l) (tags (fst (removeGroup "group_A" storeT2))) ->
                 groupOf (fst (removeGroup "group_A" storeT2)) l <> "group_A".
Proof.
  exact (proj2 (proj2 (proj2 (proj2
    (removeGroup_cascade storeT2 "group_A"
       (TagGroup.mk "group_A" "A" [0; 1]) synced_storeT2 eq_refl))))).
Defined.

(** ** searchTags *)

Lemma prefix_spec q : forall s,
  prefix q s = true <-> exists post, s = (q ++ post)%string.
Proof.
  induction q as [|a q IH]; intros s; simpl.
  - destruct s; split; eauto.
  - destruct s as [|b s]; simpl.
    + split; [discriminate | intros [post H]; discriminate].
    + destruct (ascii_dec a b) as [->|Hne].
      * rewrite IH. split; intros [post H]; exists post; congruence.
      * split; [discriminate | intros [post H]; congruence].
Qed.

Lemma includes_spec s : forall q,
  includes s q = true <-> exists pre post, s = (pre ++ q ++ post)%string.
Proof.
  induction s as [|c s IH]; intros q; cbn [includes].
  - rewrite orb_false_r, prefix_spec. split.
    + intros [post H]. now exists EmptyString, post.
    + intros (pre & post & H). destruct pre; [now exists post|discriminate].
  - rewrite orb_true_iff, prefix_spec, IH. split.
    + intros [[post H]|(pre & post & H)].
      * now exists EmptyString, post.
      * exists (String c pre), post. simpl. congruence.
    + intros (pre & post & H). destruct pre as [|c' pre]; simpl in H.
      * left. now exists post.
      * right. exists pre, post. congruence.
Qed.

Lemma matchesQuery_spec toLowerCase basename q tag :
  matchesQuery toLowerCase basename (toLowerCase q) tag = true
  <-> matchesSpec toLowerCase basename q tag.
Proof.
  unfold matchesQuery, matchesSpec, containsCI.
  rewrite !orb_true_iff, !includes_spec.
  destruct (TagItem.description tag) as [d|].
  - rewrite includes_spec. split.
    + intros [[H|H]|H]; auto. right. left. exists d. auto.
    + intros [H|[(d' & [= <-] & H)|H]]; auto.
  - split.
    + intros [[H|H]|H]; auto. discriminate.
    + intros [H|[(d' & Hd & _)|H]]; auto. discriminate.
Qed.

Lemma subseq_filter (A : Type) (p : A -> bool) (l : list A) :
  subseq (filter p l) l.
Proof.
  induction l as [|x l IH]; simpl; [constructor|].
  destruct (p x); now constructor.
Qed.

(** C6: whatever the store and the query, [searchTags] returns the tags of
    the map whose name, description or file basename contains the query
    when both are put in lower case, returns no other, and returns them in
    the order in which the map holds them. *)
Theorem searchTags_spec :
  forall (toLowerCase basename : string -> string) q s,
    (forall l,
        In l (searchTags toLowerCase basename q s) <->
        In l (JsMap.values (tags s))
        /\ matchesSpec toLowerCase basename q (heap s l))
    /\ subseq (searchTags toLowerCase basename q s) (JsMap.values (tags s)).
Proof.
  intros toLowerCase basename q s. unfold searchTags. split.
  - intros l. rewrite filter_In, matchesQuery_spec. tauto.
  - apply subseq_filter.
Qed.

Example searchTags_login :
  searchTags asciiToLowerCase posixBasename "LOGIN" storeT2 = [1]
  /\ searchTags asciiToLowerCase posixBasename "t" storeT2 = [0; 1]
  /\ searchTags asciiToLowerCase posixBasename "src" storeT2 = []
  /\ searchTags asciiToLowerCase posixBasename "" storeT2 = [0; 1].
Proof. repeat split. Qed.

(** ** cleanupInvalidTags *)

Lemma subseq_In (A : Type) (l1 l2 : list A) x :
  subseq l1 l2 -> In x l1 -> In x l2.
Proof.
  induction 1 as [|y l1 l2 _ IH|y l1 l2 _ IH]; simpl; auto.
  intros [->|H]; auto.
Qed.

Lemma subseq_NoDup (A : Type) (l1 l2 : list A) :
  subseq l1 l2 -> NoDup l2 -> NoDup l1.
Proof.
  induction 1 as [|y l1 l2 _ IH|y l1 l2 Hs IH]; intros ND; auto;
    inversion ND as [|? ? Hn ND']; subst; auto.
  constructor; auto. intros Hin. apply Hn. eapply subseq_In; eauto.
Qed.

Lemma subseq_confirmed answers invalidTags :
  forall i, subseq (confirmed answers i invalidTags) invalidTags.
Proof.
  induction invalidTags as [|t rest IH]; intros i; simpl; [constructor|].
  destruct (answers i); try (apply subseq_skip, IH).
  - apply subseq_keep, IH.
  - clear IH. apply subseq_skip.
    induction rest; [constructor | now apply subseq_skip].
Qed.

Lemma NoDup_values s : wf s -> NoDup (JsMap.values (tags s)).
Proof.
  intros Hwf. pose proof (wf_keys Hwf) as K. pose proof (wf_ids Hwf) as I.
  revert K I. generalize (tags s). intros m.
  induction m as [|[k l] m IH]; simpl; intros K I; [constructor|].
  inversion K as [|? ? Hn K']; subst. constructor.
  - intros Hin. apply values_In in Hin. destruct Hin as [k' Hin].
    apply Hn. rewrite <- (I k l) by auto. rewrite (I k' l) by auto.
    eapply In_keys; eauto.
  - apply IH; auto.
Qed.

Lemma size_delete_present (V : Type) k (m : JsMap.t V) :
  NoDup (JsMap.keys m) -> In k (JsMap.keys m) ->
  S (JsMap.size (JsMap.delete k m)) = JsMap.size m.
Proof.
  induction m as [|[k' v] m IH]; simpl; intros ND Hin; [contradiction|].
  inversion ND as [|? ? Hn ND']; subst.
  destruct (k' =? k) eqn:E; simpl; str_eq.
  - subst. f_equal. change (filter _ m) with (JsMap.delete k m).
    now rewrite delete_absent.
  - f_equal. apply IH; [assumption|]. destruct Hin; [contradiction|assumption].
Qed.

Lemma values_delete_value s t :
  wf s -> In t (JsMap.values (tags s)) ->
  JsMap.values (JsMap.delete (idOf s t) (tags s))
  = filter (fun l => negb (Nat.eqb l t)) (JsMap.values (tags s)).
Proof.
  intros Hwf Hin.
  assert (Hkey : forall k l, In (k, l) (tags s) ->
            (k =? idOf s t) = Nat.eqb l t).
  { intros k l H. destruct (Nat.eqb l t) eqn:E.
    - apply Nat.eqb_eq in E. subst. apply String.eqb_eq.
      symmetry. now apply (wf_ids Hwf).
    - apply Nat.eqb_neq in E. apply String.eqb_neq. intros ->. apply E.
      apply get_of_value in Hin; [|assumption]. apply get_In in Hin.
      exact (NoDup_keys_inj _ _ _ _ _ (wf_keys Hwf) H Hin). }
  revert Hkey. generalize (tags s). intros m.
  induction m as [|[k l] m IH]; simpl; intros Hkey; [reflexivity|].
  rewrite (Hkey k l) by auto.
  destruct (Nat.eqb l t); simpl; [|f_equal]; apply IH; auto.
Qed.

Lemma filter_twice (A : Type) (p q : A -> bool) (l : list A) :
  filter p (filter q l) = filter (fun x => q x && p x) l.
Proof.
  induction l as [|x l IH]; simpl; [reflexivity|].
  destruct (q x); simpl; [destruct (p x)|]; now rewrite IH.
Qed.

Lemma removeAll_spec removed : forall s,
  wf s -> NoDup removed ->
  (forall t, In t removed -> In t (JsMap.values (tags s))) ->
  wf (removeAll removed s)
  /\ heap (removeAll removed s) = heap s
  /\ JsMap.values (tags (removeAll removed s))
     = filter (fun l => negb (existsb (Nat.eqb l) removed))
              (JsMap.values (tags s))
  /\ JsMap.size (tags (removeAll removed s)) + List.length removed
     = JsMap.size (tags s).
Proof.
  induction removed as [|t removed IH]; intros s Hwf ND Hsub.
  - cbn. split; [assumption|]. split; [reflexivity|]. split; [|lia].
    symmetry. apply forallb_filter_id. apply forallb_forall. auto.
  - inversion ND as [|? ? Hn ND']; subst.
    change (removeAll (t :: removed) s)
      with (removeAll removed (fst (removeTag (idOf s t) s))).
    set (s1 := fst (removeTag (idOf s t) s)).
    destruct (removeTag_heap s (idOf s t)) as (Hh & _ & Ht & _). fold s1 in Hh, Ht.
    assert (Hin : In t (JsMap.values (tags s))) by (apply Hsub; now left).
    assert (Hv1 : JsMap.values (tags s1)
                  = filter (fun l => negb (Nat.eqb l t)) (JsMap.values (tags s))).
    { rewrite Ht. now apply values_delete_value. }
    destruct (IH s1) as (W & H1 & H2 & H3); [now apply wf_removeTag | exact ND' | |].
    { intros t' Ht'. rewrite Hv1. apply filter_In. split; [apply Hsub; now right|].
      apply negb_true_iff, Nat.eqb_neq. intros ->. contradiction. }
    split; [exact W|]. split; [congruence|]. split.
    + rewrite H2, Hv1, filter_twice. apply filter_ext. intros l. simpl.
      now rewrite negb_orb.
    + simpl. rewrite <- (size_delete_present _ (idOf s t) (tags s)).
      * rewrite <- Ht. lia.
      * apply (wf_keys Hwf).
      * apply get_of_value in Hin; [|assumption]. apply get_In in Hin.
        eapply In_keys; eauto.
Qed.

Lemma confirmLoop_spec answers invalidTags : forall i deletedCount s,
  cr_store (confirmLoop answers i invalidTags deletedCount s)
  = removeAll (confirmed answers i invalidTags) s
  /\ cr_count (confirmLoop answers i invalidTags deletedCount s)
     = deletedCount + List.length (confirmed answers i invalidTags).
Proof.
  induction invalidTags as [|t rest IH]; intros i d s; simpl.
  - split; [reflexivity | lia].
  - destruct (answers i); simpl; try apply IH.
    + destruct (IH (S i) (S d) (fst (removeTag (idOf s t) s))) as [-> ->].
      split; [reflexivity | lia].
    + split; [reflexivity | lia].
Qed.

(** Up to a first "cancel" at dialog [j], what is removed lies among the
    first [j] invalid tags and is counted by the "delete" answers. *)
Lemma confirmed_until_cancel answers : forall invalidTags i j,
  answers (i + j) = ConfirmCancel ->
  (forall m, m < j -> answers (i + m) <> ConfirmCancel) ->
  j < List.length invalidTags ->
  confirmed answers i invalidTags = confirmed answers i (firstn j invalidTags)
  /\ subseq (confirmed answers i invalidTags) (firstn j invalidTags)
  /\ List.length (confirmed answers i invalidTags)
     = List.length
         (filter (fun m => match answers m with
                           | ConfirmDelete => true
                           | _ => false
                           end) (seq i j)).
Proof.
  induction invalidTags as [|t rest IH]; intros i j Hc Hbefore Hj;
    simpl in Hj; [lia|].
  destruct j as [|j].
  - rewrite Nat.add_0_r in Hc. simpl. rewrite Hc. repeat split. constructor.
  - assert (Hi : answers i <> ConfirmCancel).
    { specialize (Hbefore 0). rewrite Nat.add_0_r in Hbefore.
      apply Hbefore. lia. }
    destruct (IH (S i) j) as (E1 & E2 & E3).
    + now rewrite Nat.add_succ_comm.
    + intros m Hm. rewrite Nat.add_succ_comm. apply Hbefore. lia.
    + lia.
    + cbn [firstn confirmed seq filter].
      destruct (answers i); try contradiction; cbn [List.length].
      * repeat split; [now f_equal | now constructor | now f_equal].
      * repeat split; [assumption | now constructor | assumption].
      * repeat split; [assumption | now constructor | assumption].
Qed.

Lemma existsb_filter_mem (q : loc -> bool) (vs : list loc) l :
  In l vs -> existsb (Nat.eqb l) (filter q vs) = q l.
Proof.
  intros Hin. destruct (q l) eqn:E.
  - apply existsb_exists. exists l. rewrite filter_In, Nat.eqb_refl. auto.
  - apply not_true_iff_false. rewrite existsb_exists.
    intros (x & Hx & Heq). apply Nat.eqb_eq in Heq. subst x.
    apply filter_In in Hx. destruct Hx as [_ Hx]. congruence.
Qed.

(** C9: with no invalid tag [cleanupInvalidTags] returns 0, shows no
    dialog and leaves the store alone.  With [n >= 1] invalid tags: on
    "delete all" it returns [n] and the map keeps exactly the tags whose
    file exists; on "cancel" (or the dialog closed) it returns 0 and the
    store is as before; on "one by one" it returns the number of tags it
    removed, which are the tags answered "delete" before a first
    "cancel", and after a "cancel" at dialog [j] no tag from position [j]
    on is touched. *)
Theorem cleanupInvalidTags_spec :
  forall existsSync answers s,
    wf s ->
    let invalid := invalidTagsOf existsSync s in
    let n := List.length invalid in
    (n = 0 ->
     forall choice,
       cleanupInvalidTags existsSync choice answers s = mkCleanup s 0 0)
    /\ (1 <= n ->
        (let r := cleanupInvalidTags existsSync DeleteAll answers s in
         cr_count r = n
         /\ cr_prompts r = 1
         /\ JsMap.values (tags (cr_store r))
            = filter (fun l => existsSync (pathOf s l)) (JsMap.values (tags s))
         /\ JsMap.size (tags (cr_store r)) + n = JsMap.size (tags s))
        /\ cleanupInvalidTags existsSync CleanupCancelled answers s
           = mkCleanup s 0 1
        /\ cleanupInvalidTags existsSync CleanupDismissed answers s
           = mkCleanup s 0 1
        /\ (let r := cleanupInvalidTags existsSync ConfirmEach answers s in
            let removed := confirmed answers 0 invalid in
            cr_count r = List.length removed
            /\ JsMap.values (tags (cr_store r))
               = filter (fun l => negb (existsb (Nat.eqb l) removed))
                        (JsMap.values (tags s))
            /\ JsMap.size (tags (cr_store r)) + cr_count r
               = JsMap.size (tags s)
            /\ forall j,
                j < n -> answers j = ConfirmCancel ->
                (forall i, i < j -> answers i <> ConfirmCancel) ->
                subseq removed (firstn j invalid)
                /\ cr_count r
                   = List.length
                       (filter (fun m => match answers m with
                                         | ConfirmDelete => true
                                         | _ => false
                                         end) (seq 0 j)))).
Proof.
  intros existsSync answers s Hwf. cbv zeta.
  remember (invalidTagsOf existsSync s) as invalid eqn:Einv0.
  assert (Hsub : forall t, In t invalid -> In t (JsMap.values (tags s))).
  { intros t Ht. subst invalid. apply filter_In in Ht. tauto. }
  assert (HND : NoDup invalid).
  { subst invalid. apply NoDup_filter. now apply NoDup_values. }
  unfold cleanupInvalidTags. rewrite <- Einv0.
  split.
  { intros Hn choice. destruct invalid; [reflexivity | discriminate]. }
  intros Hn.
  destruct invalid as [|t0 rest] eqn:Einv; [simpl in Hn; lia|].
  rewrite <- Einv in *. clear Hn.
  split; [|split; [reflexivity|split; [reflexivity|]]].
  - cbn [cr_count cr_prompts cr_store].
    destruct (removeAll_spec invalid s Hwf HND Hsub) as (_ & _ & Hv & Hsz).
    repeat split; auto. rewrite Hv. apply filter_ext_in. intros l Hl.
    rewrite Einv0. unfold invalidTagsOf.
    rewrite existsb_filter_mem by assumption. apply negb_involutive.
  - destruct (confirmLoop_spec answers invalid 0 0 s) as [Hst Hct].
    rewrite Hst, Hct. cbn [Nat.add].
    pose proof (subseq_confirmed answers invalid 0) as Hss.
    destruct (removeAll_spec (confirmed answers 0 invalid) s Hwf)
      as (_ & _ & Hv & Hsz).
    { eapply subseq_NoDup; eauto. }
    { intros t Ht. apply Hsub. eapply subseq_In; eauto. }
    repeat split; auto.
    + destruct (confirmed_until_cancel answers invalid 0 j) as (_ & E & _);
        auto.
    + destruct (confirmed_until_cancel answers invalid 0 j) as (_ & _ & E);
        auto.
Qed.

Lemma cleanupInvalidTags_spec_witness :
  (forall choice,
      cleanupInvalidTags (fun _ => true) choice (fun _ => ConfirmDelete) storeT2
      = mkCleanup storeT2 0 0)
  /\ cr_count (cleanupInvalidTags (fun p => p =? "/f1.js") DeleteAll
                 (fun _ => ConfirmKeep) storeT2) = 1.
Proof.
  split.
  - exact (proj1 (cleanupInvalidTags_spec (fun _ => true)
                    (fun _ => ConfirmDelete) storeT2 wf_storeT2) eq_refl).
  - exact (proj1 (proj1 (proj2 (cleanupInvalidTags_spec
                    (fun p => p =? "/f1.js") (fun _ => ConfirmKeep) storeT2
                    wf_storeT2) (le_n 1)))).
Defined.

Example cleanup_one_by_one :
  let r := cleanupInvalidTags (fun _ => false) ConfirmEach
             (fun i => match i with
                       | 0 => ConfirmDelete
                       | _ => ConfirmCancel
                       end) storeT2 in
  cr_count r = 1 /\ JsMap.keys (tags (cr_store r)) = ["2_b"]
  /\ cr_prompts r = 3.
Proof. repeat split. Qed.

(** ** Saving and loading *)

Lemma allocList_spec ts : forall h n h' n' ls,
  allocList ts h n = (h', n', ls) ->
  n' = n + List.length ts
  /\ (forall x, x < n -> h' x = h x)
  /\ (forall x, In x ls -> n <= x < n')
  /\ map h' ls = ts.
Proof.
  induction ts as [|t ts IH]; intros h n h' n' ls; simpl.
  - intros [= <- <- <-].
    split; [lia|]. split; [auto|]. split; [intros x []|reflexivity].
  - destruct (allocList ts (upd h n t) (S n)) as [[h1 n1] ls1] eqn:E.
    intros [= <- <- <-]. destruct (IH _ _ _ _ _ E) as (-> & Hold & Hin & Hmap).
    split; [lia|]. split; [|split].
    + intros x Hx. rewrite Hold by lia. apply upd_other. lia.
    + intros x [<-|Hx]; [lia|]. apply Hin in Hx. lia.
    + simpl. rewrite Hmap, Hold by lia. now rewrite upd_same.
Qed.

Lemma allocGroups_spec gs : forall h n h' n' gls,
  allocGroups gs h n = (h', n', gls) ->
  n <= n'
  /\ (forall x, x < n -> h' x = h x)
  /\ map (fun g => GroupJson.mk (TagGroup.id g) (TagGroup.name g)
                                (map h' (TagGroup.tags g))) gls = gs.
Proof.
  induction gs as [|g gs IH]; intros h n h' n' gls; simpl.
  - intros [= <- <- <-]. repeat split; auto.
  - destruct (allocList (GroupJson.tags g) h n) as [[h1 n1] ls] eqn:E1.
    destruct (allocGroups gs h1 n1) as [[h2 n2] rest] eqn:E2.
    intros [= <- <- <-].
    destruct (allocList_spec _ _ _ _ _ _ E1) as (-> & Hold1 & Hin1 & Hmap1).
    destruct (IH _ _ _ _ _ E2) as (Hle & Hold2 & Hmap2).
    split; [lia|]. split.
    + intros x Hx. rewrite Hold2 by lia. now apply Hold1.
    + simpl. rewrite Hmap2. f_equal.
      rewrite (map_ext_in h2 h1), Hmap1; [now destruct g|].
      intros x Hx. apply Hold2. apply Hin1 in Hx. lia.
Qed.

Lemma set_absent (V : Type) k (v : V) m :
  ~ In k (JsMap.keys m) -> JsMap.set k v m = m ++ [(k, v)].
Proof.
  intros Hn.
  destruct (set_cases V k v m) as [(m1 & v0 & m2 & -> & _ & _)|[_ E]];
    [|exact E].
  exfalso. apply Hn. unfold JsMap.keys. rewrite map_app, in_app_iff.
  right. now left.
Qed.

(** Setting pairwise distinct new keys one after the other appends the
    entries in that order. *)
Lemma fold_set_distinct (V E : Type) (key : E -> string) (val : E -> V) es :
  forall m,
    NoDup (JsMap.keys m ++ map key es) ->
    fold_left (fun m' e => JsMap.set (key e) (val e) m') es m
    = m ++ map (fun e => (key e, val e)) es.
Proof.
  induction es as [|e es IH]; intros m ND; simpl.
  - now rewrite app_nil_r.
  - rewrite set_absent.
    + rewrite IH.
      * now rewrite <- app_assoc.
      * unfold JsMap.keys in *. rewrite map_app. simpl.
        now rewrite <- app_assoc.
    + apply NoDup_remove_2 in ND. rewrite in_app_iff in ND. tauto.
Qed.

Lemma map_combine_alloc (A B : Type) (h : loc -> A) (F : A -> A -> B) ls :
  forall ts,
    map h ls = ts ->
    map (fun tl => F (fst tl) (h (snd tl))) (combine ts ls)
    = map (fun t => F t t) ts.
Proof.
  induction ls as [|l ls IH]; intros ts <-; simpl; [reflexivity|].
  f_equal. now apply IH.
Qed.

Lemma keys_combine_alloc (A : Type) (h : loc -> A) (key : A -> string) ls :
  forall ts,
    map h ls = ts -> map (fun tl => key (fst tl)) (combine ts ls) = map key ts.
Proof.
  induction ls as [|l ls IH]; intros ts <-; simpl; [reflexivity|].
  f_equal. now apply IH.
Qed.

(** What [loadFromWorkspace] builds from the snapshot of a store, before
    it looks whether a default group is needed. *)
Lemma load_views now s0 s :
  wf s ->
  let data := saveToWorkspace now s in
  forall h1 n1 tls h2 n2 gls,
    allocList (TagDatabase.tags data) (heap s0) (next s0) = (h1, n1, tls) ->
    allocGroups (TagDatabase.groups data) h1 n1 = (h2, n2, gls) ->
    let tags' :=
      fold_left (fun m tl => JsMap.set (TagItem.id (fst tl)) (snd tl) m)
                (combine (TagDatabase.tags data) tls) (JsMap.empty loc) in
    let groups' :=
      fold_left (fun m g => JsMap.set (TagGroup.id g) g m) gls
                (JsMap.empty TagGroup.t) in
    tagsView (mkTM h2 n2 tags' groups') = tagsView s
    /\ groupsView (mkTM h2 n2 tags' groups') = groupsView s
    /\ JsMap.size groups' = JsMap.size (groups s).
Proof.
  intros Hwf data h1 n1 tls h2 n2 gls E1 E2 tags' groups'.
  destruct (allocList_spec _ _ _ _ _ _ E1) as (_ & _ & Hin1 & Hmap1).
  destruct (allocGroups_spec _ _ _ _ _ _ E2) as (_ & Hold2 & Hmap2).
  assert (Hmap : map h2 tls = TagDatabase.tags data).
  { rewrite <- Hmap1. apply map_ext_in. intros x Hx. apply Hold2.
    apply Hin1 in Hx. lia. }
  assert (Hkeys : map (TagItem.id) (TagDatabase.tags data) = JsMap.keys (tags s)).
  { unfold data, saveToWorkspace, JsMap.values, JsMap.keys.
    cbn [TagDatabase.tags]. rewrite !map_map. apply map_ext_in.
    intros [k l] H. apply (wf_ids Hwf _ _ H). }
  assert (Hgkeys : map TagGroup.id gls = JsMap.keys (groups s)).
  { transitivity (map GroupJson.id (TagDatabase.groups data)).
    - rewrite <- Hmap2, map_map. reflexivity.
    - unfold data, saveToWorkspace, JsMap.values, JsMap.keys.
      cbn [TagDatabase.groups]. rewrite !map_map. apply map_ext_in.
      intros [k g] H. apply (wf_gids Hwf _ _ H). }
  assert (Et : tags' = map (fun tl => (TagItem.id (fst tl), snd tl))
                           (combine (TagDatabase.tags data) tls)).
  { unfold tags'. rewrite fold_set_distinct; [reflexivity|].
    change (JsMap.keys (JsMap.empty loc)) with (@nil string). rewrite app_nil_l.
    rewrite (keys_combine_alloc _ h2 TagItem.id tls _ Hmap), Hkeys.
    apply (wf_keys Hwf). }
  assert (Eg : groups' = map (fun g => (TagGroup.id g, g)) gls).
  { unfold groups'. rewrite fold_set_distinct; [reflexivity|].
    change (JsMap.keys (JsMap.empty TagGroup.t)) with (@nil string).
    rewrite app_nil_l, Hgkeys. apply (wf_gkeys Hwf). }
  split; [|split].
  - unfold tagsView. cbn [heap tags]. rewrite Et, map_map. cbn [fst snd].
    rewrite (map_combine_alloc _ _ h2 (fun t t' => (TagItem.id t, t')) tls _ Hmap).
    unfold data, saveToWorkspace, JsMap.values. cbn [TagDatabase.tags].
    rewrite !map_map. apply map_ext_in. intros [k l] H. cbn [fst snd].
    f_equal. exact (wf_ids Hwf _ _ H).
  - unfold groupsView, groupJson. cbn [heap groups]. rewrite Eg, map_map.
    cbn [fst snd].
    transitivity (map (fun j => (GroupJson.id j, j)) (TagDatabase.groups data)).
    + rewrite <- Hmap2, map_map. reflexivity.
    + unfold data, saveToWorkspace, JsMap.values. cbn [TagDatabase.groups].
      rewrite !map_map. apply map_ext_in. intros [k g] H. cbn [fst snd].
      f_equal. exact (wf_gids Hwf _ _ H).
  - rewrite Eg. unfold JsMap.size. rewrite length_map.
    rewrite <- (length_map TagGroup.id), Hgkeys. unfold JsMap.keys.
    now rewrite length_map.
Qed.

(** C7, as the code has it: a store that loads the snapshot of a store
    [s] holds the tags of [s], under the same ids, in the same order and
    with the same content; it holds the groups of [s], each with the same
    id, name and tag contents, when [s] has a group; when [s] has none,
    the loading store has one group, the default group, newly made. *)
Theorem save_load_roundtrip :
  forall now defaultId s0 s,
    wf s ->
    let s' := loadFromWorkspace (saveToWorkspace now s) defaultId s0 in
    tagsView s' = tagsView s
    /\ (groups s <> [] -> groupsView s' = groupsView s)
    /\ (groups s = [] ->
        groupsView s'
        = [(defaultId, GroupJson.mk defaultId defaultGroupName [])]).
Proof.
  intros now defaultId s0 s Hwf s'. subst s'. unfold loadFromWorkspace.
  destruct (allocList _ (heap s0) (next s0)) as [[h1 n1] tls] eqn:E1.
  destruct (allocGroups _ h1 n1) as [[h2 n2] gls] eqn:E2.
  destruct (load_views now s0 s Hwf h1 n1 tls h2 n2 gls E1 E2)
    as (Ht & Hg & Hsz).
  set (tags' := fold_left _ (combine _ tls) _) in *.
  set (groups' := fold_left _ gls _) in *.
  destruct (Nat.eqb (JsMap.size groups') 0) eqn:Ez.
  - apply Nat.eqb_eq in Ez.
    assert (Hnil : groups' = []).
    { destruct groups'; [reflexivity | discriminate]. }
    assert (Hsnil : groups s = []).
    { rewrite Ez in Hsz. destruct (groups s); [reflexivity | discriminate]. }
    split; [exact Ht|]. split; [intros Hne; contradiction|]. intros _.
    unfold createGroup, groupsView. cbn [fst groups heap]. rewrite Hnil.
    reflexivity.
  - apply Nat.eqb_neq in Ez. split; [exact Ht|]. split; [intros _; exact Hg|].
    intros Hnil. rewrite Hnil in Hsz. simpl in Hsz. congruence.
Qed.

Lemma save_load_roundtrip_witness :
  (tagsView storeLoaded = tagsView storeT2
   /\ groupsView storeLoaded = groupsView storeT2)
  /\ groupsView (loadFromWorkspace (saveToWorkspace 500 storeNoGroup)
                                   "group_new" storeNoGroup)
     = [("group_new", GroupJson.mk "group_new" defaultGroupName [])].
Proof.
  split.
  - destruct (save_load_roundtrip 500 "group_new" storeT2 storeT2 wf_storeT2)
      as (H1 & H2 & _).
    split; [exact H1 | apply H2; discriminate].
  - apply (save_load_roundtrip 500 "group_new" storeNoGroup storeNoGroup
             (wf_removeGroup "group_A" storeT2 wf_storeT2)).
    reflexivity.
Defined.

(** C7 as stated fails: the store left by removing the only group has no
    group, and loading its snapshot gives a store with one. *)
Lemma save_load_roundtrip_counterexample :
  ~ (forall now defaultId s,
        wf s ->
        groupsView (loadFromWorkspace (saveToWorkspace now s) defaultId s)
        = groupsView s).
Proof.
  intros H.
  specialize (H 500%Z "group_new" storeNoGroup
                (wf_removeGroup "group_A" storeT2 wf_storeT2)).
  vm_compute in H. discriminate.
Qed.

(** ** The invariants hold in every reachable store *)

Lemma path_free_after_remove s filePath existing :
  wf s -> pathsDistinct s ->
  getTagForFile s filePath = Some existing ->
  let s1 := fst (removeTag (idOf s existing) s) in
  ~ In filePath (map (fun l => TagItem.filePath (heap s1 l))
                     (JsMap.values (tags s1))).
Proof.
  intros Hwf PD Hex s1. subst s1.
  unfold getTagForFile in Hex. apply find_some in Hex.
  destruct Hex as [Hin Hpath]. cbv beta in Hpath. str_eq.
  destruct (removeTag_heap s (idOf s existing)) as (-> & _ & -> & _).
  rewrite in_map_iff. intros (x & Hx & Hxin).
  apply values_In in Hxin. destruct Hxin as [k Hk].
  apply In_delete in Hk. destruct Hk as [Hk Hne]. apply Hne.
  assert (x = existing) as ->.
  { apply (NoDup_map_eq _ _ (pathOf s) (JsMap.values (tags s)));
      [exact PD | apply values_In; eauto | exact Hin |].
    unfold pathOf in *. congruence. }
  symmetry. apply (wf_ids Hwf _ _ Hk).
Qed.

Lemma pathsDistinct_addTag filePath tagName groupId description e choice s :
  wf s -> pathsDistinct s ->
  pathsDistinct (fst (addTag filePath tagName groupId description e choice s)).
Proof.
  intros Hwf PD. unfold addTag.
  destruct (isTagNameExists s tagName None); [assumption|].
  destruct (getTagForFile s filePath) as [existing|] eqn:Ef.
  - destruct choice; try assumption.
    apply (distinct_insertTag TagItem.filePath).
    + now apply wf_removeTag.
    + now apply path_free_after_remove.
    + now apply (distinct_removeTag TagItem.filePath).
  - apply (distinct_insertTag TagItem.filePath); [assumption | | assumption].
    cbn. rewrite in_map_iff. intros (x & Hx & Hxin).
    unfold getTagForFile in Ef. apply (find_none _ _ Ef) in Hxin.
    unfold pathOf in Hxin. str_eq. contradiction.
Qed.

Lemma pathsDistinct_editTag tagId newName newDescription now user s :
  pathsDistinct s ->
  pathsDistinct (fst (editTag tagId newName newDescription now user s)).
Proof.
  intros PD. unfold editTag.
  destruct (JsMap.get tagId (tags s)) as [l|]; [|assumption].
  destruct (isTagNameExists s newName (Some tagId)); [assumption|].
  unfold pathsDistinct, pathOf in *. cbn [fst heap tags].
  erewrite map_ext; [exact PD|]. intros x. cbv beta.
  destruct (Nat.eq_dec x l) as [->|Hne].
  - now rewrite upd_same.
  - now rewrite upd_other.
Qed.

Lemma storeInv_exec s c :
  (forall newId name, c = CallCreateGroup newId name -> freshGroupId s newId) ->
  storeInv s -> storeInv (exec s c).
Proof.
  intros Hfresh [W S N P]. destruct c; simpl.
  - constructor; [apply wf_addTag | apply synced_addTag
                  | apply namesDistinct_addTag | apply pathsDistinct_addTag];
      assumption.
  - constructor; [apply wf_editTag | apply synced_editTag
                  | apply namesDistinct_editTag | apply pathsDistinct_editTag];
      assumption.
  - constructor; [apply wf_removeTag | apply synced_removeTag
                  | apply namesDistinct_removeTag
                  | apply (distinct_removeTag TagItem.filePath)]; assumption.
  - constructor; [apply wf_createGroup | apply synced_createGroup | |];
      try assumption. eapply Hfresh. reflexivity.
  - constructor; [apply wf_removeGroup | apply synced_removeGroup
                  | apply (distinct_removeGroup TagItem.name)
                  | apply (distinct_removeGroup TagItem.filePath)]; assumption.
Qed.

Lemma In_set_weak (V : Type) k (v : V) m k' v' :
  In (k', v') (JsMap.set k v m) -> (k', v') = (k, v) \/ In (k', v') m.
Proof.
  destruct (set_cases V k v m) as [(m1 & v0 & m2 & -> & _ & ->)|[_ ->]];
    rewrite !in_app_iff; simpl; intuition auto.
Qed.

Lemma In_fold_set (V E : Type) (key : E -> string) (val : E -> V) es :
  forall m k v,
    In (k, v) (fold_left (fun m' e => JsMap.set (key e) (val e) m') es m) ->
    In (k, v) m \/ exists e, In e es /\ k = key e /\ v = val e.
Proof.
  induction es as [|e es IH]; intros m k v; simpl; [auto|].
  intros H. apply IH in H. destruct H as [H|(e' & He' & Hk & Hv)].
  - apply In_set_weak in H. destruct H as [Heq|H]; [|now left].
    injection Heq as -> ->. right. exists e. simpl. auto.
  - right. exists e'. simpl. auto.
Qed.

Lemma allocGroups_bound gs : forall h n h' n' gls,
  allocGroups gs h n = (h', n', gls) ->
  forall g x, In g gls -> In x (TagGroup.tags g) -> x < n'.
Proof.
  induction gs as [|j gs IH]; intros h n h' n' gls; simpl.
  - intros [= <- <- <-] g x [].
  - destruct (allocList (GroupJson.tags j) h n) as [[h1 n1] ls] eqn:E1.
    destruct (allocGroups gs h1 n1) as [[h2 n2] rest] eqn:E2.
    intros [= <- <- <-] g x [<-|Hg] Hx.
    + simpl in Hx. destruct (allocList_spec _ _ _ _ _ _ E1) as (_ & _ & Hin & _).
      destruct (allocGroups_spec _ _ _ _ _ _ E2) as (Hle & _).
      apply Hin in Hx. lia.
    + eapply IH; eauto.
Qed.

Lemma keys_tagsView s : map fst (tagsView s) = JsMap.keys (tags s).
Proof. unfold tagsView, JsMap.keys. now rewrite map_map. Qed.

Lemma keys_groupsView s : map fst (groupsView s) = JsMap.keys (groups s).
Proof. unfold groupsView, JsMap.keys. now rewrite map_map. Qed.

Lemma In_tagsView s k t :
  In (k, t) (tagsView s) <-> exists l, In (k, l) (tags s) /\ heap s l = t.
Proof.
  unfold tagsView. rewrite in_map_iff. split.
  - intros ([k' l] & [= <- <-] & H). eauto.
  - intros (l & H & <-). now exists (k, l).
Qed.

Lemma In_groupsView s k j :
  In (k, j) (groupsView s) <-> exists g, In (k, g) (groups s) /\ groupJson s g = j.
Proof.
  unfold groupsView. rewrite in_map_iff. split.
  - intros ([k' g] & [= <- <-] & H). eauto.
  - intros (g & H & <-). now exists (k, g).
Qed.

Lemma get_groupsView s k :
  JsMap.get k (groupsView s) = option_map (groupJson s) (JsMap.get k (groups s)).
Proof.
  unfold groupsView. induction (groups s) as [|[k' g] m IH]; simpl;
    [reflexivity|].
  destruct (k' =? k); [reflexivity | exact IH].
Qed.

Lemma values_by_view (f : TagItem.t -> string) s :
  map (fun l => f (heap s l)) (JsMap.values (tags s))
  = map (fun e => f (snd e)) (tagsView s).
Proof. unfold tagsView, JsMap.values. now rewrite !map_map. Qed.

(** A store with the content of a store that has the invariants has them
    too, provided its references are allocated. *)
Lemma storeInv_transfer s s' :
  storeInv s ->
  tagsView s' = tagsView s ->
  groupsView s' = groupsView s ->
  (forall k l, In (k, l) (tags s') -> l < next s') ->
  (forall k g l, In (k, g) (groups s') -> In l (TagGroup.tags g) ->
                 l < next s') ->
  storeInv s'.
Proof.
  intros [W S N P] Ht Hg Ha Hga.
  assert (Htag : forall k l, In (k, l) (tags s') ->
            exists l0, In (k, l0) (tags s) /\ heap s l0 = heap s' l).
  { intros k l H. apply In_tagsView. rewrite <- Ht. apply In_tagsView. eauto. }
  constructor.
  - constructor; auto.
    + rewrite <- keys_tagsView, Ht, keys_tagsView. apply (wf_keys W).
    + intros k l H. destruct (Htag _ _ H) as (l0 & H0 & E).
      unfold idOf. rewrite <- E. apply (wf_ids W _ _ H0).
    + rewrite <- keys_groupsView, Hg, keys_groupsView. apply (wf_gkeys W).
    + intros k g H.
      assert (Hv : In (k, groupJson s' g) (groupsView s))
        by (rewrite <- Hg; apply In_groupsView; eauto).
      apply In_groupsView in Hv. destruct Hv as (g0 & H0 & E).
      change (GroupJson.id (groupJson s' g) = k). rewrite <- E.
      apply (wf_gids W _ _ H0).
  - intros k l g Hin Hget. destruct (Htag _ _ Hin) as (l0 & H0 & E).
    assert (Hv : JsMap.get (groupOf s' l) (groupsView s') = Some (groupJson s' g))
      by (rewrite get_groupsView, Hget; reflexivity).
    rewrite Hg, get_groupsView in Hv. unfold groupOf in Hv. rewrite <- E in Hv.
    destruct (JsMap.get (TagItem.group (heap s l0)) (groups s)) as [g0|] eqn:Eg;
      [|discriminate].
    injection Hv as _ _ Hv. pose proof (S _ _ _ H0 Eg) as Hmem.
    apply (f_equal (map TagItem.id)) in Hv. rewrite !map_map in Hv.
    unfold idOf in *. now rewrite <- Hv.
  - unfold namesDistinct, nameOf in *.
    rewrite (values_by_view TagItem.name) in *. now rewrite Ht.
  - unfold pathsDistinct, pathOf in *.
    rewrite (values_by_view TagItem.filePath) in *. now rewrite Ht.
Qed.

Lemma storeInv_load now defaultId s0 s :
  storeInv s ->
  (forall k l, In (k, l) (tags s) -> groupOf s l <> defaultId) ->
  storeInv (loadFromWorkspace (saveToWorkspace now s) defaultId s0).
Proof.
  intros Hinv Hfresh. pose proof (inv_wf Hinv) as Hwf.
  unfold loadFromWorkspace.
  destruct (allocList _ (heap s0) (next s0)) as [[h1 n1] tls] eqn:E1.
  destruct (allocGroups _ h1 n1) as [[h2 n2] gls] eqn:E2.
  destruct (load_views now s0 s Hwf h1 n1 tls h2 n2 gls E1 E2)
    as (Ht & Hg & Hsz).
  destruct (allocList_spec _ _ _ _ _ _ E1) as (_ & _ & Hin1 & _).
  destruct (allocGroups_spec _ _ _ _ _ _ E2) as (Hle & _ & _).
  pose proof (allocGroups_bound _ _ _ _ _ _ E2) as Hgb.
  set (tags' := fold_left _ (combine _ tls) _) in *.
  set (groups' := fold_left _ gls _) in *.
  assert (Hloaded : storeInv (mkTM h2 n2 tags' groups')).
  { apply (storeInv_transfer s); auto; cbn [tags groups next].
    - intros k l H. apply In_fold_set in H.
      destruct H as [[]|([t l'] & He & _ & ->)].
      apply in_combine_r in He. apply Hin1 in He. simpl. lia.
    - intros k g l H Hl. apply In_fold_set in H.
      destruct H as [[]|(g' & He & _ & ->)]. eapply Hgb; eauto. }
  destruct (Nat.eqb (JsMap.size groups') 0) eqn:Ez; [|exact Hloaded].
  apply (storeInv_exec _ (CallCreateGroup defaultId defaultGroupName));
    [|exact Hloaded].
  intros newId name [= <- <-]. split.
  - cbn [groups]. apply Nat.eqb_eq in Ez.
    destruct groups'; [reflexivity | discriminate].
  - cbn [tags]. intros k l H.
    assert (Hv : In (k, h2 l) (tagsView s)).
    { rewrite <- Ht. apply In_tagsView. eauto. }
    apply In_tagsView in Hv. destruct Hv as (l0 & H0 & E).
    unfold groupOf. cbn [heap]. rewrite <- E. apply (Hfresh _ _ H0).
Qed.

Lemma storeInv_emptyStore : storeInv emptyStore.
Proof.
  constructor; [apply wf_emptyStore | intros k l g [] | constructor
                | constructor].
Qed.

(** Every store a manager reaches has the invariants that the theorems
    about single calls take as hypotheses. *)
Lemma reachable_storeInv s : reachable s -> storeInv s.
Proof.
  induction 1 as [|s c _ IH Hfresh|s s0 now defaultId _ IH Hfresh].
  - apply storeInv_emptyStore.
  - now apply storeInv_exec.
  - now apply storeInv_load.
Qed.

(** ** The concrete stores are reachable *)

Lemma reachable_storeT2 : reachable storeT2.
Proof.
  unfold storeT2, storeT1, storeA.
  apply (@reach_call _ (CallAddTag "/src/Login.ts" "Auth" "group_A"
                         (Some "User login") env2 ReplaceDismissed));
    [|discriminate].
  apply (@reach_call _ (CallAddTag "/f1.js" "T1" "group_A" None env1
                         ReplaceDismissed)); [|discriminate].
  apply (@reach_call _ (CallCreateGroup "group_A" "A")); [apply reach_new|].
  intros newId name [= <- <-]. split; [reflexivity | intros k l []].
Qed.

Lemma reachable_storeLoaded : reachable storeLoaded.
Proof.
  unfold storeLoaded. apply reach_load; [apply reachable_storeT2|].
  intros k l [H|[H|[]]]; injection H as <- <-; discriminate.
Qed.

Lemma editTag_frame_witness :
  let s' := fst (editTag "2_b" "Login" (Some "") 400 "cy" storeLoaded) in
  TagItem.filePath (heap s' 3) = TagItem.filePath (heap storeLoaded 3)
  /\ forall l', In l' [4; 3] -> idOf s' l' = "2_b" -> heap s' l' = heap s' 3.
Proof.
  destruct (editTag_frame storeLoaded "2_b" "Login" (Some "") 400 "cy" 3
              (inv_wf (reachable_storeInv storeLoaded reachable_storeLoaded))
              eq_refl eq_refl)
    as (_ & _ & Hpath & _ & _ & _ & _ & _ & _ & _ & _ & Hgroup).
  split; [exact Hpath|].
  apply (Hgroup (TagGroup.mk "group_A" "A" [4; 3]) eq_refl).
  unfold groupIdsDistinct. vm_compute.
  repeat constructor; simpl; intuition discriminate.
Defined.

(** In the loaded store the group holds a copy (object 5) of the tag that
    the map holds as object 3; [editTag] puts the map's object in its
    place. *)
Example editTag_replaces_copy :
  getTagsByGroup storeLoaded "group_A" = [4; 5]
  /\ JsMap.get "2_b" (tags storeLoaded) = Some 3
  /\ getTagsByGroup
       (fst (editTag "2_b" "Login" None 400 "cy" storeLoaded)) "group_A"
     = [4; 3].
Proof. repeat split. Qed.

(* ================================================================= *)
(** * Further properties of the store *)

(** ** removeTag on a tag that exists *)

Lemma store_eta s : mkTM (heap s) (next s) (tags s) (groups s) = s.
Proof. now destruct s. Qed.

Lemma withTags_same g : TagGroup.withTags g (TagGroup.tags g) = g.
Proof. now destruct g. Qed.

(** [removeTag] of an id in the map returns [true]; the map loses that
    entry and keeps the others in their order, the array of the tag's
    group loses the entries with that id and keeps the others, no other
    group and no object changes, and a second [removeTag] of the id
    returns [false] and changes nothing. *)
Theorem removeTag_present :
  forall s tagId l,
    wf s ->
    JsMap.get tagId (tags s) = Some l ->
    let s' := fst (removeTag tagId s) in
    snd (removeTag tagId s) = true
    /\ JsMap.get tagId (tags s') = None
    /\ getAllTags s' = filter (fun x => negb (Nat.eqb x l)) (getAllTags s)
    /\ S (JsMap.size (tags s')) = JsMap.size (tags s)
    /\ heap s' = heap s
    /\ (forall k, k <> groupOf s l ->
                  JsMap.get k (groups s') = JsMap.get k (groups s))
    /\ (forall g,
          JsMap.get (groupOf s l) (groups s) = Some g ->
          JsMap.get (groupOf s l) (groups s')
          = Some (TagGroup.withTags g
                    (filter (fun t => negb (idOf s t =? tagId))
                            (TagGroup.tags g))))
    /\ removeTag tagId s' = (s', false).
Proof.
  intros s tagId l Hwf Hget s'. subst s'.
  assert (Hid : idOf s l = tagId) by (apply (wf_ids Hwf); now apply get_In).
  assert (Hin : In l (JsMap.values (tags s))).
  { apply values_In. exists tagId. now apply get_In. }
  rewrite (removeTag_found _ _ _ Hget). cbn [fst snd tags groups heap].
  split; [reflexivity|]. split; [apply get_delete|]. split.
  { unfold getAllTags. cbn [tags]. rewrite <- Hid.
    now apply values_delete_value. }
  split.
  { apply size_delete_present; [apply (wf_keys Hwf)|].
    apply get_In in Hget. eapply In_keys; eauto. }
  split; [reflexivity|]. split.
  { intros k Hk. rewrite get_modify.
    apply String.eqb_neq in Hk. now rewrite Hk. }
  split.
  { intros g Hg. rewrite get_modify, String.eqb_refl, Hg. reflexivity. }
  unfold removeTag. cbn [tags]. now rewrite get_delete.
Qed.

Lemma removeTag_present_witness :
  getAllTags (fst (removeTag "1_a" storeT2)) = [1]
  /\ getTagsByGroup (fst (removeTag "1_a" storeT2)) "group_A" = [1].
Proof.
  destruct (removeTag_present storeT2 "1_a" 0 wf_storeT2 eq_refl)
    as (_ & _ & Hall & _ & _ & _ & Hgrp & _).
  split; [exact Hall|].
  exact (f_equal (fun o => match o with
                           | Some g => TagGroup.tags g
                           | None => []
                           end)
                 (Hgrp (TagGroup.mk "group_A" "A" [0; 1]) eq_refl)).
Defined.

(** ** addTag on a file without tag *)

Lemma getTagForFile_None s filePath :
  getTagForFile s filePath = None ->
  forall l, In l (JsMap.values (tags s)) -> (pathOf s l =? filePath) = false.
Proof. intros H l Hl. exact (find_none _ _ H l Hl). Qed.

(** When the name is free and the file has no tag, [addTag] shows no
    dialog (the answer plays no part), returns the new object with the
    fields it was given and the user as creator and modifier, files it
    under the generated id, and [getTagsForFile] finds it alone; with an
    id not in use the map grows by that one entry at its end, and no
    older object changes. *)
Theorem addTag_new_file :
  forall filePath tagName groupId description e choice s,
    wf s ->
    isTagNameExists s tagName None = false ->
    getTagForFile s filePath = None ->
    let r := addTag filePath tagName groupId description e choice s in
    snd r = Some (next s)
    /\ heap (fst r) (next s)
       = TagItem.mk (env_id e) tagName filePath groupId description
                    (env_createdAt e) (Some (env_user e))
                    (Some (env_lastModified e)) (Some (env_user e))
    /\ JsMap.get (env_id e) (tags (fst r)) = Some (next s)
    /\ getTagsForFile (fst r) filePath = [next s]
    /\ (JsMap.get (env_id e) (tags s) = None ->
        getAllTags (fst r) = getAllTags s ++ [next s])
    /\ (forall l, l < next s -> heap (fst r) l = heap s l).
Proof.
  intros filePath tagName groupId description e choice s Hwf Hfree Hnone r.
  subst r. unfold addTag. rewrite Hfree, Hnone. unfold insertTag.
  cbn [fst snd heap tags].
  split; [reflexivity|]. split; [apply upd_same|]. split.
  { apply In_get; [apply NoDup_keys_set, (wf_keys Hwf)|].
    apply In_set; [apply (wf_keys Hwf) | now left]. }
  split.
  { unfold getTagsForFile, pathOf. cbn [heap tags].
    set (h := upd (heap s) (next s) _).
    assert (Hold : forall k l, In (k, l) (tags s) ->
              (TagItem.filePath (h l) =? filePath) = false).
    { intros k l H. unfold h.
      rewrite upd_other by (apply (wf_alloc Hwf) in H; lia).
      apply (getTagForFile_None s filePath Hnone). apply values_In. eauto. }
    assert (Hnew : (TagItem.filePath (h (next s)) =? filePath) = true).
    { unfold h. rewrite upd_same. cbn. apply String.eqb_refl. }
    destruct (set_cases _ (env_id e) (next s) (tags s))
      as [(m1 & v0 & m2 & Em & _ & ->)|[_ ->]]; unfold JsMap.values;
      rewrite map_app, filter_app; cbn [map snd filter]; rewrite Hnew.
    - rewrite !filter_none; [reflexivity | |];
        intros x Hx; apply in_map_iff in Hx;
        destruct Hx as ([k x'] & <- & Hx); apply (Hold k); rewrite Em;
        apply in_app_iff; [right; now right | now left].
    - rewrite filter_none; [reflexivity|].
      intros x Hx. apply in_map_iff in Hx. destruct Hx as ([k x'] & <- & Hx).
      now apply (Hold k). }
  split.
  { intros Hnew. unfold getAllTags, JsMap.values. cbn [tags].
    rewrite set_absent by (now apply get_None). now rewrite map_app. }
  intros l Hl. apply upd_other. lia.
Qed.

Lemma addTag_new_file_witness :
  getTagsForFile
    (fst (addTag "/f3.js" "T3" "group_A" None env3 ReplaceCancelled storeT2))
    "/f3.js" = [2].
Proof.
  exact (proj1 (proj2 (proj2 (proj2
    (addTag_new_file "/f3.js" "T3" "group_A" None env3 ReplaceCancelled
       storeT2 wf_storeT2 eq_refl eq_refl))))).
Defined.

(** ** addTag undone by removeTag *)

Lemma modify_modify (V : Type) k (f g : V -> V) (m : JsMap.t V) :
  JsMap.modify k f (JsMap.modify k g m) = JsMap.modify k (fun v => f (g v)) m.
Proof.
  induction m as [|[k' v] m IH]; simpl; [reflexivity|].
  destruct (k' =? k) eqn:E; simpl; rewrite E; [reflexivity | now rewrite IH].
Qed.

Lemma modify_fixed (V : Type) k (f : V -> V) (m : JsMap.t V) :
  (forall v, JsMap.get k m = Some v -> f v = v) -> JsMap.modify k f m = m.
Proof.
  induction m as [|[k' v] m IH]; simpl; [reflexivity|].
  destruct (k' =? k) eqn:E; intros H.
  - now rewrite H.
  - now rewrite IH.
Qed.

Lemma filter_all (A : Type) (p : A -> bool) (l : list A) :
  (forall x, In x l -> p x = true) -> filter p l = l.
Proof.
  intros H. apply forallb_filter_id. now apply forallb_forall.
Qed.

(** A tag added to a file without tag, under an id that neither the map
    nor the array of its group knows, is taken away again by [removeTag]
    of that id: tag map and group map are as before the [addTag]. *)
Theorem addTag_removeTag_roundtrip :
  forall filePath tagName groupId description e choice s,
    wf s ->
    isTagNameExists s tagName None = false ->
    getTagForFile s filePath = None ->
    JsMap.get (env_id e) (tags s) = None ->
    (forall g t, JsMap.get groupId (groups s) = Some g ->
                 In t (TagGroup.tags g) -> idOf s t <> env_id e) ->
    let s1 := fst (addTag filePath tagName groupId description e choice s) in
    snd (removeTag (env_id e) s1) = true
    /\ tags (fst (removeTag (env_id e) s1)) = tags s
    /\ groups (fst (removeTag (env_id e) s1)) = groups s.
Proof.
  intros filePath tagName groupId description e choice s Hwf Hfree Hnone
         Hnew Harr s1.
  subst s1. unfold addTag. rewrite Hfree, Hnone. unfold insertTag.
  cbn [fst]. set (h := upd (heap s) (next s) _).
  assert (Hset : JsMap.set (env_id e) (next s) (tags s)
                 = tags s ++ [(env_id e, next s)])
    by (apply set_absent; now apply get_None).
  rewrite Hset.
  assert (Hget : JsMap.get (env_id e) (tags s ++ [(env_id e, next s)])
                 = Some (next s)).
  { rewrite <- Hset. apply In_get; [apply NoDup_keys_set, (wf_keys Hwf)|].
    apply In_set; [apply (wf_keys Hwf) | now left]. }
  unfold removeTag. cbn [tags]. rewrite Hget. cbn [fst snd tags groups].
  split; [reflexivity|]. split.
  - unfold JsMap.delete. rewrite filter_app. cbn [filter fst].
    rewrite String.eqb_refl. cbn [negb]. rewrite app_nil_r.
    apply (delete_absent _ (env_id e) (tags s)). now apply get_None.
  - unfold groupOf, idOf. cbn [heap]. unfold h at 1. rewrite upd_same.
    cbn [newTag TagItem.group]. rewrite modify_modify.
    apply modify_fixed. intros g Hg. cbn [TagGroup.withTags TagGroup.tags
      TagGroup.id TagGroup.name].
    rewrite filter_app. cbn [filter]. unfold h at 2. rewrite upd_same.
    cbn [newTag TagItem.id]. rewrite String.eqb_refl. cbn [negb].
    rewrite app_nil_r, filter_all; [now destruct g|].
    intros t Ht. apply negb_true_iff, String.eqb_neq. unfold h.
    rewrite upd_other.
    + exact (Harr g t Hg Ht).
    + apply get_In in Hg. pose proof (wf_galloc Hwf _ _ _ Hg Ht). lia.
Qed.

Lemma addTag_removeTag_roundtrip_witness :
  let s1 := fst (addTag "/f3.js" "T3" "group_A" None env3 ReplaceDismissed
                        storeT2) in
  tags (fst (removeTag "3_c" s1)) = tags storeT2
  /\ groups (fst (removeTag "3_c" s1)) = groups storeT2.
Proof.
  apply (addTag_removeTag_roundtrip "/f3.js" "T3" "group_A" None env3
           ReplaceDismissed storeT2 wf_storeT2 eq_refl eq_refl eq_refl).
  intros g t Hg Ht. injection Hg as <-.
  destruct Ht as [<-|[<-|[]]]; discriminate.
Defined.

(** ** editTag and the name check *)

(** [editTag] lets a tag keep its name (the check leaves the tag itself
    out), and refuses the name of any other tag, leaving the store as it
    is. *)
Theorem editTag_name_check :
  forall s tagId l newDescription now user,
    wf s -> namesDistinct s ->
    JsMap.get tagId (tags s) = Some l ->
    snd (editTag tagId (nameOf s l) newDescription now user s) = true
    /\ forall l',
        In l' (getAllTags s) -> l' <> l ->
        editTag tagId (nameOf s l') newDescription now user s = (s, false).
Proof.
  intros s tagId l newDescription now user Hwf ND Hget.
  assert (Hin : In l (JsMap.values (tags s))).
  { apply values_In. exists tagId. now apply get_In. }
  assert (Hid : idOf s l = tagId) by (apply (wf_ids Hwf); now apply get_In).
  split.
  - unfold editTag. rewrite Hget.
    destruct (isTagNameExists s (nameOf s l) (Some tagId)) eqn:E;
      [|reflexivity].
    unfold isTagNameExists in E. apply existsb_exists in E.
    destruct E as (x & Hx & Hc). apply andb_true_iff in Hc.
    destruct Hc as [Hn Hd]. cbn in Hd. str_eq.
    exfalso. apply Hd. rewrite <- Hid. f_equal.
    exact (NoDup_map_eq _ _ (nameOf s) _ x l ND Hx Hin Hn).
  - intros l' Hl' Hne. unfold editTag. rewrite Hget.
    replace (isTagNameExists s (nameOf s l') (Some tagId)) with true;
      [reflexivity|].
    symmetry. unfold isTagNameExists. apply existsb_exists. exists l'.
    split; [exact Hl'|]. rewrite String.eqb_refl. cbn.
    apply negb_true_iff, String.eqb_neq. intros Hc. apply Hne.
    apply get_of_value in Hl'; [|assumption]. rewrite Hc in Hl'. congruence.
Qed.

Lemma editTag_name_check_witness :
  snd (editTag "2_b" "Auth" (Some "new text") 400 "cy" storeT2) = true
  /\ editTag "2_b" "T1" (Some "new text") 400 "cy" storeT2 = (storeT2, false).
Proof.
  destruct (editTag_name_check storeT2 "2_b" 1 (Some "new text") 400 "cy"
              wf_storeT2 namesDistinct_storeT2 eq_refl) as [H1 H2].
  split; [exact H1|].
  apply (H2 0); [left; reflexivity | discriminate].
Defined.

(** ** createGroup undone by removeGroup *)

Lemma get_app_absent (V : Type) k (m m' : JsMap.t V) :
  JsMap.get k m = None -> JsMap.get k (m ++ m') = JsMap.get k m'.
Proof.
  induction m as [|[k' v] m IH]; simpl; [reflexivity|].
  destruct (k' =? k); [discriminate | exact IH].
Qed.

(** [createGroup] under an id that no group has appends an empty group
    with that id and the given name, which [getGroup] then returns, and
    leaves the tags alone; [removeGroup] of that id right after gives back
    the store as it was. *)
Theorem createGroup_removeGroup_roundtrip :
  forall newId name s,
    JsMap.get newId (groups s) = None ->
    let s1 := fst (createGroup newId name s) in
    snd (createGroup newId name s) = TagGroup.mk newId name []
    /\ getGroup s1 newId = Some (TagGroup.mk newId name [])
    /\ getAllGroups s1 = getAllGroups s ++ [TagGroup.mk newId name []]
    /\ tags s1 = tags s
    /\ removeGroup newId s1 = (s, true).
Proof.
  intros newId name s Hnew s1. subst s1. unfold createGroup.
  cbn [fst snd].
  assert (Hget : JsMap.get newId (groups s ++ [(newId, TagGroup.mk newId name [])])
                 = Some (TagGroup.mk newId name [])).
  { rewrite get_app_absent by assumption. simpl. now rewrite String.eqb_refl. }
  apply get_None in Hnew.
  rewrite (set_absent _ newId _ (groups s) Hnew).
  split; [reflexivity|]. split; [exact Hget|]. split.
  { unfold getAllGroups, JsMap.values. cbn [groups]. now rewrite map_app. }
  split; [reflexivity|].
  unfold removeGroup. cbn [groups]. rewrite Hget.
  cbn [TagGroup.tags fold_left tags heap next]. f_equal.
  unfold JsMap.delete. rewrite filter_app. cbn [filter fst].
  rewrite String.eqb_refl. cbn [negb]. rewrite app_nil_r.
  change (filter _ (groups s)) with (JsMap.delete newId (groups s)).
  rewrite delete_absent by assumption. apply store_eta.
Qed.

Lemma createGroup_removeGroup_roundtrip_witness :
  removeGroup "group_B" (fst (createGroup "group_B" "B" storeT2))
  = (storeT2, true).
Proof.
  exact (proj2 (proj2 (proj2 (proj2
    (createGroup_removeGroup_roundtrip "group_B" "B" storeT2 eq_refl))))).
Defined.

(** ** Loading never leaves the manager without a group *)

Lemma set_not_nil (V : Type) k (v : V) m : JsMap.set k v m <> [].
Proof.
  destruct m as [|[k' v'] m]; simpl; [discriminate|].
  destruct (k' =? k); discriminate.
Qed.

Lemma fold_set_not_nil (V E : Type) (key : E -> string) (val : E -> V) es :
  forall m,
    m <> [] \/ es <> [] ->
    fold_left (fun m' e => JsMap.set (key e) (val e) m') es m <> [].
Proof.
  induction es as [|e es IH]; intros m H; simpl.
  - destruct H as [H|H]; [assumption | contradiction].
  - apply IH. left. apply set_not_nil.
Qed.

(** For saved data that has its two arrays and loads without error: after
    [loadData] and after [loadFromWorkspace] the group map holds a group.
    After [loadFromWorkspace] of data without groups it holds one group,
    the new default group with no tag, whatever groups the manager held
    before; of data with groups it holds no default group: every group of
    the map has the id and the name of a group of the data. *)
Theorem load_has_group :
  forall savedTags savedGroups data defaultId s,
    groups (loadData savedTags savedGroups defaultId s) <> []
    /\ groups (loadFromWorkspace data defaultId s) <> []
    /\ (TagDatabase.groups data = [] ->
        groups (loadFromWorkspace data defaultId s)
        = [(defaultId, TagGroup.mk defaultId defaultGroupName [])])
    /\ (TagDatabase.groups data <> [] ->
        forall k g,
          In (k, g) (groups (loadFromWorkspace data defaultId s)) ->
          exists j, In j (TagDatabase.groups data)
                    /\ GroupJson.id j = k
                    /\ TagGroup.id g = k
                    /\ TagGroup.name g = GroupJson.name j).
Proof.
  intros savedTags savedGroups data defaultId s.
  assert (H : forall ts gs s0, groups (loadData ts gs defaultId s0) <> []).
  { intros ts gs s0. unfold loadData.
    destruct (allocList ts (heap s0) (next s0)) as [[h1 n1] tls].
    destruct (allocGroups gs h1 n1) as [[h2 n2] gls].
    set (groups' := fold_left _ gls _).
    destruct (Nat.eqb (JsMap.size groups') 0) eqn:Ez.
    - unfold createGroup. cbn [fst groups]. apply set_not_nil.
    - cbn [groups]. intros Hnil. rewrite Hnil in Ez. discriminate. }
  split; [apply H|]. split; [apply (H _ _ (cleared s))|].
  unfold loadFromWorkspace.
  destruct (allocList _ (heap s) (next s)) as [[h1 n1] tls] eqn:E1.
  destruct (allocGroups _ h1 n1) as [[h2 n2] gls] eqn:E2.
  destruct (allocGroups_spec _ _ _ _ _ _ E2) as (_ & _ & Hmap).
  set (groups' := fold_left _ gls _).
  split.
  - intros Hnil. rewrite Hnil in Hmap.
    assert (gls = []) as -> by (destruct gls; [reflexivity | discriminate]).
    reflexivity.
  - intros Hne k g.
    assert (Hgls : gls <> []).
    { intros ->. apply Hne. now rewrite <- Hmap. }
    assert (Hsz : Nat.eqb (JsMap.size groups') 0 = false).
    { apply Nat.eqb_neq. intros Hc.
      apply (fold_set_not_nil _ _ TagGroup.id (fun g0 => g0) gls
               (JsMap.empty TagGroup.t) (or_intror Hgls)).
      fold groups'. destruct groups'; [reflexivity | discriminate]. }
    rewrite Hsz. cbn [groups]. intros Hin. apply In_fold_set in Hin.
    destruct Hin as [[]|(g' & Hg' & -> & ->)].
    exists (GroupJson.mk (TagGroup.id g') (TagGroup.name g')
                         (map h2 (TagGroup.tags g'))).
    split; [|repeat split].
    rewrite <- Hmap.
    exact (in_map (fun g0 => GroupJson.mk (TagGroup.id g0) (TagGroup.name g0)
                                          (map h2 (TagGroup.tags g0)))
                  gls g' Hg').
Qed.

Lemma load_has_group_witness :
  groups (loadFromWorkspace (saveToWorkspace 500 storeNoGroup) "group_new"
                            storeT2)
  = [("group_new", TagGroup.mk "group_new" defaultGroupName [])].
Proof.
  exact (proj1 (proj2 (proj2
    (load_has_group [] [] (saveToWorkspace 500 storeNoGroup) "group_new"
                    storeT2))) eq_refl).
Defined.

(** ** One tag per file *)

Lemma filter_eq_at_most_one (A : Type) (f : A -> string) p (l : list A) :
  NoDup (map f l) ->
  filter (fun x => f x =? p) l
  = match find (fun x => f x =? p) l with
    | Some x => [x]
    | None => []
    end.
Proof.
  induction l as [|x l IH]; simpl; intros ND; [reflexivity|].
  inversion ND as [|? ? Hn ND']; subst.
  destruct (f x =? p) eqn:E; [|now apply IH].
  f_equal. apply filter_none. intros y Hy. apply String.eqb_neq.
  intros Hc. apply Hn. str_eq. rewrite E, <- Hc. now apply in_map.
Qed.

Lemma wf_exec s c : wf s -> wf (exec s c).
Proof.
  intros Hwf. destruct c; simpl;
    [apply wf_addTag | apply wf_editTag | apply wf_removeTag
     | apply wf_createGroup | apply wf_removeGroup]; assumption.
Qed.

Lemma pathsDistinct_exec s c : wf s -> pathsDistinct s -> pathsDistinct (exec s c).
Proof.
  intros Hwf PD. destruct c; simpl.
  - now apply pathsDistinct_addTag.
  - now apply pathsDistinct_editTag.
  - now apply (distinct_removeTag TagItem.filePath).
  - exact PD.
  - now apply (distinct_removeGroup TagItem.filePath).
Qed.

(** From a store in which no two tags share a file path, no list of calls
    of the five mutators, whatever their arguments and the answers to the
    dialogs, leads to a store in which two tags do; there
    [getTagsForFile] returns the tag that [getTagForFile] finds, alone, or
    nothing. *)
Theorem one_tag_per_file :
  forall cs s,
    wf s -> pathsDistinct s ->
    pathsDistinct (runCalls cs s)
    /\ forall filePath,
        getTagsForFile (runCalls cs s) filePath
        = match getTagForFile (runCalls cs s) filePath with
          | Some l => [l]
          | None => []
          end.
Proof.
  intros cs s Hwf PD.
  assert (H : pathsDistinct (runCalls cs s)).
  { revert s Hwf PD. induction cs as [|c cs IH]; intros s Hwf PD;
      [assumption|].
    simpl. apply IH; [now apply wf_exec | now apply pathsDistinct_exec]. }
  split; [exact H|]. intros filePath.
  apply (filter_eq_at_most_one _ (pathOf (runCalls cs s))). exact H.
Qed.

Lemma one_tag_per_file_witness :
  pathsDistinct
    (runCalls [CallAddTag "/f1.js" "T9" "group_A" None env3 ReplaceConfirmed;
               CallEditTag "2_b" "Login" None 400 "cy";
               CallAddTag "/src/Login.ts" "Other" "group_B" None env1
                          ReplaceCancelled;
               CallRemoveGroup "group_A"] storeT2).
Proof.
  exact (proj1 (one_tag_per_file _ storeT2 wf_storeT2 pathsDistinct_storeT2)).
Defined.

(** ** The empty query *)

Lemma includes_empty s : includes s "" = true.
Proof. destruct s; reflexivity. Qed.

(** With a [toLowerCase] that maps the empty string to itself,
    [searchTags("")] returns every tag, in the order of the map. *)
Theorem searchTags_empty_query :
  forall (toLowerCase basename : string -> string) s,
    toLowerCase "" = "" ->
    searchTags toLowerCase basename "" s = getAllTags s.
Proof.
  intros toLowerCase basename s Hlow. unfold searchTags, getAllTags.
  rewrite Hlow. apply filter_all. intros l _. unfold matchesQuery.
  now rewrite includes_empty.
Qed.

Lemma searchTags_empty_query_witness :
  searchTags asciiToLowerCase posixBasename "" storeT2 = getAllTags storeT2.
Proof.
  exact (searchTags_empty_query asciiToLowerCase posixBasename storeT2 eq_refl).
Defined.

(** ** handleFileDeleted *)

(** When a tracked file is deleted: without a tag for it nothing happens
    and no dialog is shown; on any answer but "delete" the store stays as
    it is; on "delete" every tag of that path leaves the map, the tags of
    other files stay in their order, the objects are untouched, and the
    message reports the number of tags that were found. *)
Theorem handleFileDeleted_spec :
  forall deletedFilePath s,
    wf s ->
    (getTagsForFile s deletedFilePath = [] ->
     forall choice, handleFileDeleted deletedFilePath choice s = (s, None))
    /\ (forall choice,
           choice <> DeleteTags ->
           handleFileDeleted deletedFilePath choice s = (s, None))
    /\ (let r := handleFileDeleted deletedFilePath DeleteTags s in
        getTagsForFile (fst r) deletedFilePath = []
        /\ getAllTags (fst r)
           = filter (fun l => negb (pathOf s l =? deletedFilePath))
                    (getAllTags s)
        /\ heap (fst r) = heap s
        /\ (getTagsForFile s deletedFilePath <> [] ->
            snd r = Some (List.length (getTagsForFile s deletedFilePath)))).
Proof.
  intros p s Hwf. unfold handleFileDeleted.
  split; [intros -> choice; reflexivity|]. split.
  { intros choice Hc. destruct (getTagsForFile s p); [reflexivity|].
    destruct choice; [contradiction | reflexivity | reflexivity]. }
  assert (Hspec : heap (removeAll (getTagsForFile s p) s) = heap s
            /\ getAllTags (removeAll (getTagsForFile s p) s)
               = filter (fun l => negb (pathOf s l =? p)) (getAllTags s)).
  { destruct (removeAll_spec (getTagsForFile s p) s Hwf)
      as (_ & Hh & Hv & _).
    - apply NoDup_filter. now apply NoDup_values.
    - intros t Ht. apply filter_In in Ht. tauto.
    - split; [exact Hh|]. unfold getAllTags. rewrite Hv.
      apply filter_ext_in. intros l Hl. unfold getTagsForFile.
      now rewrite existsb_filter_mem. }
  destruct Hspec as [Hh Hv].
  assert (Hgone : forall s', heap s' = heap s ->
            getAllTags s' = filter (fun l => negb (pathOf s l =? p)) (getAllTags s) ->
            getTagsForFile s' p = []).
  { intros s' Hh' Hv'. unfold getTagsForFile, pathOf. unfold getAllTags in Hv'.
    rewrite Hv', Hh', filter_twice. apply filter_none. intros x _.
    unfold pathOf. now destruct (TagItem.filePath (heap s x) =? p). }
  destruct (getTagsForFile s p) as [|t ts] eqn:E; cbn [fst snd].
  - split; [exact E|]. split; [exact Hv|]. split; [reflexivity|].
    intros Hc. exfalso. apply Hc. first [reflexivity | exact E].
  - split; [now apply Hgone|]. split; [exact Hv|]. split; [exact Hh|].
    intros _. first [reflexivity | now rewrite E].
Qed.

Lemma handleFileDeleted_spec_witness :
  getAllTags (fst (handleFileDeleted "/f1.js" DeleteTags storeT2)) = [1]
  /\ handleFileDeleted "/f1.js" KeepTags storeT2 = (storeT2, None)
  /\ forall choice, handleFileDeleted "/gone.js" choice storeT2 = (storeT2, None).
Proof.
  destruct (handleFileDeleted_spec "/f1.js" storeT2 wf_storeT2)
    as (_ & Hkeep & _ & Hall & _).
  split; [exact Hall|]. split; [apply Hkeep; discriminate|].
  exact (proj1 (handleFileDeleted_spec "/gone.js" storeT2 wf_storeT2) eq_refl).
Defined.

(** ** getCollaborationInfo *)

Lemma In_setAdd x users y : In y (setAdd x users) <-> y = x \/ In y users.
Proof.
  unfold setAdd. destruct (existsb (String.eqb x) users) eqn:E.
  - split; [auto|]. intros [->|H]; [|assumption].
    apply existsb_exists in E. destruct E as (z & Hz & Ez). str_eq.
    now subst.
  - rewrite in_app_iff. simpl. intuition.
Qed.

Lemma NoDup_setAdd x users : NoDup users -> NoDup (setAdd x users).
Proof.
  intros ND. unfold setAdd.
  destruct (existsb (String.eqb x) users) eqn:E; [assumption|].
  apply NoDup_insert; rewrite app_nil_r; [assumption|].
  intros Hin. apply not_true_iff_false in E. apply E.
  apply existsb_exists. exists x. split; [assumption | apply String.eqb_refl].
Qed.

Lemma length_setAdd x users :
  List.length (setAdd x users) <= S (List.length users).
Proof.
  unfold setAdd. destruct (existsb (String.eqb x) users); [lia|].
  rewrite length_app. simpl. lia.
Qed.

Lemma addIfSet_spec name users :
  (NoDup users -> NoDup (addIfSet name users))
  /\ (forall y, In y (addIfSet name users)
                <-> In y users \/ (name = Some y /\ y <> ""))
  /\ List.length (addIfSet name users) <= S (List.length users).
Proof.
  unfold addIfSet. destruct name as [x|].
  - destruct (x =? "") eqn:E; str_eq.
    + repeat split; auto. intros [H|[[= <-] H]]; [assumption|contradiction].
    + split; [apply NoDup_setAdd|]. split; [|apply length_setAdd].
      intros y. rewrite In_setAdd. split.
      * intros [->|H]; auto.
      * intros [H|[[= <-] _]]; auto.
  - repeat split; auto. intros [H|[H _]]; [assumption|discriminate].
Qed.

Lemma collaborators_fold s ls : forall acc,
  let users :=
    fold_left (fun users l =>
                 addIfSet (TagItem.lastModifiedBy (heap s l))
                          (addIfSet (TagItem.createdBy (heap s l)) users))
              ls acc in
  (NoDup acc -> NoDup users)
  /\ (forall u, In u users <->
                In u acc
                \/ (u <> ""
                    /\ exists l, In l ls
                         /\ (TagItem.createdBy (heap s l) = Some u
                             \/ TagItem.lastModifiedBy (heap s l) = Some u)))
  /\ List.length users <= List.length acc + 2 * List.length ls.
Proof.
  induction ls as [|l ls IH]; intros acc; cbn [fold_left].
  - split; [auto|]. split; [|simpl; lia].
    intros u. split; [auto|]. intros [H|(_ & x & [] & _)]. assumption.
  - set (acc1 := addIfSet (TagItem.createdBy (heap s l)) acc).
    set (acc2 := addIfSet (TagItem.lastModifiedBy (heap s l)) acc1).
    destruct (addIfSet_spec (TagItem.createdBy (heap s l)) acc)
      as (N1 & I1 & L1).
    destruct (addIfSet_spec (TagItem.lastModifiedBy (heap s l)) acc1)
      as (N2 & I2 & L2).
    fold acc1 in N1, I1, L1. fold acc2 in N2, I2, L2.
    destruct (IH acc2) as (N & I & L). cbv zeta in *.
    split; [auto|]. split.
    + intros u. rewrite I, I2, I1. split.
      * intros [[[H|[H Hu]]|[H Hu]]|(Hu & x & Hx & Hc)]; auto.
        -- right. split; [assumption|]. exists l. simpl. auto.
        -- right. split; [assumption|]. exists l. simpl. auto.
        -- right. split; [assumption|]. exists x. simpl. auto.
      * intros [H|(Hu & x & [<-|Hx] & Hc)]; auto.
        -- destruct Hc as [Hc|Hc]; auto.
        -- right. split; [assumption|]. eauto.
    + simpl. lia.
Qed.

Lemma In_collaborators s u :
  In u (collaborators s) <->
  u <> ""
  /\ exists l, In l (getAllTags s)
       /\ (TagItem.createdBy (heap s l) = Some u
           \/ TagItem.lastModifiedBy (heap s l) = Some u).
Proof.
  destruct (collaborators_fold s (JsMap.values (tags s)) []) as (_ & I & _).
  cbv zeta in I. fold (collaborators s) in I. rewrite I. simpl.
  unfold getAllTags. tauto.
Qed.

(** The set of collaborators holds each name once; a name is in it when
    it is not empty and some tag of the map has it as creator or as last
    modifier; so the count is at most twice the number of tags.  The
    count is reported in workspace mode only. *)
Theorem collaborators_spec :
  forall s,
    NoDup (collaborators s)
    /\ (forall u,
           In u (collaborators s) <->
           u <> ""
           /\ exists l, In l (getAllTags s)
                /\ (TagItem.createdBy (heap s l) = Some u
                    \/ TagItem.lastModifiedBy (heap s l) = Some u))
    /\ List.length (collaborators s) <= 2 * JsMap.size (tags s)
    /\ userCount (getCollaborationInfo None s) = None
    /\ forall p, userCount (getCollaborationInfo (Some p) s)
                 = Some (List.length (collaborators s)).
Proof.
  intros s. destruct (collaborators_fold s (JsMap.values (tags s)) [])
    as (N & I & L). cbv zeta in *. fold (collaborators s) in N, I, L.
  split; [apply N; constructor|]. split.
  - intros u. rewrite I. simpl. unfold getAllTags. tauto.
  - split; [|split; [reflexivity | reflexivity]].
    unfold JsMap.values in L. rewrite length_map in L. simpl in L.
    unfold JsMap.size. lia.
Qed.

Lemma getCurrentUser_not_empty USER USERNAME :
  getCurrentUser USER USERNAME <> "".
Proof.
  unfold getCurrentUser, orElse.
  destruct USER as [u|]; [destruct (u =? "") eqn:E; str_eq; [|assumption]|];
    (destruct USERNAME as [n|];
     [destruct (n =? "") eqn:E'; str_eq; [discriminate | assumption]
     | discriminate]).
Qed.

(** Whatever [USER] and [USERNAME] hold, set or not, empty or not, the
    user who adds a tag is among the collaborators afterwards. *)
Theorem creator_is_collaborator :
  forall filePath tagName groupId description newId createdAt lastModified
         USER USERNAME choice s l,
    wf s ->
    let e := mkAddEnv newId createdAt lastModified
                      (getCurrentUser USER USERNAME) in
    snd (addTag filePath tagName groupId description e choice s) = Some l ->
    In (getCurrentUser USER USERNAME)
       (collaborators (fst (addTag filePath tagName groupId description e
                                   choice s))).
Proof.
  intros filePath tagName groupId description newId createdAt lastModified
         USER USERNAME choice s l Hwf e Hok.
  destruct (addTag_inv _ _ _ _ _ _ _ _ Hok) as (_ & s1 & Hs1 & Heq & ->).
  assert (Hwf1 : wf s1).
  { destruct Hs1 as [[-> _]|(x & _ & _ & ->)];
      [assumption | now apply wf_removeTag]. }
  rewrite Heq. apply In_collaborators.
  split; [apply getCurrentUser_not_empty|].
  exists (next s1). unfold insertTag, getAllTags. cbn [fst heap tags].
  split.
  - apply values_In. exists (env_id e).
    apply In_set; [apply (wf_keys Hwf1) | now left].
  - rewrite upd_same. left. reflexivity.
Qed.

Lemma creator_is_collaborator_witness :
  In "Unknown"
     (collaborators
        (fst (addTag "/f3.js" "T3" "group_A" None
                     (mkAddEnv "3_c" 300 300 (getCurrentUser (Some "") None))
                     ReplaceDismissed storeT2))).
Proof.
  exact (creator_is_collaborator "/f3.js" "T3" "group_A" None "3_c" 300 300
           (Some "") None ReplaceDismissed storeT2 2 wf_storeT2 eq_refl).
Defined.

(** ** The file view *)

Lemma get_set_same (V : Type) k (v : V) m : JsMap.get k (JsMap.set k v m) = Some v.
Proof.
  induction m as [|[k' v'] m IH]; simpl.
  - now rewrite String.eqb_refl.
  - destruct (k' =? k) eqn:E; simpl; [now rewrite String.eqb_refl|].
    now rewrite E.
Qed.

Lemma groupedByPath_step s done fileMap l :
  groupedByPath s done fileMap ->
  groupedByPath s (done ++ [l])
    (JsMap.modify (pathOf s l) (fun ts => ts ++ [l])
       (if mapHas (pathOf s l) fileMap then fileMap
        else JsMap.set (pathOf s l) [] fileMap)).
Proof.
  intros [ND Hget]. set (q := pathOf s l).
  set (fm1 := if mapHas q fileMap then fileMap else JsMap.set q [] fileMap).
  assert (ND1 : NoDup (JsMap.keys fm1)).
  { unfold fm1. destruct (mapHas q fileMap); [assumption|].
    now apply NoDup_keys_set. }
  assert (Hq : JsMap.get q fm1 = Some (filter (fun x => pathOf s x =? q) done)).
  { unfold fm1, mapHas. pose proof (Hget q) as Hgq.
    destruct (existsb (fun x => pathOf s x =? q) done) eqn:E;
      rewrite Hgq; [exact Hgq|].
    rewrite get_set_same. f_equal. symmetry. apply filter_none.
    intros x Hx. apply not_true_iff_false. intros Hc.
    apply not_true_iff_false in E. apply E. apply existsb_exists. eauto. }
  assert (Hother : forall p, p <> q -> JsMap.get p fm1 = JsMap.get p fileMap).
  { intros p Hp. unfold fm1. destruct (mapHas q fileMap); [reflexivity|].
    now apply get_set_other. }
  split; [now rewrite keys_modify|].
  intros p. rewrite get_modify, existsb_app, filter_app. cbn [existsb filter].
  fold q. destruct (p =? q) eqn:E; str_eq.
  - subst p. rewrite Hq, String.eqb_refl, orb_true_r. reflexivity.
  - rewrite Hother by assumption. rewrite Hget.
    assert (Eq : (q =? p) = false) by (apply String.eqb_neq; congruence).
    rewrite Eq, orb_false_r, app_nil_r. reflexivity.
Qed.

Lemma groupedByPath_fold s ls : forall done fileMap,
  groupedByPath s done fileMap ->
  groupedByPath s (done ++ ls)
    (fold_left (fun fm l =>
                  JsMap.modify (pathOf s l) (fun ts => ts ++ [l])
                    (if mapHas (pathOf s l) fm then fm
                     else JsMap.set (pathOf s l) [] fm))
               ls fileMap).
Proof.
  induction ls as [|l ls IH]; intros done fileMap H; cbn [fold_left].
  - now rewrite app_nil_r.
  - replace (done ++ l :: ls) with ((done ++ [l]) ++ ls)
      by (now rewrite <- app_assoc).
    apply IH. now apply groupedByPath_step.
Qed.

Lemma groupedByPath_fileMapOf s : groupedByPath s (getAllTags s) (fileMapOf s).
Proof.
  apply (groupedByPath_fold s (getAllTags s) [] (JsMap.empty (list loc))).
  split; [constructor | reflexivity].
Qed.

(** The file view shows every path that some tag has, once; the count in
    the label of a path is at least one and is the number of tags with
    that path.  For a path that is not empty it is the number of children
    that the item shows when it is opened; the item of the empty path
    shows no children.  Where no two tags share a path every count is
    one. *)
Theorem getFileView_spec :
  forall s,
    NoDup (map fst (getFileView s))
    /\ (forall p,
           In p (map fst (getFileView s)) <->
           exists l, In l (getAllTags s) /\ pathOf s l = p)
    /\ (forall p n,
           In (p, n) (getFileView s) ->
           1 <= n
           /\ n = List.length (getTagsForFile s p)
           /\ (p <> "" -> n = List.length (fileChildren s p)))
    /\ fileChildren s "" = []
    /\ (pathsDistinct s -> forall p n, In (p, n) (getFileView s) -> n = 1).
Proof.
  intros s. destruct (groupedByPath_fileMapOf s) as [ND Hget].
  assert (Hkeys : map fst (getFileView s) = JsMap.keys (fileMapOf s)).
  { unfold getFileView, JsMap.keys. now rewrite map_map. }
  assert (Hex : forall p,
    existsb (fun l => pathOf s l =? p) (getAllTags s) = true
    <-> exists l, In l (getAllTags s) /\ pathOf s l = p).
  { intros p. rewrite existsb_exists.
    split; intros (l & Hl & E); exists l; split; auto; now apply String.eqb_eq. }
  assert (Hitem : forall p n, In (p, n) (getFileView s) ->
    existsb (fun l => pathOf s l =? p) (getAllTags s) = true
    /\ n = List.length (getTagsForFile s p)).
  { intros p n Hin. unfold getFileView in Hin. apply in_map_iff in Hin.
    destruct Hin as ([p' ts] & [= <- <-] & Hin).
    apply (In_get _ _ _ _ ND) in Hin. rewrite Hget in Hin.
    destruct (existsb _ (getAllTags s)); [|discriminate].
    injection Hin as <-. split; reflexivity. }
  split; [now rewrite Hkeys|]. split; [|split; [|split; [reflexivity|]]].
  - intros p. rewrite Hkeys, <- Hex. split.
    + intros Hin. destruct (existsb _ (getAllTags s)) eqn:E; [reflexivity|].
      exfalso. apply (get_None _ p (fileMapOf s)); [|exact Hin].
      now rewrite Hget, E.
    + intros E. destruct (in_dec string_dec p (JsMap.keys (fileMapOf s)))
        as [Hin|Hn]; [assumption|].
      apply get_None in Hn. rewrite Hget, E in Hn. discriminate.
  - intros p n Hin. destruct (Hitem p n Hin) as [E ->]. split; [|split].
    + apply Hex in E. destruct E as (l & Hl & E).
      assert (Hc : In l (getTagsForFile s p)).
      { apply filter_In. split; [exact Hl | now apply String.eqb_eq]. }
      destruct (getTagsForFile s p); [contradiction | simpl; lia].
    + reflexivity.
    + intros Hp. unfold fileChildren. apply String.eqb_neq in Hp.
      now rewrite Hp.
  - intros PD p n Hin. destruct (Hitem p n Hin) as [E ->].
    unfold getTagsForFile.
    rewrite (filter_eq_at_most_one _ (pathOf s) p _ PD).
    apply Hex in E. destruct E as (l & Hl & E).
    destruct (find (fun x => pathOf s x =? p) (JsMap.values (tags s))) eqn:Ef;
      [reflexivity|].
    apply (find_none _ _ Ef) in Hl. str_eq. contradiction.
Qed.

Lemma getFileView_spec_witness :
  1 = List.length (fileChildren storeT2 "/f1.js")
  /\ List.length (getTagsForFile storeT2 "/src/Login.ts") = 1.
Proof.
  destruct (getFileView_spec storeT2) as (_ & _ & Hcount & _ & Hone).
  split.
  - apply (Hcount "/f1.js" 1); [left; reflexivity | discriminate].
  - destruct (Hcount "/src/Login.ts" 1) as (_ & <- & _);
      [right; left; reflexivity|].
    apply (Hone pathsDistinct_storeT2 "/src/Login.ts" 1).
    right. left. reflexivity.
Defined.

(** A tag filed under the empty path is counted in the file view, and its
    item shows no children. *)
Example getFileView_empty_path :
  let s := fst (addTag "" "Nowhere" "group_A" None env3 ReplaceDismissed
                       storeT2) in
  In ("", 1) (getFileView s) /\ fileChildren s "" = []
  /\ getTagsForFile s "" = [2].
Proof. cbv. auto. Qed.

Example getFileView_storeT2 :
  getFileView storeT2 = [("/f1.js", 1); ("/src/Login.ts", 1)].
Proof. reflexivity. Qed.

(** ** The group arrays mirror the map *)

Lemma In_modify_NoDup (V : Type) k (f : V -> V) (m : JsMap.t V) k' v' :
  NoDup (JsMap.keys m) ->
  In (k', v') (JsMap.modify k f m) ->
  (k' <> k /\ In (k', v') m)
  \/ (k' = k /\ exists v, In (k, v) m /\ v' = f v).
Proof.
  intros ND.
  destruct (modify_cases V k f m) as [(m1 & v0 & m2 & -> & _ & _ & ->)|[Hg ->]].
  - unfold JsMap.keys in ND. rewrite map_app in ND. simpl in ND.
    apply NoDup_remove_2 in ND. rewrite in_app_iff in ND.
    assert (Hk : forall w, In (k, w) m1 \/ In (k, w) m2 -> False).
    { intros w [H|H]; apply ND; [left|right];
        apply (in_map fst) in H; exact H. }
    rewrite !in_app_iff. simpl. intros [H|[H|H]].
    + left. split; [intros ->; eapply Hk; eauto | auto].
    + injection H as <- <-. right. split; [reflexivity|].
      exists v0. split; [|reflexivity]. apply in_app_iff. right. now left.
    + left. split; [intros ->; eapply Hk; eauto | auto].
  - intros H. left. split; [|assumption]. intros ->.
    apply get_None in Hg. apply Hg. eapply In_keys; eauto.
Qed.

Lemma filter_map_comm (A B : Type) (f : A -> B) (p : B -> bool) (l : list A) :
  map f (filter (fun x => p (f x)) l) = filter p (map f l).
Proof.
  induction l as [|x l IH]; simpl; [reflexivity|].
  destruct (p (f x)); simpl; now rewrite IH.
Qed.

Lemma filter_map_stable (A : Type) (phi : A -> A) (p : A -> bool) (l : list A) :
  (forall x, In x l -> p (phi x) = p x) ->
  filter p (map phi l) = map phi (filter p l).
Proof.
  induction l as [|x l IH]; simpl; intros H; [reflexivity|].
  rewrite (H x) by auto. destruct (p x); simpl; rewrite IH; auto.
Qed.

Lemma ids_contents s :
  wf s -> map TagItem.id (contents s) = JsMap.keys (tags s).
Proof.
  intros Hwf. unfold contents, getAllTags, JsMap.values, JsMap.keys.
  rewrite !map_map. apply map_ext_in. intros [k l] H.
  exact (wf_ids Hwf _ _ H).
Qed.

Lemma NoDup_ids_contents s : wf s -> NoDup (map TagItem.id (contents s)).
Proof. intros Hwf. rewrite ids_contents by assumption. apply (wf_keys Hwf). Qed.

Lemma In_contents s t :
  In t (contents s) <-> exists k l, In (k, l) (tags s) /\ heap s l = t.
Proof.
  unfold contents, getAllTags. rewrite in_map_iff. split.
  - intros (l & <- & Hl). apply values_In in Hl. destruct Hl as [k Hk]. eauto.
  - intros (k & l & H & <-). exists l. split; [reflexivity|].
    apply values_In. eauto.
Qed.

(** In a well-formed store a tag content of the map is known by its id. *)
Lemma content_by_id s t t' :
  wf s -> In t (contents s) -> In t' (contents s) ->
  TagItem.id t = TagItem.id t' -> t = t'.
Proof.
  intros Hwf Ht Ht' E.
  exact (NoDup_map_eq _ _ TagItem.id _ t t' (NoDup_ids_contents s Hwf) Ht Ht' E).
Qed.

Lemma contents_of_key s k l : In (k, l) (tags s) -> In (heap s l) (contents s).
Proof. intros H. apply In_contents. eauto. Qed.

(** The members of a group array, under [mirrors]. *)
Lemma mirrors_member s k g t :
  mirrors s -> In (k, g) (groups s) -> In t (TagGroup.tags g) ->
  In (heap s t) (contents s) /\ TagItem.group (heap s t) = k.
Proof.
  intros M Hg Ht.
  assert (H : In (heap s t) (map (heap s) (TagGroup.tags g)))
    by (now apply in_map).
  rewrite (M _ _ Hg) in H. apply filter_In in H.
  destruct H as [H E]. str_eq. auto.
Qed.

Lemma contents_delete_gen (h : Heap) k : forall m : JsMap.t loc,
  (forall k' l, In (k', l) m -> TagItem.id (h l) = k') ->
  map h (JsMap.values (JsMap.delete k m))
  = filter (fun t => negb (TagItem.id t =? k)) (map h (JsMap.values m)).
Proof.
  induction m as [|[k' l] m IH]; simpl; intros H; [reflexivity|].
  rewrite (H k' l) by auto.
  destruct (negb (k' =? k)); simpl; rewrite IH; auto.
Qed.

Lemma contents_fold_delete (h : Heap) ks : forall m : JsMap.t loc,
  (forall k' l, In (k', l) m -> TagItem.id (h l) = k') ->
  map h (JsMap.values (fold_left (fun m' k' => JsMap.delete k' m') ks m))
  = filter (fun t => negb (existsb (String.eqb (TagItem.id t)) ks))
           (map h (JsMap.values m)).
Proof.
  induction ks as [|k ks IH]; intros m H; simpl.
  - symmetry. apply filter_all. auto.
  - rewrite IH.
    + rewrite contents_delete_gen by assumption. rewrite filter_twice.
      apply filter_ext. intros t. now rewrite negb_orb.
    + intros k' l Hin. apply In_delete in Hin. apply H. tauto.
Qed.

Lemma mirrors_insertTag filePath tagName groupId description e s :
  wf s -> mirrors s ->
  JsMap.get (env_id e) (tags s) = None ->
  mirrors (fst (insertTag filePath tagName groupId description e s)).
Proof.
  intros Hwf M Hnew. unfold insertTag, mirrors, contents, getAllTags.
  cbn [fst heap tags groups].
  set (T := newTag filePath tagName groupId description e).
  set (h := upd (heap s) (next s) T).
  rewrite (set_absent _ _ _ _ (proj1 (get_None _ _ _) Hnew)).
  assert (Hc : map h (JsMap.values (tags s ++ [(env_id e, next s)]))
               = contents s ++ [T]).
  { unfold JsMap.values. rewrite !map_app. cbn [map snd]. unfold h at 2.
    rewrite upd_same. f_equal. apply map_ext_in. intros l Hl. unfold h.
    apply upd_other. apply in_map_iff in Hl.
    destruct Hl as ([k l'] & <- & Hl). apply (wf_alloc Hwf) in Hl. simpl. lia. }
  rewrite Hc.
  assert (Harr : forall k g, In (k, g) (groups s) ->
            map h (TagGroup.tags g) = map (heap s) (TagGroup.tags g)).
  { intros k g Hg. apply map_ext_in. intros l Hl. unfold h. apply upd_other.
    pose proof (wf_galloc Hwf _ _ _ Hg Hl). lia. }
  intros k g Hin. apply In_modify_NoDup in Hin; [|apply (wf_gkeys Hwf)].
  rewrite filter_app. cbn [filter T newTag TagItem.group].
  destruct Hin as [[Hne Hin]|(-> & g0 & Hin & ->)].
  - rewrite (Harr _ _ Hin), (M _ _ Hin).
    assert (E : (groupId =? k) = false) by (apply String.eqb_neq; congruence).
    rewrite E. now rewrite app_nil_r.
  - cbn [TagGroup.withTags TagGroup.tags]. rewrite map_app.
    rewrite (Harr _ _ Hin), (M _ _ Hin), String.eqb_refl. cbn [map].
    unfold h. now rewrite upd_same.
Qed.

Lemma mirrors_removeTag tagId s :
  wf s -> mirrors s -> mirrors (fst (removeTag tagId s)).
Proof.
  intros Hwf M. unfold removeTag.
  destruct (JsMap.get tagId (tags s)) as [l0|] eqn:E; [|assumption].
  unfold mirrors, contents, getAllTags. cbn [fst heap tags groups].
  rewrite (contents_delete_gen (heap s) tagId (tags s) (wf_ids Hwf)).
  fold (getAllTags s). fold (contents s).
  assert (H0 : In (heap s l0) (contents s))
    by (eapply contents_of_key, get_In; eauto).
  assert (Hid0 : TagItem.id (heap s l0) = tagId)
    by (apply (wf_ids Hwf); now apply get_In).
  intros k g Hin. apply In_modify_NoDup in Hin; [|apply (wf_gkeys Hwf)].
  destruct Hin as [[Hne Hin]|(-> & g0 & Hin & ->)].
  - rewrite (M _ _ Hin), filter_twice. apply filter_ext_in. intros t Ht.
    destruct (TagItem.group t =? k) eqn:Eg; [|now rewrite andb_false_r].
    rewrite andb_true_r. symmetry. apply negb_true_iff, String.eqb_neq.
    intros Hc. apply Hne. str_eq. rewrite <- Eg.
    rewrite (content_by_id s t (heap s l0) Hwf Ht H0) by congruence.
    reflexivity.
  - cbn [TagGroup.withTags TagGroup.tags].
    rewrite (filter_map_comm _ _ (heap s)
               (fun t => negb (TagItem.id t =? tagId))).
    rewrite (M _ _ Hin), !filter_twice. apply filter_ext. intros t.
    apply andb_comm.
Qed.

Lemma mirrors_addTag filePath tagName groupId description e choice s :
  wf s -> mirrors s ->
  JsMap.get (env_id e) (tags s) = None ->
  mirrors (fst (addTag filePath tagName groupId description e choice s)).
Proof.
  intros Hwf M Hnew. unfold addTag.
  destruct (isTagNameExists s tagName None); [assumption|].
  destruct (getTagForFile s filePath) as [existing|].
  - destruct choice; try assumption.
    apply mirrors_insertTag;
      [now apply wf_removeTag | now apply mirrors_removeTag|].
    destruct (removeTag_heap s (idOf s existing)) as (_ & _ & -> & _).
    apply get_None. intros Hin. apply keys_In in Hin. destruct Hin as [v Hin].
    apply In_delete in Hin. destruct Hin as [Hin _].
    apply get_None in Hnew. apply Hnew. eapply In_keys; eauto.
  - now apply mirrors_insertTag.
Qed.

Lemma mirrors_createGroup newId name s :
  NoDup (JsMap.keys (groups s)) ->
  freshGroupId s newId -> mirrors s ->
  mirrors (fst (createGroup newId name s)).
Proof.
  intros ND [_ Hfresh] M. unfold createGroup, mirrors, contents, getAllTags.
  cbn [fst heap tags groups]. intros k g Hin.
  apply In_set in Hin; [|assumption].
  destruct Hin as [[-> ->]|[_ Hin]]; [|exact (M _ _ Hin)].
  cbn [TagGroup.tags map]. symmetry. apply filter_none. intros t Ht.
  apply String.eqb_neq. apply in_map_iff in Ht. destruct Ht as (l & <- & Hl).
  apply values_In in Hl. destruct Hl as [k Hk]. exact (Hfresh _ _ Hk).
Qed.

Lemma mirrors_removeGroup groupId s :
  wf s -> mirrors s -> mirrors (fst (removeGroup groupId s)).
Proof.
  intros Hwf M. unfold removeGroup.
  destruct (JsMap.get groupId (groups s)) as [G|] eqn:E; [|assumption].
  pose proof (get_In _ _ _ _ E) as HG.
  unfold mirrors, contents, getAllTags. cbn [fst heap tags groups].
  rewrite removeGroup_tags.
  rewrite (contents_fold_delete (heap s) _ (tags s) (wf_ids Hwf)).
  fold (getAllTags s). fold (contents s).
  assert (Hids : forall t, In t (contents s) ->
    existsb (String.eqb (TagItem.id t)) (map (idOf s) (TagGroup.tags G))
    = (TagItem.group t =? groupId)).
  { intros t Ht.
    assert (Hmap : map (idOf s) (TagGroup.tags G)
                   = map TagItem.id (filter (fun x => TagItem.group x =? groupId)
                                            (contents s))).
    { rewrite <- (M _ _ HG), map_map. reflexivity. }
    rewrite Hmap. destruct (TagItem.group t =? groupId) eqn:Eg.
    - apply existsb_exists. exists (TagItem.id t).
      split; [|apply String.eqb_refl]. apply in_map. apply filter_In. auto.
    - apply not_true_iff_false. rewrite existsb_exists.
      intros (i & Hi & Ei). str_eq. subst i. apply in_map_iff in Hi.
      destruct Hi as (t' & Et' & Ht'). apply filter_In in Ht'.
      destruct Ht' as [Ht' Eg']. str_eq.
      rewrite (content_by_id s t t' Hwf Ht Ht') in Eg by congruence.
      contradiction. }
  intros k g Hin. apply In_delete in Hin. destruct Hin as [Hin Hne].
  rewrite (M _ _ Hin), filter_twice. apply filter_ext_in. intros t Ht.
  rewrite (Hids t Ht).
  destruct (TagItem.group t =? k) eqn:Eg; [|now rewrite andb_false_r].
  rewrite andb_true_r. symmetry. apply negb_true_iff, String.eqb_neq.
  str_eq. congruence.
Qed.

(** The array after [editTag] has put the map's object at the place of
    the entry with the edited id. *)
Lemma resync_contents (h0 h : Heap) (phi : TagItem.t -> TagItem.t)
    (tagId : string) (l0 : loc) xs :
  (forall x, TagItem.id (h x) = TagItem.id (h0 x)) ->
  (forall x, TagItem.id (h0 x) = tagId -> h l0 = phi (h0 x)) ->
  (forall x, TagItem.id (h0 x) <> tagId -> h x = h0 x /\ phi (h0 x) = h0 x) ->
  NoDup (map (fun x => TagItem.id (h0 x)) xs) ->
  map h (match findIndex (fun t => TagItem.id (h t) =? tagId) xs with
         | Some i => setNth i l0 xs
         | None => xs
         end)
  = map phi (map h0 xs).
Proof.
  intros Hid Hhit Hmiss. induction xs as [|x xs IH]; intros ND;
    [reflexivity|].
  inversion ND as [|? ? Hn ND']; subst. cbn [findIndex].
  destruct (TagItem.id (h x) =? tagId) eqn:E; str_eq.
  - rewrite Hid in E. cbn [setNth map]. f_equal; [now apply Hhit|].
    rewrite map_map. apply map_ext_in. intros y Hy.
    assert (Hy' : TagItem.id (h0 y) <> tagId).
    { intros Hc. apply Hn. rewrite E, <- Hc.
      exact (in_map (fun z => TagItem.id (h0 z)) xs y Hy). }
    destruct (Hmiss y Hy') as [-> ->]. reflexivity.
  - rewrite Hid in E. destruct (Hmiss x E) as [Hx Hp].
    specialize (IH ND').
    destruct (findIndex (fun t => TagItem.id (h t) =? tagId) xs) as [i|];
      cbn [option_map setNth map]; rewrite Hx, Hp; f_equal; exact IH.
Qed.

Lemma mirrors_editTag tagId newName newDescription now user s :
  wf s -> mirrors s ->
  mirrors (fst (editTag tagId newName newDescription now user s)).
Proof.
  intros Hwf M. unfold editTag.
  destruct (JsMap.get tagId (tags s)) as [l0|] eqn:E; [|assumption].
  destruct (isTagNameExists s newName (Some tagId)); [assumption|].
  unfold mirrors, contents, getAllTags. cbn [fst heap tags groups].
  rewrite upd_same. cbn [editedTag TagItem.group].
  set (T := editedTag (heap s l0) newName newDescription now user).
  set (h := upd (heap s) l0 T).
  set (phi := fun t => if TagItem.id t =? tagId then T else t).
  pose proof (get_In _ _ _ _ E) as Hin0.
  assert (Hid0 : TagItem.id (heap s l0) = tagId) by (apply (wf_ids Hwf _ _ Hin0)).
  assert (H0 : In (heap s l0) (contents s)) by (eapply contents_of_key; eauto).
  assert (Hidh : forall x, TagItem.id (h x) = TagItem.id (heap s x)).
  { intros x. unfold h. destruct (Nat.eq_dec x l0) as [->|Hne].
    - now rewrite upd_same.
    - now rewrite upd_other. }
  assert (Hmiss : forall x, TagItem.id (heap s x) <> tagId ->
            h x = heap s x /\ phi (heap s x) = heap s x).
  { intros x Hx. split.
    - unfold h. apply upd_other. intros ->. contradiction.
    - unfold phi. apply String.eqb_neq in Hx. now rewrite Hx. }
  assert (Hhit : forall x, TagItem.id (heap s x) = tagId ->
            h l0 = phi (heap s x)).
  { intros x Hx. unfold h, phi. rewrite upd_same.
    apply String.eqb_eq in Hx. now rewrite Hx. }
  assert (Hc : map h (JsMap.values (tags s)) = map phi (contents s)).
  { unfold contents, getAllTags. rewrite map_map. apply map_ext_in.
    intros l Hl.
    destruct (string_dec (TagItem.id (heap s l)) tagId) as [Heq|Hne].
    - assert (l = l0) as ->.
      { apply values_In in Hl. destruct Hl as [k Hk].
        pose proof (wf_ids Hwf _ _ Hk) as Hk'. unfold idOf in Hk'.
        rewrite Heq in Hk'. subst k.
        exact (NoDup_keys_inj _ _ _ _ _ (wf_keys Hwf) Hk Hin0). }
      now apply Hhit.
    - destruct (Hmiss l Hne) as [-> ->]. reflexivity. }
  rewrite Hc.
  assert (Hgrp : forall k t, In t (contents s) ->
            (TagItem.group (phi t) =? k) = (TagItem.group t =? k)).
  { intros k t Ht. unfold phi.
    destruct (TagItem.id t =? tagId) eqn:Et; [|reflexivity]. str_eq.
    rewrite (content_by_id s t (heap s l0) Hwf Ht H0) by congruence.
    reflexivity. }
  intros k g Hin. rewrite filter_map_stable by (intros; now apply Hgrp).
  apply In_modify_NoDup in Hin; [|apply (wf_gkeys Hwf)].
  destruct Hin as [[Hne Hin]|(-> & g0 & Hin & ->)].
  - rewrite <- (M _ _ Hin), map_map. apply map_ext_in. intros t Ht.
    destruct (mirrors_member s k g t M Hin Ht) as [Hcont Hg].
    assert (Hnt : TagItem.id (heap s t) <> tagId).
    { intros Hc'. apply Hne. rewrite <- Hg.
      rewrite (content_by_id s (heap s t) (heap s l0) Hwf Hcont H0)
        by congruence.
      reflexivity. }
    destruct (Hmiss t Hnt) as [-> ->]. reflexivity.
  - rewrite <- (M _ _ Hin).
    rewrite <- (resync_contents (heap s) h phi tagId l0 (TagGroup.tags g0)
                  Hidh Hhit Hmiss).
    + destruct (findIndex _ (TagGroup.tags g0)); reflexivity.
    + rewrite <- map_map, (M _ _ Hin). apply NoDup_map_filter.
      now apply NoDup_ids_contents.
Qed.

Lemma contents_by_view s : contents s = map snd (tagsView s).
Proof.
  unfold contents, getAllTags, tagsView, JsMap.values. now rewrite !map_map.
Qed.

Lemma mirrors_by_view s :
  mirrors s <->
  forall k j, In (k, j) (groupsView s) ->
              GroupJson.tags j
              = filter (fun t => TagItem.group t =? k) (map snd (tagsView s)).
Proof.
  unfold mirrors. rewrite <- contents_by_view. split.
  - intros M k j Hin. apply In_groupsView in Hin.
    destruct Hin as (g & Hg & <-). exact (M _ _ Hg).
  - intros M k g Hg. apply (M k (groupJson s g)). apply In_groupsView. eauto.
Qed.

Lemma mirrors_load now defaultId s0 s :
  wf s -> mirrors s ->
  (forall k l, In (k, l) (tags s) -> groupOf s l <> defaultId) ->
  mirrors (loadFromWorkspace (saveToWorkspace now s) defaultId s0).
Proof.
  intros Hwf M Hfresh. unfold loadFromWorkspace.
  destruct (allocList _ (heap s0) (next s0)) as [[h1 n1] tls] eqn:E1.
  destruct (allocGroups _ h1 n1) as [[h2 n2] gls] eqn:E2.
  destruct (load_views now s0 s Hwf h1 n1 tls h2 n2 gls E1 E2)
    as (Ht & Hg & Hsz).
  set (tags' := fold_left _ (combine _ tls) _) in *.
  set (groups' := fold_left _ gls _) in *.
  assert (Hloaded : mirrors (mkTM h2 n2 tags' groups')).
  { apply mirrors_by_view. rewrite Ht, Hg. now apply mirrors_by_view. }
  destruct (Nat.eqb (JsMap.size groups') 0) eqn:Ez; [|exact Hloaded].
  apply Nat.eqb_eq in Ez.
  assert (Hnil : groups' = []) by (destruct groups'; [reflexivity|discriminate]).
  apply mirrors_createGroup; [| |exact Hloaded].
  - cbn [groups]. rewrite Hnil. constructor.
  - split; [cbn [groups]; now rewrite Hnil|].
    cbn [tags]. intros k l H.
    assert (Hv : In (k, h2 l) (tagsView s)).
    { rewrite <- Ht. apply In_tagsView. eauto. }
    apply In_tagsView in Hv. destruct Hv as (l' & H' & E').
    unfold groupOf. cbn [heap]. rewrite <- E'. apply (Hfresh _ _ H').
Qed.

Lemma reachableFresh_reachable s : reachableFresh s -> reachable s.
Proof.
  induction 1 as [|s c _ IH _ Hg|s s0 now defaultId _ IH Hf].
  - apply reach_new.
  - now apply reach_call.
  - now apply reach_load.
Qed.

Lemma reachableFresh_mirrors s : reachableFresh s -> mirrors s.
Proof.
  induction 1 as [|s c Hr IH Ht Hg|s s0 now defaultId Hr IH Hf].
  - intros k g [].
  - pose proof (inv_wf (reachable_storeInv s (reachableFresh_reachable s Hr)))
      as Hwf.
    destruct c; simpl in *.
    + now apply mirrors_addTag.
    + now apply mirrors_editTag.
    + now apply mirrors_removeTag.
    + apply mirrors_createGroup; [apply (wf_gkeys Hwf) | | assumption].
      eapply Hg. reflexivity.
    + now apply mirrors_removeGroup.
  - apply mirrors_load; [|assumption|assumption].
    exact (inv_wf (reachable_storeInv s (reachableFresh_reachable s Hr))).
Qed.

Lemma reachableFresh_storeT2 : reachableFresh storeT2.
Proof.
  unfold storeT2, storeT1, storeA.
  apply (@fresh_call _ (CallAddTag "/src/Login.ts" "Auth" "group_A"
                          (Some "User login") env2 ReplaceDismissed));
    [|reflexivity|discriminate].
  apply (@fresh_call _ (CallAddTag "/f1.js" "T1" "group_A" None env1
                          ReplaceDismissed)); [|reflexivity|discriminate].
  apply (@fresh_call _ (CallCreateGroup "group_A" "A"));
    [apply fresh_new | exact I|].
  intros newId name [= <- <-]. split; [reflexivity | intros k l []].
Qed.

Lemma reachableFresh_storeLoaded : reachableFresh storeLoaded.
Proof.
  unfold storeLoaded. apply fresh_load; [apply reachableFresh_storeT2|].
  intros k l [H|[H|[]]]; injection H as <- <-; discriminate.
Qed.

Lemma reachableFresh_wf s : reachableFresh s -> wf s.
Proof.
  intros H. exact (inv_wf (reachable_storeInv s (reachableFresh_reachable s H))).
Qed.

(** In every store that a manager reaches with new ids (calls of the
    five mutators, loads of saved snapshots), the array of each group
    holds the tags of the map whose [group] is that group's id: the same
    ids and contents, in the order of the map.  The two structures never
    drift apart. *)
Theorem group_arrays_mirror_map :
  forall s,
    reachableFresh s ->
    forall groupId g,
      getGroup s groupId = Some g ->
      map (heap s) (getTagsByGroup s groupId)
      = filter (fun t => TagItem.group t =? groupId) (contents s).
Proof.
  intros s Hr groupId g Hg. unfold getGroup in Hg. unfold getTagsByGroup.
  rewrite Hg. apply (reachableFresh_mirrors s Hr). now apply get_In.
Qed.

Lemma group_arrays_mirror_map_witness :
  map (heap storeLoaded) (getTagsByGroup storeLoaded "group_A")
  = filter (fun t => TagItem.group t =? "group_A") (contents storeLoaded).
Proof.
  exact (group_arrays_mirror_map storeLoaded reachableFresh_storeLoaded
           "group_A" (TagGroup.mk "group_A" "A" [4; 5]) eq_refl).
Defined.

(** In such a store the group view is right: the count in the label of a
    group is the number of tags of the map whose [group] is that group,
    and the children shown under it are those tags. *)
Theorem getGroupView_counts :
  forall s,
    reachableFresh s ->
    forall name n g,
      In (name, n, g) (getGroupView s) ->
      name = TagGroup.name g
      /\ map (heap s) (groupChildren g)
         = filter (fun t => TagItem.group t =? TagGroup.id g) (contents s)
      /\ n = List.length
               (filter (fun t => TagItem.group t =? TagGroup.id g) (contents s)).
Proof.
  intros s Hr name n g Hin. unfold getGroupView in Hin.
  apply in_map_iff in Hin. destruct Hin as (g' & [= <- <- <-] & Hg).
  unfold getAllGroups in Hg. apply values_In in Hg. destruct Hg as [k Hk].
  pose proof (wf_gids (reachableFresh_wf s Hr) _ _ Hk) as Hid.
  pose proof (reachableFresh_mirrors s Hr _ _ Hk) as M. rewrite <- Hid in M.
  split; [reflexivity|]. split; [exact M|].
  unfold groupChildren in M. now rewrite <- M, length_map.
Qed.

Lemma getGroupView_counts_witness :
  2 = List.length
        (filter (fun t => TagItem.group t =? "group_A") (contents storeLoaded)).
Proof.
  exact (proj2 (proj2 (getGroupView_counts storeLoaded
                         reachableFresh_storeLoaded "A" 2
                         (TagGroup.mk "group_A" "A" [4; 5])
                         (or_introl eq_refl)))).
Defined.

(** In such a store [removeGroup] of a group that exists takes away
    exactly the tags whose [group] is that group and keeps all others in
    their order, and takes away that group alone. *)
Theorem removeGroup_exact :
  forall s groupId g,
    reachableFresh s ->
    getGroup s groupId = Some g ->
    let s' := fst (removeGroup groupId s) in
    contents s'
    = filter (fun t => negb (TagItem.group t =? groupId)) (contents s)
    /\ groups s' = filter (fun e => negb (fst e =? groupId)) (groups s)
    /\ heap s' = heap s.
Proof.
  intros s groupId g Hr Hg s'. subst s'. unfold getGroup in Hg.
  pose proof (reachableFresh_wf s Hr) as Hwf.
  pose proof (reachableFresh_mirrors s Hr) as M.
  pose proof (get_In _ _ _ _ Hg) as HG.
  unfold removeGroup. rewrite Hg. unfold contents, getAllTags.
  cbn [fst heap tags groups]. split; [|split; reflexivity].
  rewrite removeGroup_tags.
  rewrite (contents_fold_delete (heap s) _ (tags s) (wf_ids Hwf)).
  fold (getAllTags s). fold (contents s).
  apply filter_ext_in. intros t Ht. f_equal.
  assert (Hmap : map (idOf s) (TagGroup.tags g)
                 = map TagItem.id (filter (fun x => TagItem.group x =? groupId)
                                          (contents s))).
  { rewrite <- (M _ _ HG), map_map. reflexivity. }
  rewrite Hmap. destruct (TagItem.group t =? groupId) eqn:Eg.
  - apply existsb_exists. exists (TagItem.id t).
    split; [|apply String.eqb_refl]. apply in_map. apply filter_In. auto.
  - apply not_true_iff_false. rewrite existsb_exists.
    intros (i & Hi & Ei). str_eq. subst i. apply in_map_iff in Hi.
    destruct Hi as (t' & Et' & Ht'). apply filter_In in Ht'.
    destruct Ht' as [Ht' Eg']. str_eq.
    rewrite (content_by_id s t t' Hwf Ht Ht') in Eg by congruence.
    contradiction.
Qed.

Lemma removeGroup_exact_witness :
  contents (fst (removeGroup "group_A" storeLoaded))
  = filter (fun t => negb (TagItem.group t =? "group_A")) (contents storeLoaded).
Proof.
  exact (proj1 (removeGroup_exact storeLoaded "group_A"
                  (TagGroup.mk "group_A" "A" [4; 5])
                  reachableFresh_storeLoaded eq_refl)).
Defined.

(** ** The "add tag" command *)



(** The command on a store whose groups were replaced while it waited:
    the tag is created with a group that the map does not hold. *)
Example addTagCommand_after_reload :
  let r := addTagCommand (fun x => x) (Some "/f3.js") (Some "T3") (Some 0)
             None env3 ReplaceDismissed storeT2 storeNoGroup in
  snd r = Some 2 /\ groupOf (fst r) 2 = "group_A"
  /\ getGroup (fst r) "group_A" = None.
Proof. repeat split. Qed.

(** ** Loading data with repeated ids *)

Lemma get_set (V : Type) k k' (v : V) m :
  JsMap.get k (JsMap.set k' v m) = if k' =? k then Some v else JsMap.get k m.
Proof.
  destruct (k' =? k) eqn:E; str_eq.
  - subst. apply get_set_same.
  - apply get_set_other. congruence.
Qed.

Lemma find_app (A : Type) (p : A -> bool) (l1 l2 : list A) :
  find p (l1 ++ l2)
  = match find p l1 with
    | Some x => Some x
    | None => find p l2
    end.
Proof.
  induction l1 as [|x l1 IH]; simpl; [reflexivity|].
  destruct (p x); [reflexivity | exact IH].
Qed.

(** After a run of [set]s a key holds the value of the last [set] on it. *)
Lemma get_fold_set (V E : Type) (key : E -> string) (val : E -> V) k es :
  forall m,
    JsMap.get k (fold_left (fun m' e => JsMap.set (key e) (val e) m') es m)
    = match find (fun e => key e =? k) (rev es) with
      | Some e => Some (val e)
      | None => JsMap.get k m
      end.
Proof.
  induction es as [|e es IH]; intros m; simpl; [reflexivity|].
  rewrite IH, find_app. destruct (find _ (rev es)); [reflexivity|].
  simpl. rewrite get_set. now destruct (key e =? k).
Qed.

Lemma find_map (A B : Type) (f : A -> B) (p : B -> bool) (l : list A) :
  find p (map f l) = option_map f (find (fun x => p (f x)) l).
Proof.
  induction l as [|x l IH]; simpl; [reflexivity|].
  destruct (p (f x)); [reflexivity | exact IH].
Qed.

Lemma combine_alloc (A : Type) (h : loc -> A) ls :
  combine (map h ls) ls = map (fun l => (h l, l)) ls.
Proof. induction ls as [|l ls IH]; simpl; [reflexivity | now rewrite IH]. Qed.

(** Looking up an id after [loadData]: the content is that of the last
    saved tag with this id, and without one it is what the map held
    before; after [loadFromWorkspace], which clears the maps, an id that
    no tag of the file has is absent. *)
Theorem load_lookup :
  forall savedTags savedGroups data defaultId s k,
    wf s ->
    option_map (heap (loadData savedTags savedGroups defaultId s))
               (JsMap.get k (tags (loadData savedTags savedGroups defaultId s)))
    = match find (fun t => TagItem.id t =? k) (rev savedTags) with
      | Some t => Some t
      | None => option_map (heap s) (JsMap.get k (tags s))
      end
    /\ option_map (heap (loadFromWorkspace data defaultId s))
                  (JsMap.get k (tags (loadFromWorkspace data defaultId s)))
       = find (fun t => TagItem.id t =? k) (rev (TagDatabase.tags data)).
Proof.
  intros savedTags savedGroups data defaultId s k Hwf.
  assert (H : forall ts gs s0,
    (forall k0 l, In (k0, l) (tags s0) -> l < next s0) ->
    option_map (heap (loadData ts gs defaultId s0))
               (JsMap.get k (tags (loadData ts gs defaultId s0)))
    = match find (fun t => TagItem.id t =? k) (rev ts) with
      | Some t => Some t
      | None => option_map (heap s0) (JsMap.get k (tags s0))
      end).
  { intros ts gs s0 Halloc. unfold loadData.
    destruct (allocList ts (heap s0) (next s0)) as [[h1 n1] tls] eqn:E1.
    destruct (allocGroups gs h1 n1) as [[h2 n2] gls] eqn:E2.
    destruct (allocList_spec _ _ _ _ _ _ E1) as (Hn1 & Hold1 & Hin1 & Hmap1).
    destruct (allocGroups_spec _ _ _ _ _ _ E2) as (_ & Hold2 & _).
    assert (Hmap : map h2 tls = ts).
    { rewrite <- Hmap1. apply map_ext_in. intros x Hx. apply Hold2.
      apply Hin1 in Hx. lia. }
    set (groups' := fold_left _ gls _).
    assert (Hres : option_map h2
        (JsMap.get k
           (fold_left (fun m tl => JsMap.set (TagItem.id (fst tl)) (snd tl) m)
                      (combine ts tls) (tags s0)))
      = match find (fun t => TagItem.id t =? k) (rev ts) with
        | Some t => Some t
        | None => option_map (heap s0) (JsMap.get k (tags s0))
        end).
    { rewrite get_fold_set.
      assert (Hle : next s0 <= n1) by lia. clear E1 Hmap1 Hn1. subst ts.
      rewrite combine_alloc, <- !map_rev, !find_map. cbn [fst].
      destruct (find _ (rev tls)) as [l|]; [reflexivity|]. cbn [option_map].
      destruct (JsMap.get k (tags s0)) as [l|] eqn:Eg; [|reflexivity].
      cbn [option_map]. f_equal. apply get_In in Eg. apply Halloc in Eg.
      rewrite Hold2 by lia. now apply Hold1. }
    destruct (Nat.eqb (JsMap.size groups') 0); exact Hres. }
  split; [apply H, (wf_alloc Hwf)|].
  change (loadFromWorkspace data defaultId s)
    with (loadData (TagDatabase.tags data) (TagDatabase.groups data) defaultId
                   (cleared s)).
  rewrite (H _ _ (cleared s)) by (intros k0 l []).
  now destruct (find _ (rev (TagDatabase.tags data))).
Qed.

Lemma load_lookup_witness :
  option_map
    (heap (loadFromWorkspace
             (TagDatabase.mk [newTag "/a.js" "First" "g" None env1;
                              newTag "/b.js" "Second" "g" None env1] [] 1 0)
             "group_new" storeT2))
    (JsMap.get "1_a"
       (tags (loadFromWorkspace
                (TagDatabase.mk [newTag "/a.js" "First" "g" None env1;
                                 newTag "/b.js" "Second" "g" None env1] [] 1 0)
                "group_new" storeT2)))
  = Some (newTag "/b.js" "Second" "g" None env1).
Proof.
  exact (proj2 (load_lookup [] []
                  (TagDatabase.mk [newTag "/a.js" "First" "g" None env1;
                                   newTag "/b.js" "Second" "g" None env1] [] 1 0)
                  "group_new" storeT2 "1_a" wf_storeT2)).
Defined.

(** ** Cleaning up twice *)

(** After a cleanup that deleted all invalid tags, with the file system
    unchanged, no tag of the map is invalid: a second cleanup shows no
    dialog, returns 0 and leaves the store as it is. *)
Theorem cleanup_twice :
  forall existsSync answers answers' choice' s,
    wf s ->
    let s1 := cr_store (cleanupInvalidTags existsSync DeleteAll answers s) in
    invalidTagsOf existsSync s1 = []
    /\ cleanupInvalidTags existsSync choice' answers' s1 = mkCleanup s1 0 0.
Proof.
  intros existsSync answers answers' choice' s Hwf s1.
  assert (Hnone : invalidTagsOf existsSync s1 = []).
  { subst s1. unfold cleanupInvalidTags.
    destruct (invalidTagsOf existsSync s) as [|t ts] eqn:E;
      cbn [cr_store]; [exact E|].
    rewrite <- E.
    destruct (removeAll_spec (invalidTagsOf existsSync s) s Hwf)
      as (_ & Hh & Hv & _).
    - apply NoDup_filter. now apply NoDup_values.
    - intros x Hx. apply filter_In in Hx. tauto.
    - unfold invalidTagsOf at 1. unfold pathOf. rewrite Hv, Hh, filter_twice.
      apply filter_none. intros l Hl.
      unfold invalidTagsOf. rewrite existsb_filter_mem by assumption.
      unfold pathOf. now destruct (existsSync (TagItem.filePath (heap s l))). }
  split; [exact Hnone|]. unfold cleanupInvalidTags. now rewrite Hnone.
Qed.

Lemma cleanup_twice_witness :
  cleanupInvalidTags (fun p => p =? "/f1.js") ConfirmEach
    (fun _ => ConfirmDelete)
    (cr_store (cleanupInvalidTags (fun p => p =? "/f1.js") DeleteAll
                 (fun _ => ConfirmKeep) storeT2))
  = mkCleanup
      (cr_store (cleanupInvalidTags (fun p => p =? "/f1.js") DeleteAll
                   (fun _ => ConfirmKeep) storeT2)) 0 0.
Proof.
  exact (proj2 (cleanup_twice (fun p => p =? "/f1.js") (fun _ => ConfirmKeep)
                  (fun _ => ConfirmDelete) ConfirmEach storeT2 wf_storeT2)).
Defined.
